(** * light-vs-pixels: the rendering pipeline of [src/App.tsx]

    A shallow embedding of the three renderers of the application (the
    stipple transform of the left pane, the noise loop and the 90-step
    denoise loop of the right pane) and of the React component that
    sequences them, followed by the properties of its specification.

    Layout
    - [JSNumber]: the operations on JavaScript Numbers the program uses,
      with two instances: IEEE binary64 ([float], what a browser
      computes) and the real numbers ([R], the reading under which the
      specification states its formulas).
    - [Schedule], [Denoiser], [Stipple]: the numeric code, written once
      over [JSNumber].
    - [Component]: the React state, the effect of lines 39-162, the
      [captureSubject] callback and the host's animation-frame queue, as
      a transition function on an explicit world. *)

From Stdlib Require Import ZArith Reals Lra Lia Floats Zfloor.
From Stdlib Require Import Ascii String.
From stdpp Require Import base list.

Set Default Proof Using "Type".

(** ** JavaScript Numbers *)

Declare Scope js_scope.
Delimit Scope js_scope with js.

(** The Number operations that occur in the source.  Loop counters and
    array indices that the source only ever increments from [0] are kept
    in [Z] and enter Number arithmetic through [ofZ]. *)
Class JSNumber (Num : Type) := {
  (** an integer literal, or an integer-valued Number *)
  ofZ : Z -> Num;
  (** the decimal literal [m / 10^k], e.g. [1.2] is [decimal 12 1] *)
  decimal : Z -> nat -> Num;
  js_add : Num -> Num -> Num;
  js_sub : Num -> Num -> Num;
  js_mul : Num -> Num -> Num;
  js_div : Num -> Num -> Num;
  (** the remainder operator [%] *)
  js_rem : Num -> Num -> Num;
  (** the comparison [<] *)
  js_lt : Num -> Num -> bool;
  Math_max : Num -> Num -> Num;
  Math_min : Num -> Num -> Num;
  Math_floor : Num -> Num;
  Math_pow : Num -> Num -> Num;
  (** the conversion applied by a store into a [Uint8ClampedArray] *)
  ToUint8Clamp : Num -> Z;
  (** a Number used as the key of a typed-array read: the element index
      when the Number is a non-negative integer, no element otherwise *)
  ToIndex : Num -> option nat
}.

Infix "+" := js_add : js_scope.
Infix "-" := js_sub : js_scope.
Infix "*" := js_mul : js_scope.
Infix "/" := js_div : js_scope.
Infix "<?" := js_lt : js_scope.

(** *** Instance 1: IEEE 754 binary64 *)

Module Binary64.

Local Open Scope float_scope.

(** The Number nearest to an integer (exact below [2^53]). *)
Definition of_Z (z : Z) : float :=
  SF2Prim (binary_normalize prec emax z 0 false).

(** A decimal literal is the Number nearest to its value; numerator and
    power of ten are exact for the literals of the source, so one
    correctly rounded division yields it. *)
Definition of_decimal (m : Z) (k : nat) : float :=
  of_Z m / of_Z (10 ^ Z.of_nat k).

(** The integer a finite Number denotes when it is one. *)
Definition to_Z (f : float) : option Z :=
  match Prim2SF f with
  | S754_zero _ => Some 0%Z
  | S754_finite s m e =>
      let z := if s then Z.neg m else Z.pos m in
      if (0 <=? e)%Z then Some (z * 2 ^ e)%Z
      else if (Z.land (Z.pos m) (Z.ones (- e)) =? 0)%Z
           then Some (Z.shiftr z (- e)) else None
  | _ => None
  end.

Definition is_integer (f : float) : bool :=
  match to_Z f with Some _ => true | None => false end.

Definition is_odd_integer (f : float) : bool :=
  match to_Z f with Some z => Z.odd z | None => false end.

(** [Math.floor]: the largest integer Number not above the argument;
    NaN, the infinities and both zeros are returned as they are. *)
Definition floor (f : float) : float :=
  match Prim2SF f with
  | S754_finite s m e =>
      if (0 <=? e)%Z then f
      else of_Z (Z.shiftr (if s then Z.neg m else Z.pos m) (- e))
  | _ => f
  end.

(** [Math.max] and [Math.min]: NaN if an argument is NaN, and [+0] is
    larger than [-0]. *)
Definition max (a b : float) : float :=
  if is_nan a || is_nan b then nan
  else if a <? b then b
  else if b <? a then a
  else if get_sign a then b else a.

Definition min (a b : float) : float :=
  if is_nan a || is_nan b then nan
  else if a <? b then a
  else if b <? a then b
  else if get_sign a then a else b.

(** The remainder [a % b]: exact, with the sign of the dividend. *)
Definition rem (a b : float) : float :=
  match Prim2SF a, Prim2SF b with
  | S754_nan, _ | _, S754_nan => nan
  | S754_infinity _, _ => nan
  | _, S754_zero _ => nan
  | S754_zero _, _ => a
  | _, S754_infinity _ => a
  | S754_finite sa ma ea, S754_finite _ mb eb =>
      let e := Z.min ea eb in
      let r := ((Z.pos ma * 2 ^ (ea - e)) mod (Z.pos mb * 2 ^ (eb - e)))%Z in
      let f := SF2Prim (binary_normalize prec emax r e false) in
      if sa then - f else f
  end.

(** [Math.pow] (ECMAScript, Number::exponentiate): the results the
    standard fixes, and for the remaining arguments the value the
    engine computes, which the standard leaves implementation
    approximated: it is the parameter [approx]. *)
Definition pow (approx : float -> float -> float) (b e : float) : float :=
  if is_nan e then nan
  else if is_zero e then 1
  else if is_nan b then nan
  else if is_infinity b then
    if get_sign b then
      if 0 <? e then (if is_odd_integer e then neg_infinity else infinity)
      else (if is_odd_integer e then neg_zero else 0)
    else (if 0 <? e then infinity else 0)
  else if is_zero b then
    if get_sign b then
      if 0 <? e then (if is_odd_integer e then neg_zero else 0)
      else (if is_odd_integer e then neg_infinity else infinity)
    else (if 0 <? e then 0 else infinity)
  else if is_infinity e then
    if abs b =? 1 then nan
    else if xorb (1 <? abs b) (get_sign e) then infinity else 0
  else if (b <? 0) && negb (is_integer e) then nan
  else approx b e.

(** The store conversion of a [Uint8ClampedArray] (ToUint8Clamp): NaN
    becomes 0, the value is clamped to [0, 255] and rounded to the
    nearest integer, ties to even. *)
Definition to_uint8_clamp (f : float) : Z :=
  if is_nan f then 0%Z
  else if f <=? 0 then 0%Z
  else if 255 <=? f then 255%Z
  else
    let fl := floor f in
    match to_Z fl with
    | Some z =>
        if fl + 0.5 <? f then (z + 1)%Z
        else if f <? fl + 0.5 then z
        else if Z.even z then z else (z + 1)%Z
    | None => 0%Z
    end.

Definition to_index (f : float) : option nat :=
  match to_Z f with
  | Some z => if (0 <=? z)%Z then Some (Z.to_nat z) else None
  | None => None
  end.

End Binary64.

Definition float_JSNumber (approx : float -> float -> float)
  : JSNumber float := {|
ofZ := Binary64.of_Z;
decimal := Binary64.of_decimal;
js_add := PrimFloat.add;
js_sub := PrimFloat.sub;
js_mul := PrimFloat.mul;
js_div := PrimFloat.div;
js_rem := Binary64.rem;
js_lt := PrimFloat.ltb;
Math_max := Binary64.max;
Math_min := Binary64.min;
Math_floor := Binary64.floor;
Math_pow := Binary64.pow approx;
ToUint8Clamp := Binary64.to_uint8_clamp;
ToIndex := Binary64.to_index
|}.


(** *** Instance 2: the real numbers

    Number arithmetic without rounding.  It has no NaN and no infinity:
    the instance is meant for arguments on which the binary64 operation
    is finite (a non-zero divisor, a non-negative base of [Math.pow]
    with a positive exponent when the base is zero). *)

Module Ideal.

Local Open Scope R_scope.

Definition of_decimal (m : Z) (k : nat) : R := IZR m / IZR (10 ^ Z.of_nat k).

Definition lt (a b : R) : bool := if Rlt_dec a b then true else false.

Definition floor (x : R) : R := IZR (Zfloor x).

(** Rounding toward zero, the quotient of [%]. *)
Definition trunc (x : R) : Z := if Rle_dec 0 x then Zfloor x else Zceil x.

Definition rem (a b : R) : R := a - b * IZR (trunc (a / b)).

(** [Math.pow] on a non-negative base: [0] raised to a positive power is
    [0] and anything raised to [0] is [1], as the standard fixes; a
    positive base is raised by [Rpower]. *)
Definition pow (b e : R) : R :=
  if Req_dec_T e 0 then 1
  else if Req_dec_T b 0 then 0
  else Rpower b e.

Definition to_uint8_clamp (x : R) : Z :=
  if Rle_dec x 0 then 0%Z
  else if Rle_dec 255 x then 255%Z
  else
    let z := Zfloor x in
    if Rlt_dec (IZR z + / 2) x then (z + 1)%Z
    else if Rlt_dec x (IZR z + / 2) then z
    else if Z.even z then z else (z + 1)%Z.

Definition to_index (x : R) : option nat :=
  if Req_dec_T x (IZR (Zfloor x))
  then (if Rle_dec 0 x then Some (Z.to_nat (Zfloor x)) else None)
  else None.

End Ideal.

#[export] Instance R_JSNumber : JSNumber R := {|
  ofZ := IZR;
  decimal := Ideal.of_decimal;
  js_add := Rplus;
  js_sub := Rminus;
  js_mul := Rmult;
  js_div := Rdiv;
  js_rem := Ideal.rem;
  js_lt := Ideal.lt;
  Math_max := Rmax;
  Math_min := Rmin;
  Math_floor := Ideal.floor;
  Math_pow := Ideal.pow;
  ToUint8Clamp := Ideal.to_uint8_clamp;
  ToIndex := Ideal.to_index
|}.

(** ** The denoising schedule (lines 98-108) *)

Section Schedule.
Context {Num : Type} {number : JSNumber Num}.
Local Open Scope js_scope.

Definition totalSteps : Z := 90.

(** [progress = step / totalSteps] *)
Definition progress (step : Z) : Num := ofZ step / ofZ totalSteps.

(** [Math.pow(2, Math.floor((1 - progress) * 6))], line 104 *)
Definition rawBlockSize (progress : Num) : Num :=
  Math_pow (ofZ 2) (Math_floor ((ofZ 1 - progress) * ofZ 6)).

(** [Math.max(1, Math.min(32, blockSize))], line 105 *)
Definition blockSize (progress : Num) : Num :=
  Math_max (ofZ 1) (Math_min (ofZ 32) (rawBlockSize progress)).

(** [Math.pow(1 - progress, 1.2)], line 107 *)
Definition noiseScale (progress : Num) : Num :=
  Math_pow (ofZ 1 - progress) (decimal 12 1).

(** [Math.pow(progress, 0.5)], line 108 *)
Definition signalScale (progress : Num) : Num :=
  Math_pow progress (decimal 5 1).

End Schedule.

(** ** Typed arrays and loops *)

(** A [Uint8ClampedArray] is the list of its elements, each in [0, 255]. *)
Definition is_byte (v : Z) : Prop := (0 ≤ v < 256)%Z.

Definition clamp8 (v : Z) : Z := Z.max 0 (Z.min 255 v).

(** The indices a loop [for (i = 0; i < stop; i += stride)] visits. *)
Definition upto (stop stride : Z) : list Z :=
  (λ j, j * stride)%Z <$> seqZ 0 ((stop + stride - 1) `div` stride).

(** [a[i] = v] for an element [v] already converted: a write outside the
    array is ignored. *)
Definition store (a : list Z) (i v : Z) : list Z :=
  if (0 <=? i)%Z then <[Z.to_nat i := v]> a else a.

(** [a[i]] for a loop counter [i]; [None] is [undefined]. *)
Definition load (a : list Z) (i : Z) : option Z :=
  if (0 <=? i)%Z then a !! Z.to_nat i else None.

(** [a[k]] for a computed Number [k]. *)
Definition read {Num : Type} {number : JSNumber Num} (a : list Z) (k : Num)
  : option Z :=
  i ← ToIndex k; a !! i.

(** [createImageData(w, h).data]: transparent black. *)
Definition createImageData (w h : Z) : list Z :=
  replicate (Z.to_nat (w * h * 4)) 0%Z.

(** ** The two animation frames of the right pane (lines 56-152) *)

Section Frames.
Context {Num : Type} {number : JSNumber Num}.

(** The values [Math.random()] returns, in the order of the calls; the
    state of the generator is the number of calls made so far. *)
Variable Math_random : nat → Num.

Local Open Scope js_scope.

Definition noiseRes : Z := 64.

(** Lines 68-73: one pixel of [drawNoise]. *)
Definition noisePixel (st : list Z * nat) (i : Z) : list Z * nat :=
  let '(data, k) := st in
  let data := store data i (ToUint8Clamp (Math_random k * ofZ 255)) in
  let data :=
    store data (i + 1) (ToUint8Clamp (Math_random (k + 1) * ofZ 255)) in
  let data :=
    store data (i + 2) (ToUint8Clamp (Math_random (k + 2) * ofZ 255)) in
  let data := store data (i + 3) 255 in
  (data, (k + 3)%nat).

Definition noiseFrame (data : list Z) (k : nat) : list Z * nat :=
  foldl noisePixel (data, k) (upto (Z.of_nat (length data)) 4).

(** Lines 122-132: one channel of a denoise pixel.  A target read outside
    the array is [undefined], the arithmetic on it is NaN and the store
    converts NaN to [0]. *)
Definition channel (t : option Z) (signalScale noiseScale rnd : Num) : Z :=
  match t with
  | Some t =>
      let s := ofZ 128 + (ofZ t - ofZ 128) * signalScale in
      let n := (rnd - decimal 5 1) * ofZ 510 * noiseScale in
      ToUint8Clamp (Math_max (ofZ 0) (Math_min (ofZ 255) (s + n)))
  | None => 0%Z
  end.

(** Lines 114-116: the index of the tile sample of pixel [(x, y)]. *)
Definition tileY (blockSize : Num) (y : Z) : Num :=
  ofZ y - js_rem (ofZ y) blockSize.
Definition tileX (blockSize : Num) (x : Z) : Num :=
  ofZ x - js_rem (ofZ x) blockSize.
Definition tileIndex (blockSize : Num) (y x : Z) : Num :=
  (tileY blockSize y * ofZ noiseRes + tileX blockSize x) * ofZ 4.

(** Lines 112-133: one pixel of [denoise]. *)
Definition denoisePixel (targetData : list Z)
    (blockSize signalScale noiseScale : Num) (y x : Z)
    (st : list Z * nat) : list Z * nat :=
  let '(data, k) := st in
  let i := ((y * noiseRes + x) * 4)%Z in
  let tI := tileIndex blockSize y x in
  let tR := read targetData tI in
  let tG := read targetData (tI + ofZ 1) in
  let tB := read targetData (tI + ofZ 2) in
  let data :=
    store data i (channel tR signalScale noiseScale (Math_random k)) in
  let data :=
    store data (i + 1)
      (channel tG signalScale noiseScale (Math_random (k + 1))) in
  let data :=
    store data (i + 2)
      (channel tB signalScale noiseScale (Math_random (k + 2))) in
  let data := store data (i + 3) 255 in
  (data, (k + 3)%nat).

(** Lines 101-135: the pixel buffer of step [step]. *)
Definition denoiseFrame (step : Z) (targetData data : list Z) (k : nat)
  : list Z * nat :=
  let p := progress step in
  let bs := blockSize p in
  let ns := noiseScale p in
  let ss := signalScale p in
  foldl (λ st y,
           foldl (λ st x, denoisePixel targetData bs ss ns y x st)
                 st (upto noiseRes 1))
        (data, k) (upto noiseRes 1).

(** Line 148: [for (i = 0; i < data.length; i++) data[i] = targetData[i]]. *)
Definition copyTarget (targetData data : list Z) : list Z :=
  foldl (λ d i, store d i (default 0%Z (clamp8 <$> load targetData i)))
        data (upto (Z.of_nat (length data)) 1).

End Frames.

(** ** The stipple transform of the left pane (lines 188-211) *)

Section Stipple.
Context {Num : Type} {number : JSNumber Num}.
Variable Math_random : nat → Num.
Local Open Scope js_scope.

(** [const step = 3], [const dotSize = 1.2] *)
Definition stippleStep : Z := 3.
Definition dotSize : Num := decimal 12 1.

(** Line 202 *)
Definition brightness (r g b : Z) : Num :=
  (decimal 299 3 * ofZ r + decimal 587 3 * ofZ g + decimal 114 3 * ofZ b)
  / ofZ 255.

(** Line 203 *)
Definition probability (brightness : Num) : Num :=
  Math_pow brightness (decimal 25 1).

(** Lines 206-207: [(Math.random() - 0.5) * 2] *)
Definition jitter (rnd : Num) : Num := (rnd - decimal 5 1) * ofZ 2.

(** A call [fillRect(x, y, w, h)]. *)
Record Rect := { rectX : Num; rectY : Num; rectW : Num; rectH : Num }.

(** Lines 200-209: one sampled pixel.  When a channel is [undefined] the
    brightness is NaN and the comparison of line 205 is false. *)
Definition stipplePixel (size : Z) (data : list Z) (y x : Z)
    (st : list Rect * nat) : list Rect * nat :=
  let i := ((y * size + x) * 4)%Z in
  match load data i, load data (i + 1), load data (i + 2) with
  | Some r, Some g, Some b =>
      if Math_random st.2 <? probability (brightness r g b) then
        let jitterX := jitter (Math_random (st.2 + 1)%nat) in
        let jitterY := jitter (Math_random (st.2 + 2)%nat) in
        (st.1 ++ [ {| rectX := ofZ x + jitterX; rectY := ofZ y + jitterY;
                      rectW := dotSize; rectH := dotSize |} ],
         (st.2 + 3)%nat)
      else (st.1, (st.2 + 1)%nat)
  | _, _, _ => (st.1, (st.2 + 1)%nat)
  end.

(** Lines 198-211: the dots painted over the black background. *)
Definition stipple (size : Z) (data : list Z) (k : nat) : list Rect * nat :=
  foldl (λ st y,
           foldl (λ st x, stipplePixel size data y x st)
                 st (upto size stippleStep))
        ([], k) (upto size stippleStep).

End Stipple.

Arguments Rect : clear implicits.

(** ** Strings *)

(** A JavaScript string is its sequence of UTF-16 code units. *)
Abbreviation jsstring := (list N).

Definition str (s : string) : jsstring :=
  N_of_ascii <$> list_ascii_of_string s.

(** White space and line terminators, the code units [trim] removes. *)
Definition isWhiteSpace (c : N) : bool :=
  ((9 <=? c) && (c <=? 13) || (c =? 32) || (c =? 160) || (c =? 5760)
   || (8192 <=? c) && (c <=? 8202) || (c =? 8232) || (c =? 8233)
   || (c =? 8239) || (c =? 8287) || (c =? 12288) || (c =? 65279))%N.

Fixpoint trimStart (s : jsstring) : jsstring :=
  match s with
  | c :: s' => if isWhiteSpace c then trimStart s' else s
  | [] => []
  end.

Definition trim (s : jsstring) : jsstring :=
  reverse (trimStart (reverse (trimStart s))).

(** Truthiness of a [string | null | undefined]. *)
Definition truthy (s : option jsstring) : bool :=
  match s with Some (_ :: _) => true | _ => false end.

(** [a || b] on strings. *)
Definition or_else (a : option jsstring) (b : jsstring) : jsstring :=
  match a with Some (c :: s) => c :: s | _ => b end.


(** ** The component (lines 7-254) *)

(** The React state of [App]. *)
Record Component := {
  isCameraReady : bool;
  hasCaptured : bool;
  isAnalyzing : bool;
  aiConcept : option jsstring;
  generatedImage : option jsstring
}.

(** Where the asynchronous [captureSubject] is suspended. *)
Inductive Call :=
| NoCall
| AwaitVision                       (* at the [await] of line 220 *)
| AwaitImage (prompt : jsstring).   (* at the [await] of line 232 *)

(** The closures handed to [requestAnimationFrame]: [drawNoise] with the
    pixel buffer of its effect, [denoise] with its step counter, its
    target and the pixel buffer. *)
Inductive Callback :=
| DrawNoise (data : list Z)
| Denoise (step : Z) (targetData data : list Z).

(** What is painted on the right-pane canvas. *)
Inductive Paint :=
| Reset                    (* [canvas.width = size] clears the canvas *)
| FillBlack                (* lines 50-51 *)
| Frame (data : list Z).   (* [putImageData] and [drawImage], scaled by 10 *)

(** The left-pane canvas after a capture: its side and the dots painted
    over the black background. *)
Record Canvas (Num : Type) := {
  canvasSize : Z;
  dots : list (Rect Num)
}.
Arguments canvasSize {Num}.
Arguments dots {Num}.

Record World (Num : Type) := {
  ui : Component;
  call : Call;
  (** [animationRef.current] *)
  animationRef : option Z;
  (** whether the last run of the effect returned its cleanup function *)
  hasCleanup : bool;
  (** the host's animation-frame queue and its next handle *)
  rafNext : Z;
  rafQueue : list (Z * Callback);
  (** the [Image] objects whose load event is pending, each with the
      pixel buffer its [onload] closure captured *)
  loading : list (jsstring * list Z);
  (** the paints of the right pane, newest first *)
  surface : list Paint;
  leftPane : option (Canvas Num);
  (** calls of [Math.random] made so far *)
  randomCalls : nat
}.
Arguments ui {Num}.
Arguments call {Num}.
Arguments animationRef {Num}.
Arguments hasCleanup {Num}.
Arguments rafNext {Num}.
Arguments rafQueue {Num}.
Arguments loading {Num}.
Arguments surface {Num}.
Arguments leftPane {Num}.
Arguments randomCalls {Num}.

(** The outcome of a call to an external service. *)
Inductive Response (A : Type) :=
| Rejected
| Resolved (a : A).
Arguments Rejected {A}.
Arguments Resolved {A}.

Inductive Event :=
| LoadedMetadata
  (** [video.onloadedmetadata] *)
| Click (vidW vidH : Z) (frame : list Z)
  (** a click on the button, with the dimensions of the video and the
      pixels [getImageData] returns for the square drawn from it *)
| VisionSettled (r : Response (option jsstring))
  (** the first [generateContent] settles; the payload is [.text] *)
| ImageSettled (r : Response (option jsstring))
  (** the second settles; the payload is the [inlineData.data] reached
      through the optional chain of line 240 *)
| ImageLoad (targetData : list Z)
  (** the load event of the oldest pending [Image], with the pixels
      [getImageData] returns once it is drawn at 64x64 *)
| AnimationFrame.
  (** the host runs the animation-frame callbacks *)

Definition fallbackConcept : jsstring := str "Unidentified object".
Definition errorConcept : jsstring :=
  str "Error: System failed to generate image.".
Definition styleSuffix : jsstring :=
  str ", full color photography, vivid, detailed".
Definition dataUrlPrefix : jsstring := str "data:image/jpeg;base64,".

(** Line 228: [visionResponse.text?.trim() || "Unidentified object"] *)
Definition conceptOf (text : option jsstring) : jsstring :=
  or_else (trim <$> text) fallbackConcept.

(** Lines 213-216 *)
Definition startCapture (c : Component) : Component :=
  {| isCameraReady := isCameraReady c; hasCaptured := true;
     isAnalyzing := true; aiConcept := None; generatedImage := None |}.

(** Line 229 *)
Definition setAiConcept (concept : jsstring) (c : Component) : Component :=
  {| isCameraReady := isCameraReady c; hasCaptured := hasCaptured c;
     isAnalyzing := isAnalyzing c; aiConcept := Some concept;
     generatedImage := generatedImage c |}.

(** Lines 246-247 *)
Definition succeed (url : jsstring) (c : Component) : Component :=
  {| isCameraReady := isCameraReady c; hasCaptured := hasCaptured c;
     isAnalyzing := false; aiConcept := aiConcept c;
     generatedImage := Some url |}.

(** Lines 248-252, the [catch] block *)
Definition fail (c : Component) : Component :=
  {| isCameraReady := isCameraReady c; hasCaptured := hasCaptured c;
     isAnalyzing := false; aiConcept := Some errorConcept;
     generatedImage := generatedImage c |}.

(** Line 29 *)
Definition cameraReady (c : Component) : Component :=
  {| isCameraReady := true; hasCaptured := hasCaptured c;
     isAnalyzing := isAnalyzing c; aiConcept := aiConcept c;
     generatedImage := generatedImage c |}.

(** Line 265: the button accepts clicks unless it is disabled. *)
Definition buttonEnabled (c : Component) : bool :=
  isCameraReady c && negb (isAnalyzing c).

(** Line 65: the condition of the noise branch. *)
Definition noiseBranch (c : Component) : bool :=
  isAnalyzing c || (negb (truthy (generatedImage c)) && truthy (aiConcept c)).

(** Lines 311-320: the text under the right pane. *)
Definition caption (c : Component) : list jsstring :=
  if negb (hasCaptured c) then []
  else if negb (truthy (generatedImage c)) && truthy (aiConcept c)
  then [str "Synthesizing image from concept..."]
  else if isAnalyzing c then [str "Extracting semantic features..."]
  else [str "Generated From Prompt";
        (34%N :: default [] (aiConcept c)) ++ [34%N]].

(** The dependency array of the effect, line 162. *)
Definition deps (c : Component)
  : bool * option jsstring * bool * option jsstring :=
  (isAnalyzing c, generatedImage c, hasCaptured c, aiConcept c).

Section Machine.
Context {Num : Type} {number : JSNumber Num}.
Variable Math_random : nat → Num.

(** *** Field updates *)

Definition withUi (c : Component) (w : World Num) : World Num :=
  {| ui := c; call := call w; animationRef := animationRef w;
     hasCleanup := hasCleanup w; rafNext := rafNext w;
     rafQueue := rafQueue w; loading := loading w; surface := surface w;
     leftPane := leftPane w; randomCalls := randomCalls w |}.

Definition withCall (k : Call) (w : World Num) : World Num :=
  {| ui := ui w; call := k; animationRef := animationRef w;
     hasCleanup := hasCleanup w; rafNext := rafNext w;
     rafQueue := rafQueue w; loading := loading w; surface := surface w;
     leftPane := leftPane w; randomCalls := randomCalls w |}.

Definition withRef (r : option Z) (w : World Num) : World Num :=
  {| ui := ui w; call := call w; animationRef := r;
     hasCleanup := hasCleanup w; rafNext := rafNext w;
     rafQueue := rafQueue w; loading := loading w; surface := surface w;
     leftPane := leftPane w; randomCalls := randomCalls w |}.

Definition withCleanup (b : bool) (w : World Num) : World Num :=
  {| ui := ui w; call := call w; animationRef := animationRef w;
     hasCleanup := b; rafNext := rafNext w;
     rafQueue := rafQueue w; loading := loading w; surface := surface w;
     leftPane := leftPane w; randomCalls := randomCalls w |}.

Definition withQueue (next : Z) (q : list (Z * Callback)) (w : World Num)
  : World Num :=
  {| ui := ui w; call := call w; animationRef := animationRef w;
     hasCleanup := hasCleanup w; rafNext := next;
     rafQueue := q; loading := loading w; surface := surface w;
     leftPane := leftPane w; randomCalls := randomCalls w |}.

Definition withLoading (l : list (jsstring * list Z)) (w : World Num)
  : World Num :=
  {| ui := ui w; call := call w; animationRef := animationRef w;
     hasCleanup := hasCleanup w; rafNext := rafNext w;
     rafQueue := rafQueue w; loading := l; surface := surface w;
     leftPane := leftPane w; randomCalls := randomCalls w |}.

Definition paint (p : Paint) (w : World Num) : World Num :=
  {| ui := ui w; call := call w; animationRef := animationRef w;
     hasCleanup := hasCleanup w; rafNext := rafNext w;
     rafQueue := rafQueue w; loading := loading w;
     surface := p :: surface w;
     leftPane := leftPane w; randomCalls := randomCalls w |}.

Definition withLeft (c : Canvas Num) (w : World Num) : World Num :=
  {| ui := ui w; call := call w; animationRef := animationRef w;
     hasCleanup := hasCleanup w; rafNext := rafNext w;
     rafQueue := rafQueue w; loading := loading w; surface := surface w;
     leftPane := Some c; randomCalls := randomCalls w |}.

Definition withRandom (k : nat) (w : World Num) : World Num :=
  {| ui := ui w; call := call w; animationRef := animationRef w;
     hasCleanup := hasCleanup w; rafNext := rafNext w;
     rafQueue := rafQueue w; loading := loading w; surface := surface w;
     leftPane := leftPane w; randomCalls := k |}.

(** *** The host's animation frames *)

(** [animationRef.current = requestAnimationFrame(cb)] *)
Definition requestAnimationFrame (cb : Callback) (w : World Num)
  : World Num :=
  withRef (Some (rafNext w))
    (withQueue (rafNext w + 1) (rafQueue w ++ [(rafNext w, cb)]) w).

Definition cancelAnimationFrame (id : Z) (w : World Num) : World Num :=
  withQueue (rafNext w) (filter (λ e, e.1 ≠ id) (rafQueue w)) w.

(** Lines 86 and 160:
    [if (animationRef.current) cancelAnimationFrame(animationRef.current)] *)
Definition cancelCurrent (w : World Num) : World Num :=
  match animationRef w with
  | Some id => if (id =? 0)%Z then w else cancelAnimationFrame id w
  | None => w
  end.

(** *** The two loops *)

(** Lines 67-81 *)
Definition drawNoise (data : list Z) (w : World Num) : World Num :=
  let r := noiseFrame Math_random data (randomCalls w) in
  requestAnimationFrame (DrawNoise r.1)
    (paint (Frame r.1) (withRandom r.2 w)).

(** Lines 100-153; [step] is the value of the counter before the call. *)
Definition denoise (step : Z) (targetData data : list Z) (w : World Num)
  : World Num :=
  let step := (step + 1)%Z in
  let r := denoiseFrame Math_random step targetData data (randomCalls w) in
  let w := paint (Frame r.1) (withRandom r.2 w) in
  if (step <? totalSteps)%Z
  then requestAnimationFrame (Denoise step targetData r.1) w
  else paint (Frame (copyTarget targetData r.1)) w.

(** Lines 89-155: [img.onload], with [step = 0]. *)
Definition onload (targetData data : list Z) (w : World Num) : World Num :=
  denoise 0 targetData data w.

Definition runCallback (cb : Callback) (w : World Num) : World Num :=
  match cb with
  | DrawNoise data => drawNoise data w
  | Denoise step targetData data => denoise step targetData data w
  end.

(** One animation frame: the callbacks queued before it run in the order
    of their requests; what they request runs in the next frame. *)
Definition animationFrame (w : World Num) : World Num :=
  foldl (λ w e, runCallback e.2 w) (withQueue (rafNext w) [] w) (rafQueue w).

(** *** The effect of lines 39-162 *)

Definition effect (w : World Num) : World Num :=
  let w := paint Reset w in
  if negb (hasCaptured (ui w)) then withCleanup false (paint FillBlack w)
  else
    let data := createImageData noiseRes noiseRes in
    withCleanup true
      (if noiseBranch (ui w) then drawNoise data w
       else match generatedImage (ui w) with
            | Some (c :: s) =>
                withLoading (loading w ++ [(c :: s, data)]) (cancelCurrent w)
            | _ => w
            end).

(** A render after the state changed from [old]: when a dependency
    differs the cleanup of the previous run is called, then the effect. *)
Definition commit (old : Component) (w : World Num) : World Num :=
  if decide (deps old = deps (ui w)) then w
  else effect (if hasCleanup w then cancelCurrent w else w).

(** *** Events *)

(** Lines 165-216: [captureSubject] up to its first [await]. *)
Definition captureSubject (vidW vidH : Z) (frame : list Z) (w : World Num)
  : World Num :=
  if (vidW =? 0)%Z || (vidH =? 0)%Z then w
  else
    let size := Z.min vidW vidH in
    let r := stipple Math_random size frame (randomCalls w) in
    commit (ui w)
      (withUi (startCapture (ui w))
         (withCall AwaitVision
            (withLeft {| canvasSize := size; dots := r.1 |}
               (withRandom r.2 w)))).

(** Lines 228-238 and the [catch] of lines 248-252. *)
Definition visionSettled (r : Response (option jsstring)) (w : World Num)
  : World Num :=
  match r with
  | Resolved text =>
      let concept := conceptOf text in
      commit (ui w)
        (withUi (setAiConcept concept (ui w))
           (withCall (AwaitImage (concept ++ styleSuffix)) w))
  | Rejected => commit (ui w) (withUi (fail (ui w)) (withCall NoCall w))
  end.

(** Lines 240-252. *)
Definition imageSettled (r : Response (option jsstring)) (w : World Num)
  : World Num :=
  match r with
  | Resolved (Some (c :: s)) =>
      commit (ui w)
        (withUi (succeed (dataUrlPrefix ++ c :: s) (ui w)) (withCall NoCall w))
  | _ => commit (ui w) (withUi (fail (ui w)) (withCall NoCall w))
  end.

Definition step (e : Event) (w : World Num) : World Num :=
  match e with
  | LoadedMetadata => withUi (cameraReady (ui w)) w
  | Click vidW vidH frame =>
      if buttonEnabled (ui w) then captureSubject vidW vidH frame w else w
  | VisionSettled r =>
      match call w with AwaitVision => visionSettled r w | _ => w end
  | ImageSettled r =>
      match call w with AwaitImage _ => imageSettled r w | _ => w end
  | ImageLoad targetData =>
      match loading w with
      | (_, data) :: rest => onload targetData data (withLoading rest w)
      | [] => w
      end
  | AnimationFrame => animationFrame w
  end.

Definition run (trace : list Event) (w : World Num) : World Num :=
  foldl (λ w e, step e w) w trace.

(** The world once the component is mounted: the effect has run once. *)
Definition mounted : World Num :=
  effect
    {| ui := {| isCameraReady := false; hasCaptured := false;
                isAnalyzing := false; aiConcept := None;
                generatedImage := None |};
       call := NoCall; animationRef := None; hasCleanup := false;
       rafNext := 1; rafQueue := []; loading := []; surface := [];
       leftPane := None; randomCalls := 0 |}.

Inductive reachable : World Num → Prop :=
| reachable_mounted : reachable mounted
| reachable_step e w : reachable w → reachable (step e w).

(** *** Which loops are scheduled *)

Definition isNoise (e : Z * Callback) : bool :=
  match e.2 with DrawNoise _ => true | Denoise _ _ _ => false end.

Definition isDenoise (e : Z * Callback) : bool := negb (isNoise e).

Definition noiseActive (w : World Num) : bool := existsb isNoise (rafQueue w).
Definition denoiseActive (w : World Num) : bool :=
  existsb isDenoise (rafQueue w).

(** The frames painted on the right pane, newest first. *)
Definition frames (w : World Num) : list (list Z) :=
  omap (λ p, match p with Frame d => Some d | _ => None end) (surface w).

End Machine.

(** ** Definitions used to state the binary64 results *)

(** What the binary64 results need from the engine's [Math.pow]: the
    powers [2^1 .. 2^5], which are exact Numbers, are returned exactly. *)
Definition exact_powers_of_two (approx : float → float → float) : Prop :=
  ∀ k : Z, (1 ≤ k ≤ 5)%Z →
    approx 2%float (Binary64.of_Z k) = Binary64.of_Z (2 ^ k).

(** An engine operation with this property: repeated multiplication on a
    non-negative integer exponent (NaN elsewhere, where nothing is asked
    of it). *)
Definition powerByMultiplication (b e : float) : float :=
  match Binary64.to_Z e with
  | Some z => if (0 <=? z)%Z then Z.iter z (PrimFloat.mul b) 1%float else nan
  | None => nan
  end.

(** The exponent line 104 computes at step [s]: a closed binary64
    computation, [Math.pow] is not involved. *)
Definition stepExponent (s : Z) : float :=
  Binary64.floor
    ((Binary64.of_Z 1 - Binary64.of_Z s / Binary64.of_Z totalSteps)
     * Binary64.of_Z 6)%float.

(** The same exponent as an integer, and the block size it gives. *)
Definition stepExponentZ (s : Z) : Z :=
  default 0%Z (Binary64.to_Z (stepExponent s)).

Definition stepBlock (s : Z) : Z := (2 ^ stepExponentZ s)%Z.

Definition steps : list Z := seqZ 1 totalSteps.

(** The exponent of line 104 over the reals. *)
Definition blockExponentR (t : R) : Z := Zfloor ((1 - t) * 6)%R.

(** The integer a tile anchor is: [x - x mod b]. *)
Definition anchor (b x : Z) : Z := (x - x `mod` b)%Z.

(** ** Definitions used to state the results on the component *)

Section Observations.
Context {Num : Type} {number : JSNumber Num}.

(** The state of a denoise loop that has rendered [s] steps, [s < 90],
    over a world whose queue was empty and that had painted [base]
    frames: its next step is the only pending callback. *)
Definition denoising (targetData : list Z) (len : nat) (next : Z)
    (base : list (list Z)) (s : nat) (w : World Num) : Prop :=
  ∃ (d : list Z) (painted : list (list Z)),
    rafQueue w = [(next + Z.of_nat s - 1, Denoise (Z.of_nat s) targetData d)]%Z
    ∧ rafNext w = (next + Z.of_nat s)%Z
    ∧ animationRef w = Some (next + Z.of_nat s - 1)%Z
    ∧ length d = len
    ∧ frames w = painted ++ base
    ∧ length painted = s
    ∧ head painted = Some d.

(** The state once the loop has stopped: 90 step frames and the terminal
    frame were painted and nothing is pending. *)
Definition settled (targetData : list Z) (len : nat)
    (base : list (list Z)) (w : World Num) : Prop :=
  ∃ (d : list Z) (painted : list (list Z)),
    rafQueue w = []
    ∧ length d = len
    ∧ frames w = copyTarget targetData d :: d :: painted ++ base
    ∧ length painted = 89.

(** The React state and the suspended call as one pair. *)
Definition control (w : World Num) : Component * Call := (ui w, call w).

(** The suspended call and the React state agree. *)
Definition coherent (c : Component * Call) : Prop :=
  match c.2 with
  | NoCall => isAnalyzing c.1 = false
  | AwaitVision =>
      isAnalyzing c.1 = true ∧ hasCaptured c.1 = true
      ∧ aiConcept c.1 = None ∧ generatedImage c.1 = None
  | AwaitImage prompt =>
      isAnalyzing c.1 = true ∧ hasCaptured c.1 = true
      ∧ generatedImage c.1 = None
      ∧ ∃ concept, aiConcept c.1 = Some concept
                   ∧ truthy (Some concept) = true
                   ∧ prompt = concept ++ styleSuffix
  end.

(** The events by which an external call fails: the first call rejects,
    or the second rejects or resolves without image data. *)
Definition failure (w : World Num) (e : Event) : Prop :=
  (call w = AwaitVision ∧ e = VisionSettled Rejected)
  ∨ (∃ prompt, call w = AwaitImage prompt)
    ∧ (e = ImageSettled Rejected ∨ e = ImageSettled (Resolved None)
       ∨ e = ImageSettled (Resolved (Some []))).

End Observations.

(** Every pending [denoise] callback has rendered at least [n] steps. *)
Definition minStep (n : Z) (q : list (Z * Callback)) : Prop :=
  ∀ id s t d, (id, Denoise s t d) ∈ q → (n ≤ s)%Z.

(** Line 228 takes the right operand of [||]: the text is absent or its
    trimmed form is empty. *)
Definition fallbackTaken (text : option jsstring) : bool :=
  negb (truthy (trim <$> text)).

(** The fallback is used for a response of the first call. *)
Definition usesFallback (r : Response (option jsstring)) : Prop :=
  match r with
  | Resolved text => fallbackTaken text = true
  | Rejected => False
  end.

(** A string of white space only. *)
Definition blank (s : jsstring) : Prop :=
  Forall (λ c, isWhiteSpace c = true) s.


(** The controller of [step]: how an event changes the React state and
    the suspended call, whatever is painted. *)
Definition controlStep (e : Event) (c : Component * Call)
  : Component * Call :=
  match e with
  | LoadedMetadata => (cameraReady c.1, c.2)
  | Click vidW vidH _ =>
      if buttonEnabled c.1 && negb ((vidW =? 0)%Z || (vidH =? 0)%Z)
      then (startCapture c.1, AwaitVision) else c
  | VisionSettled r =>
      match c.2, r with
      | AwaitVision, Resolved text =>
          (setAiConcept (conceptOf text) c.1,
           AwaitImage (conceptOf text ++ styleSuffix))
      | AwaitVision, Rejected => (fail c.1, NoCall)
      | _, _ => c
      end
  | ImageSettled r =>
      match c.2, r with
      | AwaitImage _, Resolved (Some (ch :: s)) =>
          (succeed (dataUrlPrefix ++ ch :: s) c.1, NoCall)
      | AwaitImage _, _ => (fail c.1, NoCall)
      | _, _ => c
      end
  | ImageLoad _ | AnimationFrame => c
  end.


(** Every sampled pixel of the frame is black. *)
Definition allBlack (size : Z) (data : list Z) : Prop :=
  ∀ y x, y ∈ upto size stippleStep → x ∈ upto size stippleStep →
    load data ((y * size + x) * 4) = Some 0%Z
    ∧ load data ((y * size + x) * 4 + 1) = Some 0%Z
    ∧ load data ((y * size + x) * 4 + 2) = Some 0%Z.

(** A dot lies within one pixel, on each axis, of a sampled position. *)
Definition nearSample (size : Z) (dot : Rect R) : Prop :=
  ∃ y x, y ∈ upto size stippleStep ∧ x ∈ upto size stippleStep
         ∧ (Rabs (rectX dot - IZR x) <= 1)%R
         ∧ (Rabs (rectY dot - IZR y) <= 1)%R.

(** ** What the page shows beside the panes *)

(** Line 268: the label of the button. *)
Definition buttonLabel (c : Component) : jsstring :=
  if isCameraReady c
  then (if isAnalyzing c then str "Processing..." else str "Capture")
  else str "Initializing...".

(** Lines 280-284 and 303-307: the placeholders over the two panes. *)
Definition placeholders (c : Component) : list jsstring :=
  if negb (hasCaptured c)
  then [str "[ BLANK SURFACE ]"; str "[ AWAITING DATA ]"] else [].

(** Line 289: the text under the left pane. *)
Definition leftCaption (c : Component) : jsstring :=
  if hasCaptured c then str "Direct optical imprint of physical photons"
  else [].

(** [aiConcept] between the quotation marks of line 318. *)
Definition quoted (concept : option jsstring) : jsstring :=
  (34%N :: default [] concept) ++ [34%N].

(** The states in which no call is pending: nothing captured yet, an
    image generated, or a failure recorded. *)
Definition resting (c : Component * Call) : Prop :=
  c.2 = NoCall →
  (hasCaptured c.1 = false ∧ aiConcept c.1 = None
   ∧ generatedImage c.1 = None)
  ∨ (hasCaptured c.1 = true ∧ truthy (generatedImage c.1) = true
     ∧ truthy (aiConcept c.1) = true)
  ∨ (hasCaptured c.1 = true ∧ generatedImage c.1 = None
     ∧ aiConcept c.1 = Some errorConcept).

(** ** Sessions without a click during the load of a generated image *)

Section Patience.
Context {Num : Type} {number : JSNumber Num}.
Variable Math_random : nat → Num.

(** An event that is not a click made while a generated image is still
    loading. *)
Definition patient (e : Event) (w : World Num) : Prop :=
  match e with Click _ _ _ => loading w = [] | _ => True end.

(** The worlds reached from the mounted component by patient events. *)
Inductive reachablePatiently : World Num → Prop :=
| patiently_mounted : reachablePatiently (mounted Math_random)
| patiently_step e w :
    reachablePatiently w → patient e w →
    reachablePatiently (step Math_random e w).

(** Every event of the trace is patient in the world it arrives in. *)
Fixpoint patientTrace (trace : list Event) (w : World Num) : Prop :=
  match trace with
  | [] => True
  | e :: trace => patient e w ∧ patientTrace trace (step Math_random e w)
  end.

(** [cb] is the only pending callback and [animationRef] holds its
    handle. *)
Definition pending (w : World Num) (id : Z) (cb : Callback) : Prop :=
  rafQueue w = [(id, cb)] ∧ animationRef w = Some id ∧ (1 ≤ id)%Z.

(** At most one callback is pending and [animationRef] holds its handle;
    the cleanup is in place once a capture was made; while an image
    loads nothing is pending and no call is in flight; while a call is
    in flight the noise loop is pending; the denoise loop is pending
    only once an image was generated; the right pane is black before
    the first capture, shows a frame while a callback is pending and is
    cleared while an image loads. *)
Definition oneLoop (w : World Num) : Prop :=
  (1 ≤ rafNext w)%Z
  ∧ (rafQueue w = [] ∨ ∃ id cb, pending w id cb)
  ∧ (hasCaptured (ui w) = true → hasCleanup w = true)
  ∧ (rafQueue w ≠ [] ∨ loading w ≠ [] → hasCaptured (ui w) = true)
  ∧ (loading w = []
     ∨ (∃ src, loading w = [(src, createImageData noiseRes noiseRes)])
       ∧ rafQueue w = [] ∧ call w = NoCall
       ∧ truthy (generatedImage (ui w)) = true)
  ∧ (call w ≠ NoCall → ∃ id d, rafQueue w = [(id, DrawNoise d)])
  ∧ (∀ id s t d, rafQueue w = [(id, Denoise s t d)] →
     truthy (generatedImage (ui w)) = true)
  ∧ (hasCaptured (ui w) = false → head (surface w) = Some FillBlack)
  ∧ (rafQueue w ≠ [] → ∃ d, head (surface w) = Some (Frame d))
  ∧ (loading w ≠ [] → head (surface w) = Some Reset).

(** [w'] differs from [w] in the React state, the call, the left pane
    and the random source only. *)
Definition sameHost (w w' : World Num) : Prop :=
  rafNext w' = rafNext w ∧ rafQueue w' = rafQueue w
  ∧ animationRef w' = animationRef w ∧ hasCleanup w' = hasCleanup w
  ∧ loading w' = loading w.

End Patience.

(** ** Definitions used to state the further properties *)

Section Pixels.
Context {Num : Type} {number : JSNumber Num}.
Variable Math_random : nat → Num.

(** The four values [drawNoise] stores for one pixel (lines 69-72), with
    [k] calls of [Math.random] made before. *)
Definition noiseValues (k : nat) : Z * Z * Z * Z :=
  (ToUint8Clamp (Math_random k * ofZ 255)%js,
   ToUint8Clamp (Math_random (k + 1) * ofZ 255)%js,
   ToUint8Clamp (Math_random (k + 2) * ofZ 255)%js, 255%Z).

(** The four values [denoise] stores for the pixel [(x, y)] at step
    [step] (lines 114-132). *)
Definition denoiseValues (targetData : list Z) (step : Z) (yx : Z * Z)
    (k : nat) : Z * Z * Z * Z :=
  let p := progress step in
  let tI := tileIndex (blockSize p) yx.1 yx.2 in
  (channel (read targetData tI) (signalScale p) (noiseScale p)
     (Math_random k),
   channel (read targetData (tI + ofZ 1)%js) (signalScale p) (noiseScale p)
     (Math_random (k + 1)),
   channel (read targetData (tI + ofZ 2)%js) (signalScale p) (noiseScale p)
     (Math_random (k + 2)), 255%Z).

(** Lines 175-177: the square cut from the video frame. *)
Definition cropSize (vidW vidH : Z) : Num := Math_min (ofZ vidW) (ofZ vidH).
Definition startX (vidW vidH : Z) : Num :=
  ((ofZ vidW - cropSize vidW vidH) / ofZ 2)%js.
Definition startY (vidW vidH : Z) : Num :=
  ((ofZ vidH - cropSize vidW vidH) / ofZ 2)%js.

End Pixels.

(** The four elements of a pixel as a list. *)
Definition quad (q : Z * Z * Z * Z) : list Z :=
  [q.1.1.1; q.1.1.2; q.1.2; q.2].

(** The pixels of the 64x64 grid in the order of the loops of lines
    110-111. *)
Definition grid : list (Z * Z) :=
  y ← upto noiseRes 1; pair y <$> upto noiseRes 1.

(** The exponent of the block size at step [s], in exact arithmetic. *)
Definition blockExponent (s : Z) : Z := ((totalSteps - s) `div` 15)%Z.

(** Neither the first nor the last code unit is white space. *)
Definition tidy (s : jsstring) : Prop :=
  (∀ c, head s = Some c → isWhiteSpace c = false)
  ∧ (∀ c, last s = Some c → isWhiteSpace c = false).

(** How far a channel of step [s] can lie from the target value it is
    computed from. *)
Definition channelBound (s : Z) : R :=
  (128 * (1 - signalScale (progress s)) + 255 * noiseScale (progress s)
   + / 2)%R.

(** Every sampled pixel of the frame is white. *)
Definition allWhite (size : Z) (data : list Z) : Prop :=
  ∀ y x, y ∈ upto size stippleStep → x ∈ upto size stippleStep →
    load data ((y * size + x) * 4) = Some 255%Z
    ∧ load data ((y * size + x) * 4 + 1) = Some 255%Z
    ∧ load data ((y * size + x) * 4 + 2) = Some 255%Z.

(** ** Sample inputs *)

(** A random source that always returns [0]. *)
Definition sampleRandom : nat → R := λ _, 0%R.

(** The React state and the call of the mounted component, and after a
    trace of events. *)
Definition initialControl : Component * Call :=
  ({| isCameraReady := false; hasCaptured := false; isAnalyzing := false;
      aiConcept := None; generatedImage := None |}, NoCall).

Definition controlAfter (trace : list Event) : Component * Call :=
  foldl (λ c e, controlStep e c) initialControl trace.

(** A click on a ready camera showing one black pixel. *)
Definition sampleClick : Event := Click 1 1 [0; 0; 0; 255]%Z.

(** A world in which a generated image is being decoded and nothing is
    scheduled. *)
Definition decodingWorld : World R :=
  {| ui := {| isCameraReady := true; hasCaptured := true;
              isAnalyzing := false; aiConcept := Some (str "cat");
              generatedImage := Some (dataUrlPrefix ++ str "QUJD") |};
     call := NoCall; animationRef := Some 2%Z; hasCleanup := true;
     rafNext := 3; rafQueue := [];
     loading := [(dataUrlPrefix ++ str "QUJD",
                  replicate (Z.to_nat 16384) 0%Z)];
     surface := []; leftPane := None; randomCalls := 0 |}.

(** A target of 64x64 pixels, every element 7. *)
Definition sampleTarget : list Z := replicate (Z.to_nat 16384) 7%Z.

(** * Properties *)

(** ** The binary64 operations on sample arguments *)

Section Binary64_examples.
Import Binary64.
Local Open Scope float_scope.

Example of_Z_90 : of_Z 90 = 90. Proof. reflexivity. Qed.
Example of_Z_neg : of_Z (-128) = -128. Proof. reflexivity. Qed.
Example decimal_1_2 : of_decimal 12 1 = 0x1.3333333333333p+0.
Proof. reflexivity. Qed.
Example decimal_0_299 : of_decimal 299 3 = 0x1.322d0e5604189p-2.
Proof. reflexivity. Qed.
Example floor_5_93 : floor (of_decimal 593 2) = 5. Proof. reflexivity. Qed.
Example floor_neg : floor (-0.5) = -1. Proof. reflexivity. Qed.
Example floor_frac : floor 0.75 = 0. Proof. reflexivity. Qed.
Example rem_63_32 : rem 63 32 = 31. Proof. reflexivity. Qed.
Example rem_frac : rem 5.5 2 = 1.5. Proof. reflexivity. Qed.
Example rem_neg : rem (-7) 4 = -3. Proof. reflexivity. Qed.
Example clamp_tie_even : to_uint8_clamp 2.5 = 2%Z. Proof. reflexivity. Qed.
Example clamp_tie_odd : to_uint8_clamp 3.5 = 4%Z. Proof. reflexivity. Qed.
Example clamp_high : to_uint8_clamp 300 = 255%Z. Proof. reflexivity. Qed.
Example clamp_round : to_uint8_clamp 127.75 = 128%Z. Proof. reflexivity. Qed.
Example index_frac : to_index 1.5 = None. Proof. reflexivity. Qed.
Example index_252 : to_index 252 = Some 252%nat. Proof. reflexivity. Qed.
Example pow_zero_base approx : pow approx 0 (of_decimal 25 1) = 0.
Proof. reflexivity. Qed.
Example pow_zero_exp approx : pow approx 2 0 = 1. Proof. reflexivity. Qed.
End Binary64_examples.

Example trim_example : trim (str "  a cat ") = str "a cat".
Proof. reflexivity. Qed.

(** ** The schedule over the real numbers *)

Module IdealSchedule.
Local Open Scope R_scope.

Lemma decimal_12_1 : decimal (Num := R) 12 1 = 12 / 10.
Proof. reflexivity. Qed.

Lemma decimal_5_1 : decimal (Num := R) 5 1 = 5 / 10.
Proof. reflexivity. Qed.

Lemma pow_zero (e : R) : e ≠ 0 → Ideal.pow 0 e = 0.
Proof.
  intros He. unfold Ideal.pow.
  destruct (Req_dec_T e 0) as [|_]; [done|].
  destruct (Req_dec_T 0 0) as [_|Hne]; [done|]. by destruct Hne.
Qed.

Lemma pow_pos (b e : R) : 0 < b → e ≠ 0 → Ideal.pow b e = Rpower b e.
Proof.
  intros Hb He. unfold Ideal.pow.
  destruct (Req_dec_T e 0) as [|_]; [done|].
  destruct (Req_dec_T b 0) as [->|_]; [lra|done].
Qed.

Lemma Rpower_one (e : R) : Rpower 1 e = 1.
Proof. unfold Rpower. rewrite ln_1, Rmult_0_r. apply exp_0. Qed.

(** On a base in [[0, 1]] a positive power stays in [[0, 1]]. *)
Lemma pow_unit_interval (b e : R) :
  0 <= b <= 1 → 0 < e → 0 <= Ideal.pow b e <= 1.
Proof.
  intros [Hb0 Hb1] He.
  destruct (Req_dec_T b 0) as [->|Hb].
  - rewrite pow_zero by lra. lra.
  - rewrite pow_pos by lra. split.
    + left. apply exp_pos.
    + rewrite <- (Rpower_one e). apply Rle_Rpower_l; lra.
Qed.

(** A positive power is strictly increasing on the non-negative reals. *)
Lemma pow_strict_mono (a b e : R) :
  0 <= a → a < b → 0 < e → Ideal.pow a e < Ideal.pow b e.
Proof.
  intros Ha Hab He.
  rewrite (pow_pos b) by lra.
  destruct (Req_dec_T a 0) as [->|Hne].
  - rewrite pow_zero by lra. apply exp_pos.
  - rewrite pow_pos by lra. apply Rlt_Rpower_l; lra.
Qed.

Lemma progress_unit (s : Z) :
  (1 ≤ s ≤ totalSteps)%Z → 0 < progress (Num := R) s <= 1.
Proof.
  unfold progress, totalSteps. cbn. intros [H1 H2].
  apply IZR_le in H1, H2. split.
  - apply Rdiv_lt_0_compat; lra.
  - apply (Rmult_le_reg_r 90); [lra|]. unfold Rdiv.
    rewrite Rmult_assoc, Rinv_l by lra. lra.
Qed.

Lemma progress_lt (s1 s2 : Z) :
  (s1 < s2)%Z → progress (Num := R) s1 < progress s2.
Proof.
  unfold progress, totalSteps. cbn. intros Hlt. apply IZR_lt in Hlt.
  unfold Rdiv. apply Rmult_lt_compat_r; lra.
Qed.

Lemma noiseScale_R (t : R) : noiseScale t = Ideal.pow (1 - t) (12 / 10).
Proof. reflexivity. Qed.

Lemma signalScale_R (t : R) : signalScale t = Ideal.pow t (5 / 10).
Proof. reflexivity. Qed.

Lemma noiseScale_decreasing (t1 t2 : R) :
  t1 < t2 → t2 <= 1 → noiseScale t2 < noiseScale t1.
Proof. intros. rewrite !noiseScale_R. apply pow_strict_mono; lra. Qed.

Lemma signalScale_increasing (t1 t2 : R) :
  0 <= t1 → t1 < t2 → signalScale t1 < signalScale t2.
Proof. intros. rewrite !signalScale_R. apply pow_strict_mono; lra. Qed.

Lemma noiseScale_unit (t : R) : 0 <= t <= 1 → 0 <= noiseScale t <= 1.
Proof. intros. rewrite noiseScale_R. apply pow_unit_interval; lra. Qed.

Lemma signalScale_unit (t : R) : 0 <= t <= 1 → 0 <= signalScale t <= 1.
Proof. intros. rewrite signalScale_R. apply pow_unit_interval; lra. Qed.

Lemma noiseScale_1 : noiseScale (Num := R) 1 = 0.
Proof.
  rewrite noiseScale_R. replace (1 - 1) with 0 by lra. apply pow_zero. lra.
Qed.

Lemma signalScale_0 : signalScale (Num := R) 0 = 0.
Proof. rewrite signalScale_R. apply pow_zero. lra. Qed.

Ltac rminmax := unfold Rmax, Rmin; repeat destruct (Rle_dec _ _); lra.

Lemma pow_two (e : R) : Ideal.pow 2 e = Rpower 2 e.
Proof.
  unfold Ideal.pow. destruct (Req_dec_T e 0) as [->|_].
  - symmetry. apply Rpower_O. lra.
  - destruct (Req_dec_T 2 0); [lra|done].
Qed.

Lemma blockSize_R (t : R) :
  blockSize t = Rmax 1 (Rmin 32 (Rpower 2 (IZR (blockExponentR t)))).
Proof. unfold blockSize, rawBlockSize. cbn. by rewrite pow_two. Qed.

Lemma Rpower_two_nat (n : nat) : Rpower 2 (IZR (Z.of_nat n)) = 2 ^ n.
Proof. rewrite <- INR_IZR_INZ. apply Rpower_pow. lra. Qed.

Lemma Rpower_two_mono (j k : Z) :
  (j ≤ k)%Z → Rpower 2 (IZR j) <= Rpower 2 (IZR k).
Proof. intros. apply Rle_Rpower; [lra|]. by apply IZR_le. Qed.

Lemma exponent_antitone (t1 t2 : R) :
  t1 <= t2 → (blockExponentR t2 ≤ blockExponentR t1)%Z.
Proof. intros. apply Zfloor_le. lra. Qed.

Lemma blockSize_antitone (t1 t2 : R) :
  t1 <= t2 → blockSize t2 <= blockSize t1.
Proof.
  intros Hle. rewrite !blockSize_R.
  apply Rle_max_compat_l, Rle_min_compat_l, Rpower_two_mono.
  by apply exponent_antitone.
Qed.

Lemma blockSize_bounds (t : R) : 1 <= blockSize t <= 32.
Proof. rewrite blockSize_R. rminmax. Qed.

Lemma blockSize_early (t : R) : t <= 1 / 6 → blockSize t = 32.
Proof.
  intros Ht. rewrite blockSize_R.
  assert (5 ≤ blockExponentR t)%Z as Hk by (apply Zfloor_lub; lra).
  pose proof (Rpower_two_mono _ _ Hk) as Hp.
  change 5%Z with (Z.of_nat 5) in Hp. rewrite Rpower_two_nat in Hp.
  rminmax.
Qed.

Lemma blockSize_one (t : R) : t <= 1 → (blockSize t = 1 ↔ 5 / 6 < t).
Proof.
  intros Ht1. rewrite blockSize_R. split.
  - intros Hb. destruct (Rlt_le_dec (5 / 6) t) as [|Hle]; [done|].
    assert (1 ≤ blockExponentR t)%Z as Hk by (apply Zfloor_lub; lra).
    pose proof (Rpower_two_mono _ _ Hk) as Hp.
    change 1%Z with (Z.of_nat 1) in Hp. rewrite Rpower_two_nat in Hp.
    revert Hb. rminmax.
  - intros Hlt.
    assert (blockExponentR t = 0%Z) as -> by (apply Zfloor_eq; lra).
    rewrite Rpower_O by lra.
    rminmax.
Qed.

End IdealSchedule.

(** ** The block size in binary64 *)

Lemma powerByMultiplication_exact : exact_powers_of_two powerByMultiplication.
Proof.
  intros k Hk.
  assert (k = 1 ∨ k = 2 ∨ k = 3 ∨ k = 4 ∨ k = 5)%Z as Hc by lia.
  destruct Hc as [->|[->|[->|[->| ->]]]]; reflexivity.
Defined.

Module Binary64Block.

Lemma elem_of_steps (s : Z) : s ∈ steps ↔ (1 ≤ s ≤ 90)%Z.
Proof. unfold steps, totalSteps. rewrite elem_of_seqZ. lia. Qed.

Lemma forallb_steps (f : Z → bool) (s : Z) :
  forallb f steps = true → (1 ≤ s ≤ 90)%Z → f s = true.
Proof.
  intros Hall Hs. rewrite forallb_forall in Hall.
  apply Hall, list_elem_of_In, elem_of_steps, Hs.
Qed.

Lemma forallb_below (n : Z) (f : Z → bool) (x : Z) :
  forallb f (seqZ 0 n) = true → (0 ≤ x < n)%Z → f x = true.
Proof.
  intros Hall Hx. rewrite forallb_forall in Hall.
  apply Hall, list_elem_of_In, elem_of_seqZ. lia.
Qed.

(** At each of the 90 steps the exponent is one of the integers 0..5. *)
Lemma stepExponent_table (s : Z) :
  (1 ≤ s ≤ 90)%Z →
  stepExponent s = Binary64.of_Z (stepExponentZ s) ∧
  (0 ≤ stepExponentZ s ≤ 5)%Z.
Proof.
  intros Hs.
  pose (f := λ s, PrimFloat.Leibniz.eqb (stepExponent s)
                     (Binary64.of_Z (stepExponentZ s))
                  && (0 <=? stepExponentZ s)%Z && (stepExponentZ s <=? 5)%Z).
  assert (forallb f steps = true) as Hall by (vm_compute; reflexivity).
  pose proof (forallb_steps f s Hall Hs) as Hf. unfold f in Hf.
  apply andb_prop in Hf as [Hf H5]. apply andb_prop in Hf as [Hf H0].
  apply FloatAxioms.Leibniz.eqb_spec in Hf. split; [done|lia].
Qed.

(** The block sizes of the 90 steps never grow, stay in [[1, 32]], are
    [32] up to step 15 and [1] from step 75 on only. *)
Lemma implb_elim (a b : bool) : implb a b = true → a = true → b = true.
Proof. by destruct a. Qed.

Lemma stepBlock_table (s1 s2 : Z) :
  (1 ≤ s1 ≤ 90)%Z → (1 ≤ s2 ≤ 90)%Z → (s1 ≤ s2)%Z →
  PrimFloat.leb (Binary64.of_Z (stepBlock s2)) (Binary64.of_Z (stepBlock s1))
    = true ∧
  PrimFloat.leb 1 (Binary64.of_Z (stepBlock s1)) = true ∧
  PrimFloat.leb (Binary64.of_Z (stepBlock s1)) 32 = true ∧
  ((s1 ≤ 15)%Z → stepBlock s1 = 32%Z) ∧
  (stepBlock s1 = 1%Z → (75 ≤ s1)%Z).
Proof.
  intros H1 H2 Hle.
  pose (f := λ a b : Z,
    implb (a <=? b)%Z
      (PrimFloat.leb (Binary64.of_Z (stepBlock b))
                     (Binary64.of_Z (stepBlock a)))).
  pose (g := λ a : Z,
    PrimFloat.leb 1 (Binary64.of_Z (stepBlock a))
    && PrimFloat.leb (Binary64.of_Z (stepBlock a)) 32
    && implb (a <=? 15)%Z (stepBlock a =? 32)%Z
    && implb (stepBlock a =? 1)%Z (75 <=? a)%Z).
  assert (forallb (λ a, forallb (f a) steps) steps = true) as Hf
    by (vm_compute; reflexivity).
  assert (forallb g steps = true) as Hg by (vm_compute; reflexivity).
  pose proof (forallb_steps _ s2 (forallb_steps _ s1 Hf H1) H2) as Hf2.
  pose proof (forallb_steps _ s1 Hg H1) as Hg1.
  apply andb_prop in Hg1 as [Hg1 Hone].
  apply andb_prop in Hg1 as [Hg1 Hearly].
  apply andb_prop in Hg1 as [Hlo Hhi].
  split; [|split; [exact Hlo|split; [exact Hhi|split]]].
  - apply (implb_elim _ _ Hf2), Z.leb_le, Hle.
  - intros H15. apply Z.eqb_eq, (implb_elim _ _ Hearly), Z.leb_le, H15.
  - intros Heq. apply Z.leb_le, (implb_elim _ _ Hone), Z.eqb_eq, Heq.
Qed.

Section with_engine.
Variable approx : float → float → float.
Hypothesis approx_exact : exact_powers_of_two approx.

Local Hint Extern 0 (JSNumber float) =>
  exact (float_JSNumber approx) : typeclass_instances.

Lemma pow_two_exact (k : Z) :
  (0 ≤ k ≤ 5)%Z →
  Binary64.pow approx 2%float (Binary64.of_Z k) = Binary64.of_Z (2 ^ k).
Proof using approx_exact.
  intros Hk.
  assert (k = 0 ∨ 1 ≤ k ≤ 5)%Z as [->|Hk'] by lia; [reflexivity|].
  rewrite <- (approx_exact k Hk').
  assert (k = 1 ∨ k = 2 ∨ k = 3 ∨ k = 4 ∨ k = 5)%Z as Hc by lia.
  destruct Hc as [->|[->|[->|[->| ->]]]]; reflexivity.
Qed.

Lemma rawBlockSize_step (s : Z) :
  (1 ≤ s ≤ 90)%Z →
  rawBlockSize (progress s) = Binary64.of_Z (stepBlock s).
Proof using approx_exact.
  intros Hs. destruct (stepExponent_table s Hs) as [He Hk].
  change (rawBlockSize (progress s))
    with (Binary64.pow approx 2%float (stepExponent s)).
  rewrite He. apply pow_two_exact, Hk.
Qed.

Lemma clamp_power_of_two (k : Z) :
  (0 ≤ k ≤ 5)%Z →
  Binary64.max 1 (Binary64.min 32 (Binary64.of_Z (2 ^ k)))
  = Binary64.of_Z (2 ^ k).
Proof.
  intros Hk.
  assert (k = 0 ∨ k = 1 ∨ k = 2 ∨ k = 3 ∨ k = 4 ∨ k = 5)%Z as Hc by lia.
  destruct Hc as [->|[->|[->|[->|[->| ->]]]]]; reflexivity.
Qed.

Lemma blockSize_step (s : Z) :
  (1 ≤ s ≤ 90)%Z →
  blockSize (progress s) = Binary64.of_Z (stepBlock s).
Proof using approx_exact.
  intros Hs.
  change (blockSize (progress s))
    with (Binary64.max 1 (Binary64.min 32 (rawBlockSize (progress s)))).
  rewrite rawBlockSize_step by done.
  apply clamp_power_of_two, stepExponent_table, Hs.
Qed.

(** *** Tile anchors *)

Lemma tileY_tileX (bs : float) (y : Z) : tileY bs y = tileX bs y.
Proof. reflexivity. Qed.

(** With a block size [2^k] the anchor of [x] is the integer
    [x - x mod 2^k]. *)
Lemma tileX_anchor (k x : Z) :
  (0 ≤ k ≤ 5)%Z → (0 ≤ x < 64)%Z →
  tileX (Binary64.of_Z (2 ^ k)) x = Binary64.of_Z (anchor (2 ^ k) x).
Proof.
  intros Hk Hx.
  pose (f := λ k x : Z,
    PrimFloat.Leibniz.eqb (tileX (Binary64.of_Z (2 ^ k)) x)
                          (Binary64.of_Z (anchor (2 ^ k) x))).
  assert (forallb (λ k, forallb (f k) (seqZ 0 64)) (seqZ 0 6) = true) as Hall
    by (vm_compute; reflexivity).
  apply FloatAxioms.Leibniz.eqb_spec.
  apply (forallb_below 64 _ x (forallb_below 6 _ k Hall ltac:(lia)) Hx).
Qed.

(** The index computed from two anchors is the integer
    [(ty * 64 + tx) * 4], and so are the two indices after it. *)
Lemma tileIndex_integer (ty tx : Z) :
  (0 ≤ ty < 64)%Z → (0 ≤ tx < 64)%Z →
  let tI := ((Binary64.of_Z ty * Binary64.of_Z 64 + Binary64.of_Z tx)
             * Binary64.of_Z 4)%float in
  Binary64.to_Z tI = Some ((ty * 64 + tx) * 4)%Z ∧
  Binary64.to_Z (tI + Binary64.of_Z 1)%float
    = Some ((ty * 64 + tx) * 4 + 1)%Z ∧
  Binary64.to_Z (tI + Binary64.of_Z 2)%float
    = Some ((ty * 64 + tx) * 4 + 2)%Z.
Proof.
  intros Hy Hx.
  pose (f := λ ty tx : Z,
    let tI := ((Binary64.of_Z ty * Binary64.of_Z 64 + Binary64.of_Z tx)
               * Binary64.of_Z 4)%float in
    bool_decide (Binary64.to_Z tI = Some ((ty * 64 + tx) * 4)%Z)
    && bool_decide (Binary64.to_Z (tI + Binary64.of_Z 1)%float
                    = Some ((ty * 64 + tx) * 4 + 1)%Z)
    && bool_decide (Binary64.to_Z (tI + Binary64.of_Z 2)%float
                    = Some ((ty * 64 + tx) * 4 + 2)%Z)).
  assert (forallb (λ ty, forallb (f ty) (seqZ 0 64)) (seqZ 0 64) = true)
    as Hall by (vm_compute; reflexivity).
  pose proof (forallb_below 64 _ tx (forallb_below 64 _ ty Hall Hy) Hx) as Hf.
  apply andb_prop in Hf as [Hf H2]. apply andb_prop in Hf as [H0 H1].
  apply bool_decide_eq_true_1 in H0, H1, H2. exact (conj H0 (conj H1 H2)).
Qed.

Lemma to_index_integer (f : float) (z : Z) :
  Binary64.to_Z f = Some z → (0 ≤ z)%Z →
  Binary64.to_index f = Some (Z.to_nat z).
Proof.
  intros Hf Hz. unfold Binary64.to_index. rewrite Hf.
  by rewrite (proj2 (Z.leb_le 0 z) Hz).
Qed.

Lemma anchor_bounds (b x : Z) :
  (0 < b)%Z → (0 ≤ x)%Z → (0 ≤ anchor b x ≤ x)%Z.
Proof.
  intros Hb Hx. unfold anchor.
  pose proof (Z.mod_pos_bound x b Hb). pose proof (Z.mod_le x b Hx Hb). lia.
Qed.

End with_engine.
End Binary64Block.

(** ** The schedule: the claims *)

Section ScalesOverReals.
Local Open Scope R_scope.

(** C6: read over the reals, [noiseScale] is strictly decreasing and
    [signalScale] strictly increasing on [[0, 1]], and so along the
    progress values [s / 90] of the steps 1 to 90; both stay in [[0, 1]];
    [noiseScale 1 = 0] and [signalScale 0 = 0]. *)
Theorem scales_monotone_bounded (t1 t2 : R) (s1 s2 : Z) :
  0 <= t1 → t1 < t2 → t2 <= 1 → (1 ≤ s1)%Z → (s1 < s2)%Z → (s2 ≤ 90)%Z →
  noiseScale t2 < noiseScale t1 ∧
  signalScale t1 < signalScale t2 ∧
  noiseScale (progress s2) < noiseScale (progress s1) ∧
  signalScale (progress s1) < signalScale (progress s2) ∧
  0 <= noiseScale t1 <= 1 ∧ 0 <= noiseScale t2 <= 1 ∧
  0 <= signalScale t1 <= 1 ∧ 0 <= signalScale t2 <= 1 ∧
  noiseScale (Num := R) 1 = 0 ∧ signalScale (Num := R) 0 = 0.
Proof.
  intros Ht1 Hlt Ht2 Hs1 Hs Hs2.
  assert (Hp1 : 0 < progress (Num := R) s1 <= 1)
    by (apply IdealSchedule.progress_unit; unfold totalSteps; lia).
  assert (Hp2 : 0 < progress (Num := R) s2 <= 1)
    by (apply IdealSchedule.progress_unit; unfold totalSteps; lia).
  pose proof (IdealSchedule.progress_lt s1 s2 Hs) as Hp.
  repeat split;
    first [ by apply IdealSchedule.noiseScale_decreasing; lra
          | by apply IdealSchedule.signalScale_increasing; lra
          | by apply IdealSchedule.noiseScale_unit; lra
          | by apply IdealSchedule.signalScale_unit; lra
          | apply IdealSchedule.noiseScale_1 | apply IdealSchedule.signalScale_0 ].
Qed.

Lemma scales_monotone_bounded_witness :
  noiseScale (Num := R) (1 / 2) < noiseScale 0 ∧
  signalScale (Num := R) 0 < signalScale (1 / 2).
Proof.
  assert (H0 : 0 <= 0) by lra.
  assert (H1 : 0 < 1 / 2) by lra.
  assert (H2 : 1 / 2 <= 1) by lra.
  destruct (scales_monotone_bounded 0 (1 / 2) 1 90 H0 H1 H2
              ltac:(lia) ltac:(lia) ltac:(lia)) as (Hn & Hs & _).
  exact (conj Hn Hs).
Defined.

End ScalesOverReals.

(** C7: the block size never grows as the progress grows and lies in
    [[1, 32]]; it is [32] at the early steps and [1] only near the end.
    Over the reals this holds for every progress in [[0, 1]] (the value
    is [32] up to [1/6] and [1] exactly beyond [5/6]); in binary64 it
    holds along the 90 steps (the value is [32] up to step 15 and [1]
    from step 75 on only). *)
Theorem blockSize_nonincreasing_bounded
    (approx : float → float → float) (t1 t2 : R) (s1 s2 : Z) :
  exact_powers_of_two approx →
  (0 <= t1)%R → (t1 <= t2)%R → (t2 <= 1)%R →
  (1 ≤ s1)%Z → (s1 ≤ s2)%Z → (s2 ≤ 90)%Z →
  let b := λ s, blockSize (number := float_JSNumber approx)
                  (progress (number := float_JSNumber approx) s) in
  ((blockSize t2 <= blockSize t1)%R ∧
   (1 <= blockSize t1 <= 32)%R ∧ (1 <= blockSize t2 <= 32)%R ∧
   ((t1 <= 1 / 6)%R → blockSize t1 = 32%R) ∧
   (blockSize t1 = 1%R ↔ (5 / 6 < t1)%R)) ∧
  (PrimFloat.leb (b s2) (b s1) = true ∧
   PrimFloat.leb 1 (b s1) = true ∧ PrimFloat.leb (b s1) 32 = true ∧
   PrimFloat.leb 1 (b s2) = true ∧ PrimFloat.leb (b s2) 32 = true ∧
   ((s1 ≤ 15)%Z → b s1 = 32%float) ∧
   (b s1 = 1%float → (75 ≤ s1)%Z)).
Proof.
  intros Hexact Ht1 Hle Ht2 Hs1 Hs Hs2 b. split.
  - split; [by apply IdealSchedule.blockSize_antitone|].
    split; [apply IdealSchedule.blockSize_bounds|].
    split; [apply IdealSchedule.blockSize_bounds|].
    split; [apply IdealSchedule.blockSize_early|].
    apply IdealSchedule.blockSize_one. lra.
  - assert (1 ≤ s1 ≤ 90)%Z as H1 by lia.
    assert (1 ≤ s2 ≤ 90)%Z as H2 by lia.
    unfold b.
    rewrite !(Binary64Block.blockSize_step approx Hexact) by assumption.
    destruct (Binary64Block.stepBlock_table s1 s2 H1 H2 Hs)
      as (Hmono & Hlo & Hhi & Hearly & Hone).
    destruct (Binary64Block.stepBlock_table s2 s2 H2 H2 ltac:(lia))
      as (_ & Hlo2 & Hhi2 & _).
    split; [exact Hmono|]. split; [exact Hlo|]. split; [exact Hhi|].
    split; [exact Hlo2|]. split; [exact Hhi2|]. split.
    + intros H15. rewrite (Hearly H15). reflexivity.
    + intros Hb. apply Hone.
      destruct (Binary64Block.stepExponent_table s1 H1) as [_ Hk].
      unfold stepBlock in Hb |- *.
      assert (stepExponentZ s1 = 0 ∨ stepExponentZ s1 = 1
              ∨ stepExponentZ s1 = 2 ∨ stepExponentZ s1 = 3
              ∨ stepExponentZ s1 = 4 ∨ stepExponentZ s1 = 5)%Z as Hc
        by (clear -Hk; lia).
      destruct Hc as [Hc|[Hc|[Hc|[Hc|[Hc|Hc]]]]];
        rewrite Hc in Hb |- *; [reflexivity|..];
        apply (proj2 (FloatAxioms.Leibniz.eqb_spec _ _)) in Hb;
        vm_compute in Hb; discriminate Hb.
Qed.

Lemma blockSize_nonincreasing_bounded_witness :
  PrimFloat.leb
    (blockSize (number := float_JSNumber powerByMultiplication)
       (progress (number := float_JSNumber powerByMultiplication) 90))
    (blockSize (number := float_JSNumber powerByMultiplication)
       (progress (number := float_JSNumber powerByMultiplication) 1))
  = true ∧
  (blockSize (1 / 2) <= blockSize 0)%R.
Proof.
  assert (H0 : (0 <= 0)%R) by lra.
  assert (H1 : (0 <= 1 / 2)%R) by lra.
  assert (H2 : (1 / 2 <= 1)%R) by lra.
  destruct (blockSize_nonincreasing_bounded powerByMultiplication 0 (1 / 2)
              1 90 powerByMultiplication_exact H0 H1 H2
              ltac:(lia) ltac:(lia) ltac:(lia)) as [[Hr _] [Hf _]].
  exact (conj Hf Hr).
Defined.

Section TileReads.
Variable approx : float → float → float.

Local Hint Extern 0 (JSNumber float) =>
  exact (float_JSNumber approx) : typeclass_instances.

(** C10: at every step 1..90 the block size is one of 1, 2, 4, 8, 16,
    32, a divisor of 64 that the clamp leaves unchanged; the tile anchor
    of every pixel of the 64x64 grid lies inside the grid and the three
    reads of the target at the tile index are in bounds. *)
Theorem tile_reads_in_bounds (s y x : Z) (targetData : list Z) :
  exact_powers_of_two approx →
  (1 ≤ s ≤ 90)%Z → (0 ≤ y < 64)%Z → (0 ≤ x < 64)%Z →
  Z.of_nat (length targetData) = 16384%Z →
  let bs := blockSize (progress s) in
  let tI := tileIndex bs y x in
  ∃ k ty tx : Z,
    (0 ≤ k ≤ 5)%Z ∧ bs = Binary64.of_Z (2 ^ k) ∧ (2 ^ k | 64)%Z ∧
    rawBlockSize (progress s) = bs ∧
    tileY bs y = Binary64.of_Z ty ∧ tileX bs x = Binary64.of_Z tx ∧
    ty = anchor (2 ^ k) y ∧ tx = anchor (2 ^ k) x ∧
    (0 ≤ ty < 64)%Z ∧ (0 ≤ tx < 64)%Z ∧
    read targetData tI = targetData !! Z.to_nat ((ty * 64 + tx) * 4) ∧
    is_Some (read targetData tI) ∧
    is_Some (read targetData (tI + ofZ 1)%js) ∧
    is_Some (read targetData (tI + ofZ 2)%js).
Proof.
  intros Hexact Hs Hy Hx Hlen bs tI.
  destruct (Binary64Block.stepExponent_table s Hs) as [_ Hk].
  set (k := stepExponentZ s) in Hk.
  assert (Hbs : bs = Binary64.of_Z (2 ^ k))
    by apply (Binary64Block.blockSize_step approx Hexact s Hs).
  assert (Hraw : rawBlockSize (progress s) = bs).
  { rewrite Hbs. apply (Binary64Block.rawBlockSize_step approx Hexact s Hs). }
  assert (0 < 2 ^ k)%Z as Hpos by (apply Z.pow_pos_nonneg; lia).
  pose proof (Binary64Block.anchor_bounds (2 ^ k) y Hpos ltac:(lia)) as Hty.
  pose proof (Binary64Block.anchor_bounds (2 ^ k) x Hpos ltac:(lia)) as Htx.
  set (ty := anchor (2 ^ k) y) in *. set (tx := anchor (2 ^ k) x) in *.
  assert (HtY : tileY bs y = Binary64.of_Z ty).
  { rewrite Hbs, Binary64Block.tileY_tileX.
    apply Binary64Block.tileX_anchor; assumption. }
  assert (HtX : tileX bs x = Binary64.of_Z tx).
  { rewrite Hbs. apply Binary64Block.tileX_anchor; assumption. }
  assert (HtI : tI = ((Binary64.of_Z ty * Binary64.of_Z 64 + Binary64.of_Z tx)
                      * Binary64.of_Z 4)%float).
  { unfold tI, tileIndex. rewrite HtY, HtX. reflexivity. }
  destruct (Binary64Block.tileIndex_integer ty tx ltac:(lia) ltac:(lia))
    as (H0 & H1 & H2).
  rewrite <- HtI in H0, H1, H2.
  apply Binary64Block.to_index_integer in H0, H1, H2; try lia.
  assert (Hread : ∀ (f : float) (z : Z),
            Binary64.to_index f = Some (Z.to_nat z) →
            read targetData f = targetData !! Z.to_nat z).
  { intros f z Hf. unfold read. change (ToIndex f) with (Binary64.to_index f).
    rewrite Hf. reflexivity. }
  assert (Hin : ∀ z : Z, (0 ≤ z < 16384)%Z →
            is_Some (targetData !! Z.to_nat z)).
  { intros z Hz. apply lookup_lt_is_Some. lia. }
  exists k, ty, tx.
  split; [exact Hk|]. split; [exact Hbs|]. split.
  { exists (2 ^ (6 - k))%Z. rewrite <- Z.pow_add_r by lia.
    replace (6 - k + k)%Z with 6%Z by lia. reflexivity. }
  split; [exact Hraw|]. split; [exact HtY|]. split; [exact HtX|].
  split; [reflexivity|]. split; [reflexivity|].
  split; [lia|]. split; [lia|].
  pose proof (Hread tI _ H0) as R0.
  pose proof (Hread (tI + ofZ 1)%js _ H1) as R1.
  pose proof (Hread (tI + ofZ 2)%js _ H2) as R2.
  split; [exact R0|].
  split; [rewrite R0; apply Hin; lia|].
  split; [rewrite R1; apply Hin; lia|rewrite R2; apply Hin; lia].
Qed.

End TileReads.

Lemma tile_reads_in_bounds_witness :
  is_Some (read (number := float_JSNumber powerByMultiplication)
             (replicate (Z.to_nat 16384) 0%Z)
             (tileIndex (number := float_JSNumber powerByMultiplication)
                (blockSize (number := float_JSNumber powerByMultiplication)
                   (progress (number := float_JSNumber powerByMultiplication)
                      40)) 63 63)).
Proof.
  assert (Hlen : Z.of_nat (length (replicate (Z.to_nat 16384) 0%Z)) = 16384%Z)
    by (rewrite length_replicate; lia).
  destruct (tile_reads_in_bounds powerByMultiplication 40 63 63
              (replicate (Z.to_nat 16384) 0%Z) powerByMultiplication_exact
              ltac:(lia) ltac:(lia) ltac:(lia) Hlen)
    as (k & ty & tx & _ & _ & _ & _ & _ & _ & _ & _ & _ & _ & _ & Hsome & _).
  exact Hsome.
Defined.

(** ** Facts about typed arrays and loops *)

Module Arrays.

Lemma upto_1 (n : Z) : upto n 1 = seqZ 0 n.
Proof.
  unfold upto. replace ((n + 1 - 1) `div` 1)%Z with n
    by (rewrite Z.div_1_r; lia).
  rewrite <- (list_fmap_id (seqZ 0 n)) at 2.
  apply list_fmap_ext. intros _ j _. simpl. lia.
Qed.

(** The loop indices are the multiples of the stride below [stop]. *)
Lemma elem_of_upto (stop stride i : Z) :
  (0 < stride)%Z →
  i ∈ upto stop stride ↔ (0 ≤ i < stop)%Z ∧ (stride | i)%Z.
Proof.
  intros Hs. unfold upto. rewrite list_elem_of_fmap. split.
  - intros (j & -> & Hj). apply elem_of_seqZ in Hj.
    assert (j * stride < stop)%Z; [|split; [nia|by exists j]].
    assert (j + 1 ≤ (stop + stride - 1) `div` stride)%Z as Hj1 by lia.
    pose proof (Z.mul_div_le (stop + stride - 1) stride Hs). nia.
  - intros [Hi [j ->]]. exists j. split; [done|].
    apply elem_of_seqZ. split; [nia|].
    assert (j + 1 ≤ (stop + stride - 1) `div` stride)%Z; [|lia].
    apply Z.div_le_lower_bound; [done|]. nia.
Qed.

Lemma length_store (a : list Z) (i v : Z) : length (store a i v) = length a.
Proof. unfold store. destruct (0 <=? i)%Z; [apply length_insert|done]. Qed.

(** A fold of length-preserving steps preserves the length. *)
Lemma foldl_length {A B : Type} (len : A → nat) (f : A → B → A)
    (l : list B) (a : A) :
  (∀ a b, len (f a b) = len a) → len (foldl f a l) = len a.
Proof.
  intros Hf. revert a. induction l as [|b l IH]; intros a; [done|].
  simpl. by rewrite IH.
Qed.

(** Copying [n] elements one by one from [src] yields the first [n]
    elements of [src] followed by the rest of [dst]. *)
Lemma copy_prefix (src dst : list Z) (n : nat) :
  n ≤ length dst → n ≤ length src → Forall is_byte src →
  foldl (λ d i, store d i (default 0%Z (clamp8 <$> load src i)))
        dst (seqZ 0 (Z.of_nat n))
  = take n src ++ drop n dst.
Proof.
  intros Hd Hs Hb. induction n as [|n IH].
  - by rewrite take_0, drop_0.
  - rewrite seqZ_S, foldl_snoc, IH by lia. simpl.
    destruct (lookup_lt_is_Some_2 src n ltac:(lia)) as [v Hv].
    unfold store, load.
    rewrite Z.add_0_l.
    replace (0 <=? Z.of_nat n)%Z with true by (symmetry; lia).
    rewrite Nat2Z.id, Hv. simpl.
    assert (is_byte v) as Hbv by (eapply Forall_lookup_1; eauto).
    assert (clamp8 v = v) as -> by (unfold clamp8, is_byte in *; lia).
    rewrite (take_S_r _ _ _ Hv), <- assoc by apply _. simpl.
    rewrite insert_app_r_alt by (rewrite length_take; lia).
    rewrite length_take, Nat.min_l, Nat.sub_diag by lia.
    destruct (lookup_lt_is_Some_2 dst n ltac:(lia)) as [u Hu].
    by rewrite (drop_S _ _ _ Hu).
Qed.

End Arrays.

(** ** The frames and the denoise loop *)

Section FrameFacts.
Context {Num : Type} {number : JSNumber Num}.
Variable Math_random : nat → Num.

Abbreviation noiseFrame' := (noiseFrame Math_random).
Abbreviation denoiseFrame' := (denoiseFrame Math_random).
Abbreviation denoise' := (denoise Math_random).
Abbreviation animationFrame' := (animationFrame Math_random).
Abbreviation run' := (run Math_random).

(** The verbatim copy of line 148 yields the target, whatever the buffer
    held, when both have the same length. *)
Lemma copyTarget_exact (targetData data : list Z) :
  length data = length targetData → Forall is_byte targetData →
  copyTarget targetData data = targetData.
Proof.
  intros Hlen Hb. unfold copyTarget. rewrite Arrays.upto_1.
  rewrite Arrays.copy_prefix by (done || lia).
  rewrite Hlen, firstn_all, drop_ge by lia. apply app_nil_r.
Qed.

Lemma length_noiseFrame (data : list Z) (k : nat) :
  length (noiseFrame' data k).1 = length data.
Proof.
  unfold noiseFrame.
  apply (Arrays.foldl_length (λ st : list Z * nat, length st.1)).
  intros [d j] i. unfold noisePixel. simpl. by rewrite !Arrays.length_store.
Qed.

Lemma length_denoiseFrame (step : Z) (targetData data : list Z) (k : nat) :
  length (denoiseFrame' step targetData data k).1 = length data.
Proof.
  unfold denoiseFrame.
  apply (Arrays.foldl_length (λ st : list Z * nat, length st.1)).
  intros st y.
  apply (Arrays.foldl_length (λ st : list Z * nat, length st.1)).
  intros [d j] x. unfold denoisePixel. simpl.
  by rewrite !Arrays.length_store.
Qed.

End FrameFacts.

(** From here on the pixel loops are reasoned about through their lemmas,
    never by unfolding them over the 4096 pixels. *)
Opaque noiseFrame denoiseFrame copyTarget stipple createImageData.

Section Loops.
Context {Num : Type} {number : JSNumber Num}.
Variable Math_random : nat → Num.

Abbreviation denoiseFrame' := (denoiseFrame Math_random).
Abbreviation animationFrame' := (animationFrame Math_random).
Abbreviation run' := (run Math_random).

(** One animation frame with a single pending callback runs it on the
    emptied queue. *)
Lemma animationFrame_single (w : World Num) (id : Z) (cb : Callback) :
  rafQueue w = [(id, cb)] →
  animationFrame' w = runCallback Math_random cb (withQueue (rafNext w) [] w).
Proof. intros Hq. unfold animationFrame. by rewrite Hq. Qed.

(** With nothing pending an animation frame changes nothing. *)
Lemma animationFrame_idle (w : World Num) :
  rafQueue w = [] → animationFrame' w = w.
Proof. intros Hq. unfold animationFrame. rewrite Hq. by destruct w; simplify_eq/=. Qed.

Lemma run_app (t1 t2 : list Event) (w : World Num) :
  run' (t1 ++ t2) w = run' t2 (run' t1 w).
Proof. apply foldl_app. Qed.

Lemma run_frames_S (n : nat) (w : World Num) :
  run' (replicate (S n) AnimationFrame) w
  = animationFrame' (run' (replicate n AnimationFrame) w).
Proof.
  rewrite replicate_S_end, run_app. reflexivity.
Qed.

Lemma run_frames_idle (n : nat) (w : World Num) :
  rafQueue w = [] → run' (replicate n AnimationFrame) w = w.
Proof.
  intros Hq. induction n as [|n IH]; [done|].
  by rewrite run_frames_S, IH, animationFrame_idle.
Qed.

Lemma frames_paint_Frame (d : list Z) (w : World Num) :
  frames (paint (Frame d) w) = d :: frames w.
Proof. reflexivity. Qed.

(** The first call of [denoise], from [onload]. *)
Lemma onload_denoising (targetData data : list Z) (w : World Num) :
  rafQueue w = [] →
  denoising targetData (length data) (rafNext w) (frames w) 1
    (onload Math_random targetData data w).
Proof.
  intros Hq. unfold onload, denoise.
  change (0 + 1 <? totalSteps)%Z with true. cbv iota.
  set (d := (denoiseFrame' (0 + 1) targetData data (randomCalls w)).1).
  exists d, [d]. unfold requestAnimationFrame. simpl. rewrite Hq.
  split; [simpl; do 2 f_equal; lia|].
  split; [lia|]. split; [f_equal; lia|].
  split; [apply length_denoiseFrame|]. done.
Qed.

(** A frame of a running loop: the next step, or the end after step 90. *)
Lemma denoising_frame (targetData : list Z) (len : nat) (next : Z)
    (base : list (list Z)) (s : nat) (w : World Num) :
  denoising targetData len next base s w →
  (S s < 90 → denoising targetData len next base (S s) (animationFrame' w)) ∧
  (S s = 90 → settled targetData len base (animationFrame' w)).
Proof.
  intros (d & painted & Hq & Hn & Hr & Hd & Hf & Hp & Hh).
  rewrite (animationFrame_single _ _ _ Hq). simpl. unfold denoise.
  set (d' := (denoiseFrame' (Z.of_nat s + 1) targetData d _).1).
  assert (length d' = len) as Hd'
    by (rewrite <- Hd; apply length_denoiseFrame).
  split; intros Hs.
  - replace (Z.of_nat s + 1 <? totalSteps)%Z with true
      by (symmetry; unfold totalSteps; lia).
    exists d', (d' :: painted).
    split; [simpl; rewrite Hn; do 2 f_equal; [lia|f_equal; lia]|].
    split; [simpl; lia|]. split; [simpl; rewrite Hn; f_equal; lia|].
    split; [exact Hd'|].
    split; [|split; [simpl; by rewrite Hp|done]].
    change (d' :: frames w = (d' :: painted) ++ base). by rewrite Hf.
  - replace (Z.of_nat s + 1 <? totalSteps)%Z with false
      by (symmetry; unfold totalSteps; lia).
    exists d', painted.
    split; [done|]. split; [exact Hd'|]. split; [|lia].
    change (copyTarget targetData d' :: d' :: frames w
            = copyTarget targetData d' :: d' :: painted ++ base).
    by rewrite Hf.
Qed.

Lemma denoising_frames (targetData : list Z) (len : nat) (next : Z)
    (base : list (list Z)) (n : nat) (w : World Num) :
  denoising targetData len next base 1 w → n < 89 →
  denoising targetData len next base (S n)
    (run' (replicate n AnimationFrame) w).
Proof.
  intros Hw. induction n as [|n IH]; intros Hn; [exact Hw|].
  rewrite run_frames_S.
  apply (denoising_frame targetData len next base (S n)); [apply IH|]; lia.
Qed.

Lemma denoising_settles (targetData : list Z) (len : nat) (next : Z)
    (base : list (list Z)) (w : World Num) :
  denoising targetData len next base 1 w →
  settled targetData len base (run' (replicate 89 AnimationFrame) w).
Proof.
  intros Hw. rewrite run_frames_S.
  apply (denoising_frame targetData len next base 89); [|lia].
  apply denoising_frames; [exact Hw|lia].
Qed.

Lemma step_ImageLoad (targetData data : list Z) (src : jsstring)
    (rest : list (jsstring * list Z)) (w : World Num) :
  loading w = (src, data) :: rest →
  step Math_random (ImageLoad targetData) w
  = onload Math_random targetData data (withLoading rest w).
Proof. intros Hl. simpl. by rewrite Hl. Qed.

End Loops.

(** ** The component: what each transition leaves unchanged *)

Section MachineFacts.
Context {Num : Type} {number : JSNumber Num}.
Variable Math_random : nat → Num.

Abbreviation step' := (step Math_random).
Abbreviation effect' := (effect Math_random).
Abbreviation commit' := (commit Math_random).
Abbreviation drawNoise' := (drawNoise Math_random).
Abbreviation runCallback' := (runCallback Math_random).
Abbreviation reachable' := (reachable Math_random).
Abbreviation animationFrame' := (animationFrame Math_random).
Abbreviation run' := (run Math_random).

Lemma control_cancelCurrent (w : World Num) :
  control (cancelCurrent w) = control w.
Proof.
  unfold cancelCurrent. destruct (animationRef w) as [id|]; [|done].
  by destruct (id =? 0)%Z.
Qed.

Lemma control_runCallback (cb : Callback) (w : World Num) :
  control (runCallback' cb w) = control w.
Proof.
  destruct cb as [d|s t d]; simpl; [done|]. unfold denoise.
  by destruct (s + 1 <? totalSteps)%Z.
Qed.

Lemma control_animationFrame (w : World Num) :
  control (animationFrame' w) = control w.
Proof.
  unfold animationFrame.
  change (control w) with (control (withQueue (rafNext w) [] w)).
  generalize (withQueue (rafNext w) [] w). generalize (rafQueue w).
  intros q. induction q as [|e q IH]; intros w0; [done|].
  simpl. by rewrite IH, control_runCallback.
Qed.

Lemma control_effect (w : World Num) : control (effect' w) = control w.
Proof.
  unfold effect. simpl. destruct (hasCaptured (ui w)); simpl; [|done].
  destruct (noiseBranch (ui w)); [done|].
  destruct (generatedImage (ui w)) as [[|c s]|]; try done.
  unfold control. simpl.
  by pose proof (control_cancelCurrent (paint Reset w)) as [= -> ->].
Qed.

Lemma control_commit (old : Component) (w : World Num) :
  control (commit' old w) = control w.
Proof.
  unfold commit. destruct (decide _); [done|]. rewrite control_effect.
  destruct (hasCleanup w); [apply control_cancelCurrent|done].
Qed.

Lemma control_step (e : Event) (w : World Num) :
  control (step' e w) = controlStep e (control w).
Proof.
  destruct e as [|vidW vidH frame|r|r|t|]; simpl.
  - done.
  - destruct (buttonEnabled (ui w)); [|done]. simpl. unfold captureSubject.
    destruct ((vidW =? 0)%Z || (vidH =? 0)%Z); [done|].
    by rewrite control_commit.
  - destruct (call w) eqn:Hc; simpl; try by (unfold control; rewrite Hc).
    destruct r; simpl; by rewrite control_commit.
  - destruct (call w) eqn:Hc; simpl; try by (unfold control; rewrite Hc).
    destruct r as [|[[|ch s]|]]; simpl; by rewrite control_commit.
  - destruct (loading w) as [|[src d] rest]; [done|].
    unfold onload.
    apply (control_runCallback (Denoise 0 t d) (withLoading rest w)).
  - apply control_animationFrame.
Qed.

Lemma control_run (trace : list Event) (w : World Num) :
  control (run' trace w)
  = foldl (λ c e, controlStep e c) (control w) trace.
Proof.
  revert w. induction trace as [|e trace IH]; intros w; [done|].
  simpl. by rewrite IH, control_step.
Qed.

(** *** The suspended call and the React state agree *)

Lemma conceptOf_truthy (text : option jsstring) :
  truthy (Some (conceptOf text)) = true.
Proof.
  unfold conceptOf, or_else. destruct (trim <$> text) as [[|c s]|]; done.
Qed.

Lemma coherent_controlStep (e : Event) (c : Component * Call) :
  coherent c → coherent (controlStep e c).
Proof.
  destruct c as [u k]. unfold coherent. simpl.
  destruct e as [|vidW vidH frame|r|r|t|]; simpl; try done.
  - destruct (buttonEnabled u && _); simpl; [|done]. by intros _.
  - destruct k; simpl; try done. destruct r as [|text]; simpl; [done|].
    intros (? & ? & ? & ?). repeat split; try done.
    exists (conceptOf text). split; [done|]. split; [|done].
    apply conceptOf_truthy.
  - destruct k; simpl; try done. by destruct r as [|[[|ch s]|]].
Qed.

Lemma reachable_coherent (w : World Num) :
  reachable' w → coherent (control w).
Proof.
  induction 1 as [|e w _ IH].
  - unfold mounted. by rewrite control_effect.
  - rewrite control_step. by apply coherent_controlStep.
Qed.

(** *** Frames and the queue under the callbacks *)

Lemma frames_drawNoise (d : list Z) (w : World Num) :
  frames (drawNoise' d w)
  = (noiseFrame Math_random d (randomCalls w)).1 :: frames w.
Proof. reflexivity. Qed.

Lemma runCallback_queue (cb : Callback) (w : World Num) :
  ∃ added,
    rafQueue (runCallback' cb w) = rafQueue w ++ added
    ∧ (isNoise (0%Z, cb) = true → existsb isNoise added = true)
    ∧ 1 + length (frames w) ≤ length (frames (runCallback' cb w)).
Proof.
  destruct cb as [d|s t d].
  - change (runCallback' (DrawNoise d) w) with (drawNoise' d w).
    eexists [_]. split; [done|]. split; [done|].
    rewrite frames_drawNoise. simpl. lia.
  - change (runCallback' (Denoise s t d) w)
      with (denoise Math_random s t d w).
    unfold denoise. destruct (s + 1 <? totalSteps)%Z.
    + eexists [_]. split; [done|]. split; [done|].
      change (1 + length (frames w) ≤ S (length (frames w))). lia.
    + exists []. split; [by rewrite app_nil_r|]. split; [done|].
      change (1 + length (frames w) ≤ S (S (length (frames w)))). lia.
Qed.

Lemma callbacks_queue (q : list (Z * Callback)) (w : World Num) :
  ∃ added,
    rafQueue (foldl (λ w e, runCallback' e.2 w) w q) = rafQueue w ++ added
    ∧ (existsb isNoise q = true → existsb isNoise added = true)
    ∧ length q + length (frames w)
      ≤ length (frames (foldl (λ w e, runCallback' e.2 w) w q)).
Proof.
  revert w. induction q as [|[id cb] q IH]; intros w.
  - exists []. rewrite app_nil_r. done.
  - simpl. destruct (runCallback_queue cb w) as (a1 & Hq1 & Hn1 & Hf1).
    destruct (IH (runCallback' cb w)) as (a2 & Hq2 & Hn2 & Hf2).
    exists (a1 ++ a2). split; [by rewrite Hq2, Hq1, app_assoc|].
    split; [|lia].
    rewrite existsb_app. intros [Hn|Hn]%orb_prop.
    + rewrite Hn1; [done|]. exact Hn.
    + rewrite (Hn2 Hn). apply orb_true_r.
Qed.

(** A scheduled noise loop survives an animation frame, which paints at
    least one frame per pending callback. *)
Lemma noise_survives_frame (w : World Num) :
  noiseActive w = true →
  noiseActive (animationFrame' w) = true
  ∧ 1 + length (frames w) ≤ length (frames (animationFrame' w)).
Proof.
  intros Hn. unfold animationFrame, noiseActive in *.
  destruct (callbacks_queue (rafQueue w) (withQueue (rafNext w) [] w))
    as (added & Hq & Hadd & Hf).
  change (frames (withQueue (rafNext w) [] w)) with (frames w) in Hf.
  assert (1 ≤ length (rafQueue w)) as Hlen
    by (destruct (rafQueue w); [done|simpl; lia]).
  split; [|lia]. rewrite Hq. by apply Hadd.
Qed.

Lemma noise_survives_frames (n : nat) (w : World Num) :
  noiseActive w = true →
  noiseActive (run' (replicate n AnimationFrame) w) = true
  ∧ n + length (frames w)
    ≤ length (frames (run' (replicate n AnimationFrame) w)).
Proof.
  intros Hn. induction n as [|n [IHa IHf]]; [split; [done|simpl; lia]|].
  rewrite run_frames_S.
  destruct (noise_survives_frame _ IHa) as [Ha Hf]. split; [done|lia].
Qed.

(** The effect with a capture made and the noise condition true leaves
    a noise callback scheduled. *)
Lemma effect_noise (w : World Num) :
  hasCaptured (ui w) = true → noiseBranch (ui w) = true →
  noiseActive (effect' w) = true.
Proof.
  intros Hc Hb. unfold effect. simpl. rewrite Hc, Hb. simpl.
  unfold noiseActive. simpl. rewrite existsb_app. simpl. apply orb_true_r.
Qed.

End MachineFacts.

(** ** Facts about strings *)

Module Strings.

Lemma trimStart_nil (s : jsstring) : trimStart s = [] ↔ blank s.
Proof.
  unfold blank. induction s as [|c s IH]; simpl; [by split|].
  destruct (isWhiteSpace c) eqn:Hc.
  - rewrite IH. split; [by constructor|by inversion 1].
  - split; [done|]. inversion 1; congruence.
Qed.

Lemma trimStart_head (s s' : jsstring) (c : N) :
  trimStart s = c :: s' → isWhiteSpace c = false.
Proof.
  induction s as [|a s IH]; simpl; [done|].
  destruct (isWhiteSpace a) eqn:Ha; [done|]. by intros [= <- _].
Qed.

(** [trim] yields the empty string exactly on a string of white space. *)
Lemma trim_nil (s : jsstring) : trim s = [] ↔ blank s.
Proof.
  unfold trim. rewrite <- trimStart_nil. split.
  - intros Hr. apply (f_equal reverse) in Hr.
    rewrite reverse_involutive, reverse_nil in Hr.
    apply trimStart_nil in Hr. unfold blank in Hr.
    rewrite Forall_reverse in Hr.
    destruct (trimStart s) as [|c s'] eqn:Hs; [done|].
    apply trimStart_head in Hs. inversion Hr; congruence.
  - by intros ->.
Qed.

End Strings.

(** ** The queue under the transitions *)

Section QueueFacts.
Context {Num : Type} {number : JSNumber Num}.
Variable Math_random : nat → Num.

Abbreviation step' := (step Math_random).
Abbreviation effect' := (effect Math_random).
Abbreviation commit' := (commit Math_random).
Abbreviation runCallback' := (runCallback Math_random).
Abbreviation reachable' := (reachable Math_random).
Abbreviation animationFrame' := (animationFrame Math_random).
Abbreviation run' := (run Math_random).

Lemma queue_cancelCurrent (e : Z * Callback) (w : World Num) :
  e ∈ rafQueue (cancelCurrent w) → e ∈ rafQueue w.
Proof.
  unfold cancelCurrent. destruct (animationRef w) as [id|]; [|done].
  destruct (id =? 0)%Z; [done|]. simpl. by intros [_ ?]%list_elem_of_filter.
Qed.

Lemma loading_cancelCurrent (w : World Num) :
  loading (cancelCurrent w) = loading w.
Proof.
  unfold cancelCurrent. destruct (animationRef w) as [id|]; [|done].
  by destruct (id =? 0)%Z.
Qed.

(** The effect schedules nothing but [drawNoise]. *)
Lemma queue_effect (e : Z * Callback) (w : World Num) :
  e ∈ rafQueue (effect' w) → e ∈ rafQueue w ∨ isNoise e = true.
Proof.
  unfold effect. simpl. destruct (hasCaptured (ui w)); simpl; [|by left].
  destruct (noiseBranch (ui w)).
  - simpl. intros [?|Hs%list_elem_of_singleton]%elem_of_app; [by left|].
    right. by rewrite Hs.
  - destruct (generatedImage (ui w)) as [[|c s]|]; simpl; try by left.
    intros He. left. by apply queue_cancelCurrent in He.
Qed.

Lemma queue_commit (old : Component) (e : Z * Callback) (w : World Num) :
  e ∈ rafQueue (commit' old w) → e ∈ rafQueue w ∨ isNoise e = true.
Proof.
  unfold commit. destruct (decide _); [by left|].
  intros [He|?]%queue_effect; [left|by right].
  destruct (hasCleanup w); [by apply queue_cancelCurrent|done].
Qed.

(** With no generated image the effect starts no image load. *)
Lemma loading_commit (old : Component) (w : World Num) :
  generatedImage (ui w) = None → loading (commit' old w) = loading w.
Proof.
  intros Hg. unfold commit. destruct (decide _); [done|].
  assert (∀ w0 : World Num, generatedImage (ui w0) = None →
            loading (effect' w0) = loading w0) as Heff.
  { intros w0 Hg0. unfold effect. simpl.
    destruct (hasCaptured (ui w0)); simpl; [|done].
    destruct (noiseBranch (ui w0)); [done|]. by rewrite Hg0. }
  destruct (hasCleanup w).
  - rewrite Heff, loading_cancelCurrent; [done|].
    by pose proof (control_cancelCurrent w) as [= -> _].
  - by apply Heff.
Qed.

Lemma minStep_app (n : Z) (q1 q2 : list (Z * Callback)) :
  minStep n q1 → minStep n q2 → minStep n (q1 ++ q2).
Proof.
  intros H1 H2 id s t d [?|?]%elem_of_app; [by eapply H1|by eapply H2].
Qed.

Lemma minStep_weaken (n m : Z) (q : list (Z * Callback)) :
  (m ≤ n)%Z → minStep n q → minStep m q.
Proof. intros Hle H id s t d Hin. specialize (H id s t d Hin). lia. Qed.

(** A callback that has rendered at least [n] steps schedules, if
    anything, one that has rendered at least [n + 1]. *)
Lemma runCallback_minStep (n : Z) (id : Z) (cb : Callback) (w : World Num) :
  minStep n [(id, cb)] →
  ∃ added, rafQueue (runCallback' cb w) = rafQueue w ++ added
           ∧ minStep (n + 1) added.
Proof.
  intros Hcb. destruct cb as [d|s t d].
  - change (runCallback' (DrawNoise d) w)
      with (drawNoise Math_random d w).
    unfold drawNoise. generalize (noiseFrame Math_random d (randomCalls w)).
    intros r. exists [(rafNext w, DrawNoise r.1)]. split; [done|].
    intros id' s' t' d' Hin. apply list_elem_of_singleton in Hin.
    discriminate Hin.
  - change (runCallback' (Denoise s t d) w)
      with (denoise Math_random s t d w).
    unfold denoise.
    generalize (denoiseFrame Math_random (s + 1) t d (randomCalls w)).
    intros r. destruct (s + 1 <? totalSteps)%Z.
    + exists [(rafNext w, Denoise (s + 1) t r.1)]. split; [done|].
      intros id' s' t' d' Hin. apply list_elem_of_singleton in Hin.
      injection Hin as _ -> _ _.
      specialize (Hcb id s t d ltac:(by apply list_elem_of_singleton)). lia.
    + exists []. split; [by rewrite app_nil_r|].
      by intros ???? ?%elem_of_nil.
Qed.

Lemma callbacks_minStep (n : Z) (q : list (Z * Callback)) (w : World Num) :
  minStep n q →
  ∃ added,
    rafQueue (foldl (λ w e, runCallback' e.2 w) w q) = rafQueue w ++ added
    ∧ minStep (n + 1) added.
Proof.
  revert w. induction q as [|[id cb] q IH]; intros w Hq.
  - exists []. split; [by rewrite app_nil_r|]. by intros ???? ?%elem_of_nil.
  - simpl.
    destruct (runCallback_minStep n id cb w) as (a1 & Hq1 & Hm1).
    { intros ???? Hin%list_elem_of_singleton. eapply Hq. rewrite Hin. left. }
    destruct (IH (runCallback' cb w)) as (a2 & Hq2 & Hm2).
    { intros ???? Hin. eapply Hq. right. exact Hin. }
    exists (a1 ++ a2). split; [by rewrite Hq2, Hq1, app_assoc|].
    by apply minStep_app.
Qed.

Lemma animationFrame_minStep (n : Z) (w : World Num) :
  minStep n (rafQueue w) → minStep (n + 1) (rafQueue (animationFrame' w)).
Proof.
  intros Hq. unfold animationFrame.
  destruct (callbacks_minStep n (rafQueue w) (withQueue (rafNext w) [] w) Hq)
    as (added & -> & Hm). exact Hm.
Qed.

Lemma commit_minStep (n : Z) (old : Component) (w : World Num) :
  minStep n (rafQueue w) → minStep n (rafQueue (commit' old w)).
Proof.
  intros Hq id s t d [Hin|Hn]%queue_commit; [by eapply Hq|discriminate Hn].
Qed.

(** An event other than an image load leaves the pending [denoise]
    callbacks among those already pending or advances them. *)
Lemma step_minStep (e : Event) (w : World Num) :
  minStep 1 (rafQueue w) → minStep 1 (rafQueue (step' e w)).
Proof.
  intros Hq. destruct e as [|vidW vidH frame|r|r|t|]; simpl.
  - done.
  - destruct (buttonEnabled (ui w)); [|done]. unfold captureSubject.
    destruct (_ || _); [done|]. by apply commit_minStep.
  - destruct (call w); try done. destruct r; by apply commit_minStep.
  - destruct (call w); try done.
    destruct r as [|[[|ch s]|]]; by apply commit_minStep.
  - destruct (loading w) as [|[src d] rest]; [done|]. unfold onload.
    destruct (runCallback_minStep 0 0 (Denoise 0 t d) (withLoading rest w))
      as (added & Hadd & Hm).
    { by intros ???? [= _ <- _ _]%list_elem_of_singleton. }
    change (denoise Math_random 0 t d (withLoading rest w))
      with (runCallback' (Denoise 0 t d) (withLoading rest w)).
    rewrite Hadd. by apply minStep_app.
  - apply (minStep_weaken 2); [lia|]. by apply (animationFrame_minStep 1).
Qed.

Lemma reachable_minStep (w : World Num) :
  reachable' w → minStep 1 (rafQueue w).
Proof.
  induction 1 as [|e w _ IH]; [|by apply step_minStep].
  by intros ???? ?%elem_of_nil.
Qed.

(** Only the load of an image makes a [denoise] callback that has
    rendered one step appear. *)
Lemma denoise_starts_at_load (e : Event) (w : World Num)
    (id : Z) (t d : list Z) :
  reachable' w → (∀ targetData, e ≠ ImageLoad targetData) →
  (id, Denoise 1 t d) ∈ rafQueue (step' e w) →
  (id, Denoise 1 t d) ∈ rafQueue w.
Proof.
  intros Hw He Hin. pose proof (reachable_minStep w Hw) as Hq.
  destruct e as [|vidW vidH frame|r|r|t'|]; simpl in Hin.
  - done.
  - destruct (buttonEnabled (ui w)); [|done]. unfold captureSubject in Hin.
    destruct (_ || _); [done|].
    apply queue_commit in Hin as [Hin|Hn]; [done|discriminate Hn].
  - destruct (call w); try done.
    destruct r; apply queue_commit in Hin as [Hin|Hn];
      done || discriminate Hn.
  - destruct (call w); try done.
    destruct r as [|[[|ch s]|]];
      apply queue_commit in Hin as [Hin|Hn]; done || discriminate Hn.
  - by destruct (He t').
  - pose proof (animationFrame_minStep 1 w Hq id 1%Z t d Hin). lia.
Qed.

Lemma run_cons (e : Event) (trace : list Event) (w : World Num) :
  run' (e :: trace) w = run' trace (step' e w).
Proof. reflexivity. Qed.

Lemma reachable_run (trace : list Event) (w : World Num) :
  reachable' w → reachable' (run' trace w).
Proof.
  revert w. induction trace as [|e trace IH]; intros w Hw; [done|].
  simpl. apply IH. by constructor.
Qed.

(** *** The denoise loop: the claims *)

(** C1: in a world where no other loop is scheduled, the frame painted
    last once the loop started by an image load has run is the target
    itself, element by element, alpha included; and in any world the
    ninetieth call of [denoise] paints the target last. *)
Theorem terminal_frame_is_target (w w0 : World Num) (src : jsstring)
    (data d : list Z) (rest : list (jsstring * list Z))
    (targetData : list Z) (i : nat) :
  rafQueue w = [] → loading w = (src, data) :: rest →
  length data = length targetData → length d = length targetData →
  Forall is_byte targetData →
  let stop := run' (ImageLoad targetData :: replicate 89 AnimationFrame) w in
  head (frames stop) = Some targetData
  ∧ (∃ terminal, head (frames stop) = Some terminal
                 ∧ terminal !! i = targetData !! i)
  ∧ head (frames (denoise Math_random 89 targetData d w0)) = Some targetData.
Proof.
  intros Hq Hl Hlen Hd Hb stop.
  assert (head (frames stop) = Some targetData) as Hstop.
  { unfold stop.
    rewrite run_cons, (step_ImageLoad Math_random targetData data src rest w Hl).
    destruct (denoising_settles Math_random targetData (length data)
                (rafNext w) (frames w)
                (onload Math_random targetData data (withLoading rest w)))
      as (d' & painted & _ & Hd' & Hf & _).
    { by apply (onload_denoising Math_random targetData data
                  (withLoading rest w)). }
    rewrite Hf. cbn [head]. f_equal. apply copyTarget_exact; [lia|done]. }
  split; [exact Hstop|]. split; [by exists targetData|].
  unfold denoise. change (89 + 1 <? totalSteps)%Z with false. cbv iota.
  rewrite frames_paint_Frame. cbn [head]. f_equal.
  apply copyTarget_exact; [|done]. by rewrite length_denoiseFrame.
Qed.

(** C5: started by an image load in a world where nothing else is
    scheduled, the loop renders the steps 1 to 90 one per animation
    frame (after [n < 89] frames the only pending callback is the one
    that has rendered step [n + 1]), paints 91 frames in all, the last
    one after step 90, and then has nothing scheduled: further animation
    frames change nothing.  In a reachable world a callback that has
    rendered exactly one step appears only through an image load. *)
Theorem denoiser_runs_90_steps_then_stops (w w2 : World Num)
    (src : jsstring) (data : list Z) (rest : list (jsstring * list Z))
    (targetData : list Z) (n m : nat) (e : Event) (id : Z) (t d : list Z) :
  rafQueue w = [] → loading w = (src, data) :: rest → n < 89 →
  reachable' w2 → (∀ targetData', e ≠ ImageLoad targetData') →
  let start := step' (ImageLoad targetData) w in
  let stop := run' (replicate 89 AnimationFrame) start in
  (∃ id' d',
     rafQueue (run' (replicate n AnimationFrame) start)
     = [(id', Denoise (Z.of_nat (S n)) targetData d')]
     ∧ length (frames (run' (replicate n AnimationFrame) start))
       = S n + length (frames w))
  ∧ length (frames stop) = 91 + length (frames w)
  ∧ rafQueue stop = []
  ∧ run' (replicate m AnimationFrame) stop = stop
  ∧ ((id, Denoise 1 t d) ∈ rafQueue (step' e w2)
     → (id, Denoise 1 t d) ∈ rafQueue w2).
Proof.
  intros Hq Hl Hn Hw2 He start stop.
  assert (denoising targetData (length data) (rafNext w) (frames w) 1 start)
    as Hstart.
  { unfold start.
    rewrite (step_ImageLoad Math_random targetData data src rest w Hl).
    by apply (onload_denoising Math_random targetData data
                (withLoading rest w)). }
  destruct (denoising_frames Math_random _ _ _ _ n start Hstart Hn)
    as (d' & painted & Hqn & _ & _ & _ & Hfn & Hpn & _).
  destruct (denoising_settles Math_random _ _ _ _ start Hstart)
    as (d89 & painted89 & Hq89 & _ & Hf89 & Hp89).
  fold stop in Hq89, Hf89. clearbody stop start.
  split.
  { eexists _, d'. split; [exact Hqn|]. rewrite Hfn, length_app. lia. }
  split; [rewrite Hf89; cbn [length]; rewrite length_app; lia|].
  split; [exact Hq89|].
  split; [by apply run_frames_idle|].
  by apply denoise_starts_at_load.
Qed.

(** *** Failures: the claims *)

Lemma step_failure (w : World Num) (e : Event) :
  failure w e →
  step' e w = commit' (ui w) (withUi (fail (ui w)) (withCall NoCall w)).
Proof.
  intros [[Hc ->]|[[p Hc] [->|[->| ->]]]]; simpl; by rewrite Hc.
Qed.

(** A render whose dependencies changed, with a capture made and the
    noise condition true, leaves a noise callback scheduled. *)
Lemma commit_noise (old : Component) (w : World Num) :
  deps old ≠ deps (ui w) → hasCaptured (ui w) = true →
  noiseBranch (ui w) = true → noiseActive (commit' old w) = true.
Proof.
  intros Hd Hc Hb. unfold commit. destruct (decide _) as [Heq|_]; [done|].
  destruct (hasCleanup w); [|by apply effect_noise].
  pose proof (control_cancelCurrent w) as [= Hui _].
  apply effect_noise; by rewrite Hui.
Qed.

(** After a failure in a reachable world the effect runs again and takes
    its noise branch. *)
Lemma failure_restarts_noise (w : World Num) (e : Event) :
  reachable' w → failure w e → noiseActive (step' e w) = true.
Proof.
  intros Hw Hf. rewrite (step_failure w e Hf).
  pose proof (reachable_coherent Math_random w Hw) as Hcoh.
  assert (isAnalyzing (ui w) = true ∧ hasCaptured (ui w) = true
          ∧ generatedImage (ui w) = None) as (Ha & Hc & Hg).
  { unfold coherent, control in Hcoh. simpl in Hcoh.
    destruct Hf as [[Hk _]|[[p Hk] _]]; rewrite Hk in Hcoh.
    - by destruct Hcoh as (? & ? & _ & ?).
    - by destruct Hcoh as (? & ? & ? & _). }
  apply commit_noise.
  - unfold deps. simpl. rewrite Ha. by intros [=].
  - exact Hc.
  - unfold noiseBranch. simpl. by rewrite Hg.
Qed.

Lemma step_Click (w : World Num) (vidW vidH : Z) (frame : list Z) :
  buttonEnabled (ui w) = true → vidW ≠ 0%Z → vidH ≠ 0%Z →
  step' (Click vidW vidH frame) w
  = commit' (ui w)
      (withUi (startCapture (ui w))
         (withCall AwaitVision
            (withLeft
               {| canvasSize := vidW `min` vidH;
                  dots := (stipple Math_random (vidW `min` vidH) frame
                             (randomCalls w)).1 |}
               (withRandom
                  (stipple Math_random (vidW `min` vidH) frame
                     (randomCalls w)).2 w)))).
Proof.
  intros Hb HW HH. cbn [step]. rewrite Hb. unfold captureSubject.
  replace (vidW =? 0)%Z with false by (symmetry; lia).
  replace (vidH =? 0)%Z with false by (symmetry; lia). reflexivity.
Qed.

(** C2 (what the code does): after a failure of either external call in
    a reachable world the component is no longer analysing and holds the
    error text, yet a noise callback is scheduled again and stays
    scheduled: [n] further animation frames paint at least [n] further
    frames on the right pane. *)
Theorem noise_continues_after_failure (w : World Num) (e : Event) (n : nat) :
  reachable' w → failure w e →
  let failed := step' e w in
  isAnalyzing (ui failed) = false
  ∧ aiConcept (ui failed) = Some errorConcept
  ∧ call failed = NoCall
  ∧ noiseActive (run' (replicate n AnimationFrame) failed) = true
  ∧ n + length (frames failed)
    ≤ length (frames (run' (replicate n AnimationFrame) failed)).
Proof.
  intros Hw Hf failed.
  pose proof (failure_restarts_noise w e Hw Hf) as Hnoise.
  assert (control failed = (fail (ui w), NoCall)) as [= Hui Hcall].
  { unfold failed. rewrite (step_failure w e Hf). apply control_commit. }
  fold failed in Hnoise. clearbody failed.
  rewrite Hui. split; [done|]. split; [done|]. split; [done|].
  by apply noise_survives_frames.
Qed.

(** C3 (amended): when the image call fails or resolves without image
    data in a reachable world, the component stops analysing, its text
    becomes exactly [errorConcept], the generated image stays unset, no
    image load is started and no [denoise] callback is scheduled that was
    not pending before. *)
Theorem image_failure_sets_error_text (w : World Num)
    (r : Response (option jsstring)) (prompt : jsstring)
    (entry : Z * Callback) :
  reachable' w → call w = AwaitImage prompt →
  r = Rejected ∨ r = Resolved None ∨ r = Resolved (Some []) →
  let failed := step' (ImageSettled r) w in
  isAnalyzing (ui failed) = false
  ∧ aiConcept (ui failed)
    = Some (str "Error: System failed to generate image.")
  ∧ generatedImage (ui failed) = None
  ∧ call failed = NoCall
  ∧ loading failed = loading w
  ∧ (entry ∈ rafQueue failed → isDenoise entry = true
     → entry ∈ rafQueue w).
Proof.
  intros Hw Hc Hr failed.
  assert (failure w (ImageSettled r)) as Hf.
  { right. split; [by exists prompt|].
    destruct Hr as [->|[->| ->]]; auto. }
  pose proof (reachable_coherent Math_random w Hw) as Hcoh.
  unfold coherent, control in Hcoh. simpl in Hcoh. rewrite Hc in Hcoh.
  destruct Hcoh as (_ & _ & Hg & _).
  assert (control failed = (fail (ui w), NoCall)) as [= Hui Hcall].
  { unfold failed. rewrite (step_failure _ _ Hf). apply control_commit. }
  assert (loading failed = loading w) as Hl.
  { unfold failed. rewrite (step_failure _ _ Hf).
    by rewrite loading_commit. }
  assert (entry ∈ rafQueue failed → isDenoise entry = true
          → entry ∈ rafQueue w) as Hq.
  { unfold failed. rewrite (step_failure _ _ Hf).
    intros [Hin|Hn]%queue_commit Hd; [exact Hin|].
    unfold isDenoise in Hd. rewrite Hn in Hd. discriminate Hd. }
  clearbody failed. rewrite Hui. by repeat split.
Qed.

(** C4 (what the code does): a click while the load of a generated
    image is pending, followed by that load, leaves both a noise and a
    denoise callback scheduled. *)
Theorem click_during_decode_runs_two_loops (w : World Num)
    (vidW vidH : Z) (frame targetData : list Z) :
  buttonEnabled (ui w) = true → vidW ≠ 0%Z → vidH ≠ 0%Z →
  loading w ≠ [] →
  let raced := run' [Click vidW vidH frame; ImageLoad targetData] w in
  noiseActive raced = true ∧ denoiseActive raced = true.
Proof.
  intros Hb HW HH Hl raced.
  set (clicked := step' (Click vidW vidH frame) w).
  assert (noiseActive clicked = true ∧ loading clicked = loading w)
    as [Hn Hlc].
  { unfold clicked. rewrite (step_Click w vidW vidH frame Hb HW HH).
    split; [|by rewrite loading_commit].
    apply commit_noise; [|done..].
    unfold deps. simpl.
    apply andb_prop in Hb as [_ Ha%negb_true_iff]. rewrite Ha.
    by intros [=]. }
  unfold raced. rewrite !run_cons. fold clicked. clearbody clicked.
  destruct (loading clicked) as [|[src d] rest] eqn:Hload;
    [by rewrite Hlc in Hload|].
  change (run' [] ?x) with x.
  rewrite (step_ImageLoad Math_random targetData d src rest clicked Hload).
  unfold onload, denoise. change (0 + 1 <? totalSteps)%Z with true.
  cbv iota.
  generalize (denoiseFrame Math_random (0 + 1) targetData d
                (randomCalls (withLoading rest clicked))).
  intros fr. unfold noiseActive, denoiseActive in *.
  change (rafQueue (requestAnimationFrame ?cb ?w0))
    with (rafQueue w0 ++ [(rafNext w0, cb)]).
  change (rafQueue (paint ?p ?w0)) with (rafQueue w0).
  change (rafQueue (withRandom ?k ?w0)) with (rafQueue w0).
  change (rafQueue (withLoading ?l ?w0)) with (rafQueue w0).
  rewrite !existsb_app, Hn. split; [done|]. apply orb_true_r.
Qed.

End QueueFacts.

(** ** The controller from the mounted component *)

Section Mounted.
Context {Num : Type} {number : JSNumber Num}.
Variable Math_random : nat → Num.

Lemma control_run_mounted (trace : list Event) :
  control (run Math_random trace (mounted Math_random)) = controlAfter trace.
Proof.
  rewrite control_run. unfold mounted. by rewrite control_effect.
Qed.

Lemma ui_run_mounted (trace : list Event) :
  ui (run Math_random trace (mounted Math_random)) = (controlAfter trace).1.
Proof. by rewrite <- control_run_mounted. Qed.

Lemma call_run_mounted (trace : list Event) :
  call (run Math_random trace (mounted Math_random)) = (controlAfter trace).2.
Proof. by rewrite <- control_run_mounted. Qed.

Lemma reachable_run_mounted (trace : list Event) :
  reachable Math_random (run Math_random trace (mounted Math_random)).
Proof. apply reachable_run. constructor. Qed.

End Mounted.


(** ** A successful image call *)

Section Success.
Context {Num : Type} {number : JSNumber Num}.
Variable Math_random : nat → Num.

Lemma step_success (w : World Num) (prompt : jsstring) (c : N)
    (s : jsstring) :
  call w = AwaitImage prompt →
  step Math_random (ImageSettled (Resolved (Some (c :: s)))) w
  = commit Math_random (ui w)
      (withUi (succeed (dataUrlPrefix ++ c :: s) (ui w)) (withCall NoCall w)).
Proof. intros Hc. cbn [step]. by rewrite Hc. Qed.

(** When the image call resolves with data in a reachable world, the
    component holds the data URL, stops analysing and starts loading the
    image; no callback is scheduled by this render. *)
Lemma success_starts_load (w : World Num) (prompt : jsstring) (c : N)
    (s : jsstring) (entry : Z * Callback) :
  reachable Math_random w → call w = AwaitImage prompt →
  let settled :=
    step Math_random (ImageSettled (Resolved (Some (c :: s)))) w in
  generatedImage (ui settled) = Some (dataUrlPrefix ++ c :: s)
  ∧ isAnalyzing (ui settled) = false
  ∧ aiConcept (ui settled) = aiConcept (ui w)
  ∧ call settled = NoCall
  ∧ loading settled
    = loading w ++ [(dataUrlPrefix ++ c :: s,
                     createImageData noiseRes noiseRes)]
  ∧ (entry ∈ rafQueue settled → entry ∈ rafQueue w).
Proof.
  intros Hw Hc settled.
  pose proof (reachable_coherent Math_random w Hw) as Hcoh.
  unfold coherent, control in Hcoh. simpl in Hcoh. rewrite Hc in Hcoh.
  destruct Hcoh as (Ha & Hcap & Hg & _).
  assert (control settled
          = (succeed (dataUrlPrefix ++ c :: s) (ui w), NoCall))
    as [= Hui Hcall].
  { unfold settled. rewrite (step_success w prompt c s Hc).
    apply control_commit. }
  split; [by rewrite Hui|]. split; [by rewrite Hui|].
  split; [by rewrite Hui|]. split; [done|].
  clear Hui Hcall. unfold settled. clear settled.
  rewrite (step_success w prompt c s Hc).
  set (w0 := withUi (succeed (dataUrlPrefix ++ c :: s) (ui w))
               (withCall NoCall w)).
  assert (∃ c0 s0, dataUrlPrefix ++ c :: s = c0 :: s0) as (c0 & s0 & Hurl)
    by (by eexists _, _).
  assert (∀ w1 : World Num,
            ui w1 = succeed (dataUrlPrefix ++ c :: s) (ui w) →
            loading (effect Math_random w1)
            = loading w1 ++ [(dataUrlPrefix ++ c :: s,
                              createImageData noiseRes noiseRes)]
            ∧ (entry ∈ rafQueue (effect Math_random w1)
               → entry ∈ rafQueue w1)) as Heff.
  { intros w1 Hu1. unfold effect.
    change (ui (paint Reset w1)) with (ui w1). rewrite Hu1.
    cbn [hasCaptured succeed negb]. rewrite Hcap. cbv iota.
    unfold noiseBranch. cbn [isAnalyzing generatedImage succeed].
    rewrite Hurl. cbn [truthy negb orb andb]. cbv iota.
    split.
    - reflexivity.
    - cbn [rafQueue withCleanup withLoading].
      intros Hin. by apply queue_cancelCurrent in Hin. }
  unfold commit. destruct (decide _) as [Heq|_].
  { unfold deps in Heq. simpl in Heq. rewrite Ha in Heq. discriminate Heq. }
  destruct (hasCleanup w0).
  - destruct (Heff (cancelCurrent w0)) as [Hl Hq].
    { by pose proof (control_cancelCurrent w0) as [= -> _]. }
    rewrite Hl, loading_cancelCurrent. split; [done|].
    intros Hin. by apply Hq, queue_cancelCurrent in Hin.
  - by destruct (Heff w0 eq_refl) as [Hl Hq].
Qed.

End Success.

(** ** The fallback concept: the claim *)

Section Fallback.
Context {Num : Type} {number : JSNumber Num}.
Variable Math_random : nat → Num.

Lemma fallbackTaken_blank (text : option jsstring) :
  fallbackTaken text = true ↔ text = None ∨ ∃ s, text = Some s ∧ blank s.
Proof.
  unfold fallbackTaken. destruct text as [s|]; simpl.
  - destruct (trim s) as [|c s'] eqn:Ht; simpl.
    + split; [|done]. intros _. right. exists s.
      split; [done|]. by apply Strings.trim_nil.
    + split; [done|]. intros [[=]|(s0 & [= <-] & Hs)].
      apply Strings.trim_nil in Hs. congruence.
  - split; [by left|done].
Qed.

Lemma conceptOf_fallback (text : option jsstring) :
  fallbackTaken text = true → conceptOf text = fallbackConcept.
Proof.
  unfold fallbackTaken, conceptOf, or_else.
  by destruct (trim <$> text) as [[|c s]|].
Qed.

Lemma conceptOf_text (s : jsstring) :
  fallbackTaken (Some s) = false → conceptOf (Some s) = trim s.
Proof.
  unfold fallbackTaken, conceptOf, or_else. simpl.
  by destruct (trim s) as [|c s'].
Qed.

(** C9 (amended): the fallback is taken exactly when the first call
    resolves with a text that is absent or consists of white space only,
    and the concept is then "Unidentified object"; a text that is not
    blank is kept, trimmed; a rejected call never takes the fallback:
    the concept text becomes the error text, which differs from it. *)
Theorem fallback_iff_blank_text (w : World Num)
    (r : Response (option jsstring)) :
  call w = AwaitVision →
  let settled := step Math_random (VisionSettled r) w in
  (usesFallback r
   ↔ ∃ text, r = Resolved text
             ∧ (text = None ∨ ∃ s, text = Some s ∧ blank s))
  ∧ (usesFallback r → aiConcept (ui settled) = Some fallbackConcept)
  ∧ (∀ s, r = Resolved (Some s) → ¬ blank s
          → aiConcept (ui settled) = Some (trim s))
  ∧ (r = Rejected
     → ¬ usesFallback r ∧ aiConcept (ui settled) = Some errorConcept
       ∧ errorConcept ≠ fallbackConcept).
Proof.
  intros Hc settled.
  assert (control settled = controlStep (VisionSettled r) (control w))
    as Hctl by apply control_step.
  unfold control in Hctl. cbn [controlStep snd fst] in Hctl.
  rewrite Hc in Hctl. clearbody settled.
  split; [|split; [|split]].
  - destruct r as [|text]; simpl.
    + split; [done|]. by intros (text & [=] & _).
    + rewrite fallbackTaken_blank. split; [by exists text|].
      by intros (text' & [= <-] & H).
  - destruct r as [|text]; simpl; [done|]. intros Hf.
    injection Hctl as -> _. simpl. by rewrite conceptOf_fallback.
  - intros s -> Hs. injection Hctl as -> _. simpl. f_equal.
    apply conceptOf_text. destruct (fallbackTaken (Some s)) eqn:Hf; [|done].
    apply fallbackTaken_blank in Hf as [[=]|(s0 & [= <-] & Hb)]. done.
  - intros ->. injection Hctl as -> _. split; [by intros []|].
    split; [done|]. vm_compute. intros H. discriminate H.
Qed.

End Fallback.

(** C9 (as stated) fails: a response whose text is a single space is not
    the empty text, yet the fallback is used for it. *)
Lemma fallback_on_blank_text :
  ¬ (∀ r : Response (option jsstring),
       usesFallback r ↔ r = Resolved (Some [])).
Proof.
  intros H. specialize (H (Resolved (Some (str " ")))).
  destruct H as [H _]. discriminate H. reflexivity.
Qed.


(** ** Facts about the stipple transform *)

Transparent stipple.

Module StippleFacts.

(** A fold keeps an invariant that each step keeps on the elements of
    the list. *)
Lemma foldl_invariant {A B : Type} (P : A → Prop) (f : A → B → A)
    (l : list B) (a : A) :
  (∀ a b, b ∈ l → P a → P (f a b)) → P a → P (foldl f a l).
Proof.
  revert a. induction l as [|b l IH]; intros a Hf Ha; [done|].
  simpl. apply IH.
  - intros a' b' Hb'. apply Hf. by right.
  - apply Hf; [by left|done].
Qed.

Section generic.
Context {Num : Type} {number : JSNumber Num}.
Variable Math_random : nat → Num.

(** Where every sample is black and no random value is below the
    probability of a black pixel, no dot is drawn. *)
Lemma stipple_black (size : Z) (data : list Z) (k : nat) :
  (∀ n, (Math_random n <? probability (brightness 0 0 0))%js = false) →
  allBlack size data → (stipple Math_random size data k).1 = [].
Proof.
  intros Hr Hb. unfold stipple.
  apply (foldl_invariant (λ st : list (Rect Num) * nat, st.1 = [])); [|done].
  intros st y Hy Hst.
  apply (foldl_invariant (λ st : list (Rect Num) * nat, st.1 = [])); [|done].
  intros st' x Hx Hst'. unfold stipplePixel.
  destruct (Hb y x Hy Hx) as (-> & -> & ->). by rewrite Hr.
Qed.

End generic.

Section ideal.
Local Open Scope R_scope.
Variable Math_random : nat → R.
Hypothesis random_unit : ∀ n, 0 <= Math_random n < 1.

Lemma probability_R (b : R) : probability b = Ideal.pow b (25 / 10).
Proof. reflexivity. Qed.

Lemma probability_mono (b1 b2 : R) :
  0 <= b1 → b1 <= b2 → probability b1 <= probability b2.
Proof.
  intros H1 [Hlt| ->]; [|lra]. rewrite !probability_R. left.
  apply IdealSchedule.pow_strict_mono; lra.
Qed.

Lemma probability_0 : probability (Num := R) 0 = 0.
Proof. rewrite probability_R. apply IdealSchedule.pow_zero. lra. Qed.

Lemma probability_1 : probability (Num := R) 1 = 1.
Proof.
  rewrite probability_R, IdealSchedule.pow_pos by lra.
  apply IdealSchedule.Rpower_one.
Qed.

Lemma brightness_black : brightness (Num := R) 0 0 0 = 0.
Proof.
  change (brightness (Num := R) 0 0 0)
    with ((299 / 1000 * 0 + 587 / 1000 * 0 + 114 / 1000 * 0) / 255).
  lra.
Qed.

Lemma jitter_bound (r : R) : 0 <= r < 1 → Rabs (jitter r) <= 1.
Proof.
  intros Hr. change (jitter r) with ((r - 5 / 10) * 2).
  apply Rabs_le. lra.
Qed.

Lemma never_below_black (n : nat) :
  (Math_random n <? probability (brightness 0 0 0))%js = false.
Proof using random_unit.
  rewrite brightness_black, probability_0. cbn. unfold Ideal.lt.
  destruct (Rlt_dec _ _) as [Hlt|]; [|done].
  destruct (random_unit n). lra.
Qed.

(** Every dot lies within one pixel of the sampled position it was
    drawn for. *)
Lemma stipple_near_samples (size : Z) (data : list Z) (k : nat) :
  Forall (nearSample size) (stipple Math_random size data k).1.
Proof using random_unit.
  unfold stipple.
  apply (foldl_invariant
           (λ st : list (Rect R) * nat, Forall (nearSample size) st.1));
    [|by constructor].
  intros st y Hy Hst.
  apply (foldl_invariant
           (λ st : list (Rect R) * nat, Forall (nearSample size) st.1));
    [|done].
  intros st' x Hx Hst'. unfold stipplePixel.
  destruct (load data _) as [r|]; [|done].
  destruct (load data _) as [g|]; [|done].
  destruct (load data _) as [b|]; [|done].
  destruct (_ <? _)%js; [|done]. simpl.
  apply Forall_app. split; [done|]. constructor; [|constructor].
  exists y, x. split; [done|]. split; [done|]. simpl.
  split.
  - match goal with |- Rabs (_ + ?j - _) <= 1 =>
      replace (IZR x + j - IZR x) with j by lra end.
    apply (jitter_bound _ (random_unit _)).
  - match goal with |- Rabs (_ + ?j - _) <= 1 =>
      replace (IZR y + j - IZR y) with j by lra end.
    apply (jitter_bound _ (random_unit _)).
Qed.

End ideal.

(** In binary64 a black pixel has brightness [+0] and probability [+0]
    whatever the engine's [Math.pow] is. *)
Lemma probability_black_binary64 (approx : float → float → float) :
  probability (number := float_JSNumber approx)
    (brightness (number := float_JSNumber approx) 0 0 0) = 0%float.
Proof. reflexivity. Qed.

End StippleFacts.

Opaque stipple.

(** ** The stipple transform: the claim *)

Section LeftPane.
Context {Num : Type} {number : JSNumber Num}.
Variable Math_random : nat → Num.

Lemma leftPane_cancelCurrent (w : World Num) :
  leftPane (cancelCurrent w) = leftPane w.
Proof.
  unfold cancelCurrent. destruct (animationRef w) as [id|]; [|done].
  by destruct (id =? 0)%Z.
Qed.

(** Rendering the right pane leaves the left pane as it is. *)
Lemma leftPane_commit (old : Component) (w : World Num) :
  leftPane (commit Math_random old w) = leftPane w.
Proof.
  unfold commit. destruct (decide _); [done|].
  assert (∀ w0 : World Num,
            leftPane (effect Math_random w0) = leftPane w0) as Heff.
  { intros w0. unfold effect.
    destruct (hasCaptured (ui (paint Reset w0))); [|done].
    destruct (noiseBranch (ui (paint Reset w0))); [done|].
    destruct (generatedImage (ui (paint Reset w0))) as [[|c s]|]; try done.
    apply (leftPane_cancelCurrent (paint Reset w0)). }
  rewrite Heff. destruct (hasCleanup w); [apply leftPane_cancelCurrent|done].
Qed.

(** An accepted click leaves on the left pane the dots of the stipple
    transform of the captured frame. *)
Lemma leftPane_Click (w : World Num) (vidW vidH : Z) (frame : list Z) :
  buttonEnabled (ui w) = true → vidW ≠ 0%Z → vidH ≠ 0%Z →
  leftPane (step Math_random (Click vidW vidH frame) w)
  = Some {| canvasSize := vidW `min` vidH;
            dots := (stipple Math_random (vidW `min` vidH) frame
                       (randomCalls w)).1 |}.
Proof.
  intros Hb HW HH. rewrite (step_Click Math_random w vidW vidH frame Hb HW HH).
  by rewrite leftPane_commit.
Qed.

End LeftPane.

(** C8: over the reals the inclusion probability does not decrease with
    the brightness, is [0] at brightness [0] and [1] at brightness [1];
    with random values in [[0, 1)] every dot is drawn within one pixel,
    on each axis, of a position of the stride-3 sampling grid; and for a
    frame whose sampled pixels are all black no dot is drawn, over the
    reals and in binary64 alike, so that the left pane is its black
    background. *)
Theorem stipple_probability_and_dots
    (Math_random : nat → R) (randomFloat : nat → float)
    (approx : float → float → float) (b1 b2 : R)
    (size vidW vidH : Z) (data : list Z) (k : nat) (dot : Rect R)
    (w : World R) :
  (∀ n, (0 <= Math_random n < 1)%R) →
  (∀ n, PrimFloat.ltb (randomFloat n) 0%float = false) →
  (0 <= b1)%R → (b1 <= b2)%R →
  ((probability b1 <= probability b2)%R
   ∧ probability (Num := R) 0%R = 0%R ∧ probability (Num := R) 1%R = 1%R)
  ∧ (dot ∈ (stipple Math_random size data k).1 →
     ∃ y x : Z,
       (0 ≤ y < size)%Z ∧ (3 | y)%Z ∧ (0 ≤ x < size)%Z ∧ (3 | x)%Z
       ∧ (Rabs (rectX dot - IZR x) <= 1)%R
       ∧ (Rabs (rectY dot - IZR y) <= 1)%R)
  ∧ (allBlack size data →
     (stipple Math_random size data k).1 = []
     ∧ (stipple (number := float_JSNumber approx) randomFloat
          size data k).1 = [])
  ∧ (buttonEnabled (ui w) = true → vidW ≠ 0%Z → vidH ≠ 0%Z →
     allBlack (vidW `min` vidH) data →
     leftPane (step Math_random (Click vidW vidH data) w)
     = Some {| canvasSize := vidW `min` vidH; dots := [] |}).
Proof.
  intros Hunit Hfloat Hb1 Hb12.
  split; [|split; [|split]].
  - split; [by apply StippleFacts.probability_mono|].
    split; [apply StippleFacts.probability_0|apply StippleFacts.probability_1].
  - intros Hdot.
    pose proof (StippleFacts.stipple_near_samples Math_random Hunit
                  size data k) as Hall.
    rewrite Forall_forall in Hall.
    destruct (Hall dot Hdot) as (y & x & Hy & Hx & HX & HY).
    apply Arrays.elem_of_upto in Hy as [Hy1 Hy2]; [|done].
    apply Arrays.elem_of_upto in Hx as [Hx1 Hx2]; [|done].
    by exists y, x.
  - intros Hblack. split.
    + apply StippleFacts.stipple_black; [|done].
      apply StippleFacts.never_below_black, Hunit.
    + apply StippleFacts.stipple_black; [|done].
      intros n. rewrite StippleFacts.probability_black_binary64.
      apply Hfloat.
  - intros Hb HW HH Hblack. rewrite leftPane_Click by done.
    do 2 f_equal. apply StippleFacts.stipple_black; [|done].
    apply StippleFacts.never_below_black, Hunit.
Qed.

(** ** Witnesses and counterexamples *)

Lemma fallback_iff_blank_text_witness :
  aiConcept
    (ui (step sampleRandom (VisionSettled (Resolved (Some (str "  "))))
           (run sampleRandom [LoadedMetadata; sampleClick]
              (mounted sampleRandom))))
  = Some (str "Unidentified object").
Proof.
  assert (call (run sampleRandom [LoadedMetadata; sampleClick]
                  (mounted sampleRandom)) = AwaitVision) as Hc
    by (rewrite call_run_mounted; reflexivity).
  destruct (fallback_iff_blank_text sampleRandom _
              (Resolved (Some (str "  "))) Hc) as (_ & Hf & _).
  apply Hf. reflexivity.
Defined.

(** C3 (as stated) fails: when the image call resolves without image
    data, the text the component holds is "Error: System failed to
    generate image." with a capital S and a final period, not the text
    of the claim, and the caption under the pane does not show that text
    either. *)
Lemma error_text_differs_from_claim :
  let failed :=
    run sampleRandom
      [LoadedMetadata; sampleClick;
       VisionSettled (Resolved (Some (str "cat")));
       ImageSettled (Resolved None)] (mounted sampleRandom) in
  aiConcept (ui failed) ≠ Some (str "Error: system failed to generate image")
  ∧ str "Error: system failed to generate image" ∉ caption (ui failed).
Proof.
  intros failed. unfold failed. rewrite ui_run_mounted. clear failed.
  vm_compute. split.
  - intros H. discriminate H.
  - intros H. apply list_elem_of_singleton in H. discriminate H.
Qed.

Lemma image_failure_sets_error_text_witness :
  aiConcept
    (ui (step sampleRandom (ImageSettled (Resolved None))
           (run sampleRandom
              [LoadedMetadata; sampleClick;
               VisionSettled (Resolved (Some (str "cat")))]
              (mounted sampleRandom))))
  = Some (str "Error: System failed to generate image.").
Proof.
  assert (call (run sampleRandom
                  [LoadedMetadata; sampleClick;
                   VisionSettled (Resolved (Some (str "cat")))]
                  (mounted sampleRandom))
          = AwaitImage (str "cat" ++ styleSuffix)) as Hc
    by (rewrite call_run_mounted; reflexivity).
  destruct (image_failure_sets_error_text sampleRandom _ (Resolved None)
              _ (0%Z, DrawNoise []) (reachable_run_mounted sampleRandom _)
              Hc (or_intror (or_introl eq_refl))) as (_ & Ht & _).
  exact Ht.
Defined.

Lemma noise_continues_after_failure_witness :
  noiseActive
    (run sampleRandom (replicate 3 AnimationFrame)
       (step sampleRandom (VisionSettled Rejected)
          (run sampleRandom [LoadedMetadata; sampleClick]
             (mounted sampleRandom)))) = true.
Proof.
  assert (call (run sampleRandom [LoadedMetadata; sampleClick]
                  (mounted sampleRandom)) = AwaitVision) as Hc
    by (rewrite call_run_mounted; reflexivity).
  destruct (noise_continues_after_failure sampleRandom _
              (VisionSettled Rejected) 3
              (reachable_run_mounted sampleRandom _)
              (or_introl (conj Hc eq_refl))) as (_ & _ & _ & Hn & _).
  exact Hn.
Defined.

Lemma terminal_frame_is_target_witness :
  head (frames (run sampleRandom
                  (ImageLoad sampleTarget :: replicate 89 AnimationFrame)
                  decodingWorld)) = Some sampleTarget.
Proof.
  assert (length (replicate (Z.to_nat 16384) 0%Z) = length sampleTarget)
    as Hlen by (unfold sampleTarget; by rewrite !length_replicate).
  assert (Forall is_byte sampleTarget) as Hb
    by (apply Forall_replicate; unfold is_byte; lia).
  destruct (terminal_frame_is_target sampleRandom decodingWorld
              decodingWorld (dataUrlPrefix ++ str "QUJD")
              (replicate (Z.to_nat 16384) 0%Z)
              (replicate (Z.to_nat 16384) 0%Z) [] sampleTarget 0
              eq_refl eq_refl Hlen Hlen Hb) as [H _].
  exact H.
Defined.

Lemma denoiser_runs_90_steps_then_stops_witness :
  rafQueue (run sampleRandom (replicate 89 AnimationFrame)
              (step sampleRandom (ImageLoad sampleTarget) decodingWorld))
  = [].
Proof.
  assert (∀ t : list Z, AnimationFrame ≠ ImageLoad t) as Hne by done.
  destruct (denoiser_runs_90_steps_then_stops sampleRandom decodingWorld
              (mounted sampleRandom) (dataUrlPrefix ++ str "QUJD")
              (replicate (Z.to_nat 16384) 0%Z) [] sampleTarget 0 1
              AnimationFrame 1%Z [] [] eq_refl eq_refl ltac:(lia)
              (reachable_mounted sampleRandom) Hne) as (_ & _ & H & _).
  exact H.
Defined.

Lemma click_during_decode_runs_two_loops_witness :
  let decoding :=
    run sampleRandom
      [LoadedMetadata; sampleClick;
       VisionSettled (Resolved (Some (str "cat")));
       ImageSettled (Resolved (Some (str "QUJD")))]
      (mounted sampleRandom) in
  let raced := run sampleRandom [sampleClick; ImageLoad sampleTarget]
                 decoding in
  noiseActive raced = true ∧ denoiseActive raced = true.
Proof.
  intros decoding.
  assert (buttonEnabled (ui decoding) = true) as Hb
    by (unfold decoding; rewrite ui_run_mounted; reflexivity).
  assert (loading decoding ≠ []) as Hl.
  { unfold decoding.
    rewrite (run_app sampleRandom
               [LoadedMetadata; sampleClick;
                VisionSettled (Resolved (Some (str "cat")))]
               [ImageSettled (Resolved (Some (str "QUJD")))]).
    set (w := run sampleRandom _ (mounted sampleRandom)).
    assert (call w = AwaitImage (str "cat" ++ styleSuffix)) as Hc
      by (unfold w; rewrite call_run_mounted; reflexivity).
    destruct (success_starts_load sampleRandom w _ 81%N (str "UJD")
                (0%Z, DrawNoise []) (reachable_run_mounted sampleRandom _) Hc)
      as (_ & _ & _ & _ & Hload & _).
    change (run sampleRandom [ImageSettled (Resolved (Some (str "QUJD")))] w)
      with (step sampleRandom
              (ImageSettled (Resolved (Some (81%N :: str "UJD")))) w).
    rewrite Hload. by destruct (loading w). }
  exact (click_during_decode_runs_two_loops sampleRandom decoding 1 1
           [0; 0; 0; 255]%Z sampleTarget Hb ltac:(lia) ltac:(lia) Hl).
Defined.

Lemma stipple_probability_and_dots_witness :
  (probability (Num := R) 0 <= probability (Num := R) 1)%R.
Proof.
  assert (∀ n, (0 <= sampleRandom n < 1)%R) as Hu
    by (intros n; unfold sampleRandom; lra).
  assert (∀ n : nat, PrimFloat.ltb 0.5%float 0%float = false) as Hf by done.
  destruct (stipple_probability_and_dots sampleRandom (λ _, 0.5%float)
              powerByMultiplication 0 1 3 1 1 [0; 0; 0; 255]%Z 0
              {| rectX := 0%R; rectY := 0%R; rectW := 0%R; rectH := 0%R |}
              decodingWorld Hu Hf ltac:(lra) ltac:(lra)) as [[H _] _].
  exact H.
Defined.

(** * Further properties of the component *)

(** ** The texts beside the panes *)

Section Shown.
Context {Num : Type} {number : JSNumber Num}.
Variable Math_random : nat → Num.

Lemma resting_controlStep (e : Event) (c : Component * Call) :
  coherent c → resting c → resting (controlStep e c).
Proof.
  destruct c as [u k]. unfold coherent, resting. simpl.
  intros Hcoh Hrest.
  destruct e as [|vidW vidH frame|r|r|t|]; simpl; try done.
  - destruct (buttonEnabled u && _); simpl; [done|exact Hrest].
  - destruct k; simpl; try done. destruct r as [|text]; simpl; [|done].
    intros _. right. right. simpl. by destruct Hcoh as (_ & ? & _ & ?).
  - destruct k; simpl; try done.
    destruct Hcoh as (_ & Hc & Hg & concept & Hai & Ht & _).
    destruct r as [|[[|ch s]|]]; cbn [fst snd]; intros _.
    1,2,4: right; right; cbn [fail hasCaptured generatedImage aiConcept];
      done.
    right. left. cbn [succeed hasCaptured generatedImage aiConcept].
    rewrite Hai. by split.
Qed.

Lemma reachable_resting (w : World Num) :
  reachable Math_random w → resting (control w).
Proof.
  intros Hw.
  enough (coherent (control w) ∧ resting (control w)) as [_ H] by done.
  induction Hw as [|e w _ [IHc IHs]].
  - unfold mounted. rewrite control_effect. split; [done|]. by left.
  - rewrite control_step.
    split; [by apply coherent_controlStep|by apply resting_controlStep].
Qed.

(** X1: in every reachable world the caption under the right pane follows
    the stage of the capture: nothing before the first capture,
    "Extracting semantic features..." while the first call is pending,
    "Synthesizing image from concept..." while the second is pending and
    also after a failure, the concept between quotation marks once an
    image was generated. *)
Theorem caption_follows_stage (w : World Num) :
  reachable Math_random w →
  match call w with
  | AwaitVision => caption (ui w) = [str "Extracting semantic features..."]
  | AwaitImage _ =>
      caption (ui w) = [str "Synthesizing image from concept..."]
  | NoCall =>
      (hasCaptured (ui w) = false ∧ caption (ui w) = [])
      ∨ (truthy (generatedImage (ui w)) = true
         ∧ caption (ui w)
           = [str "Generated From Prompt"; quoted (aiConcept (ui w))])
      ∨ (aiConcept (ui w) = Some errorConcept
         ∧ caption (ui w) = [str "Synthesizing image from concept..."])
  end.
Proof.
  intros Hw. pose proof (reachable_coherent Math_random w Hw) as Hcoh.
  pose proof (reachable_resting w Hw) as Hrest.
  unfold coherent, resting, control in *. simpl in *.
  destruct (call w) as [| |prompt].
  - destruct (Hrest eq_refl) as [(Hc & _)|[(Hc & Hg & Ha)|(Hc & Hg & Ha)]].
    + left. split; [done|]. unfold caption. by rewrite Hc.
    + right. left. split; [done|]. unfold caption.
      rewrite Hc, Hg, Hcoh. by simpl.
    + right. right. split; [done|]. unfold caption.
      rewrite Hc, Hg, Ha. by simpl.
  - destruct Hcoh as (Ha & Hc & Hai & Hg). unfold caption.
    rewrite Hc, Hg, Hai, Ha. by simpl.
  - destruct Hcoh as (Ha & Hc & Hg & concept & Hai & Ht & _).
    unfold caption. rewrite Hc, Hg, Hai. simpl in *. by rewrite Ht.
Qed.

(** X2: the button shows "Capture" exactly when it accepts a click, and
    "Processing..." exactly when the camera is ready and a call is
    pending. *)
Theorem button_label_follows_call (w : World Num) :
  reachable Math_random w →
  (buttonLabel (ui w) = str "Capture" ↔ buttonEnabled (ui w) = true)
  ∧ (buttonLabel (ui w) = str "Processing..."
     ↔ isCameraReady (ui w) = true ∧ call w ≠ NoCall).
Proof.
  intros Hw. pose proof (reachable_coherent Math_random w Hw) as Hcoh.
  unfold coherent, control in Hcoh. simpl in Hcoh.
  unfold buttonLabel, buttonEnabled.
  destruct (isCameraReady (ui w)); simpl.
  - destruct (call w) as [| |prompt].
    + rewrite Hcoh. simpl. split; [done|]. split; [done|]. by intros [_ ?].
    + destruct Hcoh as (-> & _). simpl. split; [done|]. done.
    + destruct Hcoh as (-> & _). simpl. split; [done|]. done.
  - split; split; try done. by intros [? _].
Qed.

Lemma stages_controlStep (e : Event) (c : Component * Call) :
  (isCameraReady c.1 = true → isCameraReady (controlStep e c).1 = true)
  ∧ (hasCaptured c.1 = true → hasCaptured (controlStep e c).1 = true).
Proof.
  destruct c as [u k].
  destruct e as [|vidW vidH frame|r|r|t|]; cbn [controlStep fst snd].
  - done.
  - by destruct (buttonEnabled u && _).
  - destruct k; try done. by destruct r.
  - destruct k; try done. by destruct r as [|[[|ch s]|]].
  - done.
  - done.
Qed.

(** X3: the stages never go back: once the camera is ready the button
    never shows "Initializing..." again, and once a capture was made the
    placeholders over the panes never return and the text under the
    left pane stays, whatever events follow. *)
Theorem stages_never_go_back (trace : list Event) (w : World Num) :
  (isCameraReady (ui w) = true →
   buttonLabel (ui (run Math_random trace w)) ≠ str "Initializing...")
  ∧ (hasCaptured (ui w) = true →
     placeholders (ui (run Math_random trace w)) = []
     ∧ leftCaption (ui (run Math_random trace w))
       = str "Direct optical imprint of physical photons").
Proof.
  assert (∀ c : Component * Call,
            (isCameraReady c.1 = true →
             isCameraReady (foldl (λ c e, controlStep e c) c trace).1 = true)
            ∧ (hasCaptured c.1 = true →
               hasCaptured (foldl (λ c e, controlStep e c) c trace).1 = true))
    as Hrun.
  { induction trace as [|e trace IH]; intros c; [done|]. cbn [foldl].
    destruct (stages_controlStep e c) as [Hr Hc].
    destruct (IH (controlStep e c)) as [IHr IHc]. split; auto. }
  destruct (Hrun (control w)) as [Hr Hc].
  rewrite <- (control_run Math_random trace w) in Hr, Hc.
  cbn [control fst] in Hr, Hc.
  split.
  - intros H. unfold buttonLabel. rewrite (Hr H).
    by destruct (isAnalyzing _).
  - intros H. unfold placeholders, leftCaption. by rewrite (Hc H).
Qed.

End Shown.

(** ** What the events leave alone *)

Section Untouched.
Context {Num : Type} {number : JSNumber Num}.
Variable Math_random : nat → Num.

Lemma leftPane_runCallback (cb : Callback) (w : World Num) :
  leftPane (runCallback Math_random cb w) = leftPane w.
Proof.
  destruct cb as [d|s t d]; [done|].
  change (runCallback Math_random (Denoise s t d) w)
    with (denoise Math_random s t d w).
  unfold denoise. by destruct (s + 1 <? totalSteps)%Z.
Qed.

Lemma leftPane_animationFrame (w : World Num) :
  leftPane (animationFrame Math_random w) = leftPane w.
Proof.
  unfold animationFrame.
  change (leftPane w) with (leftPane (withQueue (rafNext w) [] w)).
  generalize (withQueue (rafNext w) [] w). generalize (rafQueue w).
  intros q. induction q as [|e q IH]; intros w0; [done|].
  simpl. by rewrite IH, leftPane_runCallback.
Qed.

(** X4: only a click changes the left pane: the responses of the
    services, the load of the generated image and the animation frames
    leave the stippled capture as it is. *)
Theorem left_pane_changes_only_on_click (e : Event) (w : World Num) :
  (∀ vidW vidH frame, e ≠ Click vidW vidH frame) →
  leftPane (step Math_random e w) = leftPane w.
Proof.
  intros He. destruct e as [|vidW vidH frame|r|r|t|]; cbn [step].
  - done.
  - by destruct (He vidW vidH frame).
  - destruct (call w); try done.
    destruct r; unfold visionSettled; by rewrite leftPane_commit.
  - destruct (call w); try done.
    destruct r as [|[[|ch s]|]]; unfold imageSettled;
      by rewrite leftPane_commit.
  - destruct (loading w) as [|[src d] rest]; [done|]. unfold onload.
    apply (leftPane_runCallback (Denoise 0 t d) (withLoading rest w)).
  - apply leftPane_animationFrame.
Qed.

(** The mounted component, field by field. *)
Lemma mounted_fields :
  mounted Math_random
  = {| ui := initialControl.1; call := NoCall; animationRef := None;
       hasCleanup := false; rafNext := 1; rafQueue := []; loading := [];
       surface := [FillBlack; Reset]; leftPane := None; randomCalls := 0 |}.
Proof. reflexivity. Qed.

(** A click is ignored while the button is disabled or the video has no
    dimensions yet. *)
Lemma click_ignored (w : World Num) (vidW vidH : Z) (frame : list Z) :
  buttonEnabled (ui w) = false ∨ vidW = 0%Z ∨ vidH = 0%Z →
  step Math_random (Click vidW vidH frame) w = w.
Proof.
  intros H. cbn [step]. destruct (buttonEnabled (ui w)); [|done].
  unfold captureSubject. destruct H as [H|[-> | ->]]; [done|done|].
  by rewrite orb_true_r.
Qed.

(** X5: until the video reports its metadata nothing happens: whatever
    the other events, the component stays as mounted, with both panes
    blank and nothing scheduled. *)
Theorem nothing_before_camera_ready (trace : list Event) :
  LoadedMetadata ∉ trace →
  run Math_random trace (mounted Math_random) = mounted Math_random.
Proof.
  induction trace as [|e trace IH]; intros Hnot; [done|].
  rewrite run_cons.
  assert (step Math_random e (mounted Math_random) = mounted Math_random)
    as ->.
  { destruct e as [|vidW vidH frame|r|r|t|].
    - destruct Hnot. left.
    - apply click_ignored. by left.
    - done.
    - done.
    - done.
    - by apply animationFrame_idle. }
  apply IH. intros Hin. apply Hnot. by right.
Qed.

End Untouched.

(** ** One loop at a time: the invariant *)

Section Invariant.
Context {Num : Type} {number : JSNumber Num}.
Variable Math_random : nat → Num.

Ltac fields :=
  cbn [ui call animationRef hasCleanup rafNext rafQueue loading surface
       leftPane randomCalls withUi withCall withRef withCleanup withQueue
       withLoading paint withLeft withRandom requestAnimationFrame
       drawNoise] in *.

Lemma cancelCurrent_fields (w : World Num) :
  ui (cancelCurrent w) = ui w ∧ call (cancelCurrent w) = call w
  ∧ rafNext (cancelCurrent w) = rafNext w
  ∧ hasCleanup (cancelCurrent w) = hasCleanup w
  ∧ loading (cancelCurrent w) = loading w
  ∧ animationRef (cancelCurrent w) = animationRef w
  ∧ surface (cancelCurrent w) = surface w.
Proof.
  unfold cancelCurrent, cancelAnimationFrame.
  destruct (animationRef w) as [id|] eqn:Hr; [|done].
  by destruct (id =? 0)%Z.
Qed.

(** The cleanup removes the only pending callback. *)
Lemma cancelCurrent_empties (w : World Num) :
  (rafQueue w = [] ∨ ∃ id cb, pending w id cb) →
  rafQueue (cancelCurrent w) = [].
Proof.
  unfold cancelCurrent, cancelAnimationFrame, pending.
  intros [Hq|(id & cb & Hq & Hr & Hid)].
  - destruct (animationRef w) as [id|]; [|done].
    destruct (id =? 0)%Z; [done|]. fields. by rewrite Hq.
  - rewrite Hr. replace (id =? 0)%Z with false by (symmetry; lia).
    fields. rewrite Hq. cbn. by rewrite decide_False by (by intros []).
Qed.

Lemma effect_idle (w : World Num) :
  hasCaptured (ui w) = false →
  effect Math_random w = withCleanup false (paint FillBlack (paint Reset w)).
Proof. intros Hc. unfold effect. fields. by rewrite Hc. Qed.

Lemma effect_noiseBranch (w : World Num) :
  hasCaptured (ui w) = true → noiseBranch (ui w) = true →
  effect Math_random w
  = withCleanup true
      (drawNoise Math_random (createImageData noiseRes noiseRes)
         (paint Reset w)).
Proof. intros Hc Hb. unfold effect. fields. by rewrite Hc, Hb. Qed.

Lemma effect_load (w : World Num) (c : N) (s : jsstring) :
  hasCaptured (ui w) = true → noiseBranch (ui w) = false →
  generatedImage (ui w) = Some (c :: s) →
  effect Math_random w
  = withCleanup true
      (withLoading
         (loading w ++ [(c :: s, createImageData noiseRes noiseRes)])
         (cancelCurrent (paint Reset w))).
Proof. intros Hc Hb Hg. unfold effect. fields. by rewrite Hc, Hb, Hg. Qed.

Lemma effect_nothing (w : World Num) :
  hasCaptured (ui w) = true → noiseBranch (ui w) = false →
  truthy (generatedImage (ui w)) = false →
  effect Math_random w = withCleanup true (paint Reset w).
Proof.
  intros Hc Hb Hg. unfold effect. fields. rewrite Hc, Hb.
  by destruct (generatedImage (ui w)) as [[|c s]|].
Qed.

(** While a call is in flight the component is analysing. *)
Lemma coherent_analysing (w : World Num) :
  coherent (control w) → call w ≠ NoCall →
  isAnalyzing (ui w) = true ∧ hasCaptured (ui w) = true.
Proof.
  unfold coherent, control. cbn [fst snd].
  destruct (call w); [done|..]; intros (? & ? & _) _; done.
Qed.

(** The effect in a world with nothing pending and nothing loading. *)
Lemma effect_oneLoop (w : World Num) :
  (1 ≤ rafNext w)%Z → rafQueue w = [] → loading w = [] →
  coherent (control w) → oneLoop (effect Math_random w).
Proof.
  intros Hn Hq Hl Hcoh.
  pose proof (coherent_analysing w Hcoh) as Han.
  destruct (hasCaptured (ui w)) eqn:Hc.
  - destruct (noiseBranch (ui w)) eqn:Hb.
    + rewrite effect_noiseBranch by done. unfold oneLoop, pending. fields.
      rewrite Hq, Hc, Hl. cbn [app]. split; [lia|]. split.
      { right. eexists _, _. split; [done|]. split; [done|]. lia. }
      split; [done|]. split; [done|]. split; [by left|].
      split; [intros _; by eexists _, _|]. split; [intros ? ? ? ? [=]|].
      split; [done|]. split; [intros _; by eexists|]. done.
    + assert (call w = NoCall) as Hk.
      { destruct (call w) eqn:Hk; [done|..];
          destruct Han as [Ha _]; try done;
          unfold noiseBranch in Hb; rewrite Ha in Hb; done. }
      destruct (generatedImage (ui w)) as [[|c s]|] eqn:Hg.
      * rewrite effect_nothing by (by rewrite ?Hg). unfold oneLoop. fields.
        rewrite Hq, Hl, Hc.
        split; [done|]. split; [by left|]. split; [done|]. split; [done|].
        split; [by left|]. split; [done|]. split; [intros ? ? ? ? [=]|].
        split; [done|]. split; done.
      * rewrite (effect_load w c s) by done.
        destruct (cancelCurrent_fields (paint Reset w))
          as (Hu & Hk' & Hnx & _ & _ & _ & Hsf).
        assert (rafQueue (cancelCurrent (paint Reset w)) = []) as Hq'
          by (apply cancelCurrent_empties; left; exact Hq).
        unfold oneLoop. fields. rewrite Hq', Hl, Hnx, Hu, Hk', Hsf. fields.
        rewrite Hg, Hk, Hc. cbn [app].
        split; [done|]. split; [by left|]. split; [done|]. split; [done|].
        split; [right; split; [by eexists|done]|].
        split; [done|]. split; [intros ? ? ? ? [=]|].
        split; [done|]. split; done.
      * rewrite effect_nothing by (by rewrite ?Hg). unfold oneLoop. fields.
        rewrite Hq, Hl, Hc.
        split; [done|]. split; [by left|]. split; [done|]. split; [done|].
        split; [by left|]. split; [done|]. split; [intros ? ? ? ? [=]|].
        split; [done|]. split; done.
  - rewrite effect_idle by done. unfold oneLoop. fields. rewrite Hq, Hl.
    split; [done|]. split; [by left|]. split; [congruence|].
    split; [intros [?|?]; congruence|]. split; [by left|].
    split; [|split; [intros ? ? ? ? [=]|split; [done|split; done]]].
    intros Hk. destruct (Han Hk) as [_ ?]. congruence.
Qed.

(** A render after a change of a dependency, in a world that keeps the
    invariant and loads nothing. *)
Lemma commit_oneLoop (w w' : World Num) :
  oneLoop w → sameHost w w' → loading w = [] →
  (hasCaptured (ui w) = true → hasCaptured (ui w') = true) →
  deps (ui w) ≠ deps (ui w') →
  coherent (control w') → oneLoop (commit Math_random (ui w) w').
Proof.
  intros (Hn & Hq & Hcl & Hcap & Hld & _) (Hn' & Hq' & Hr' & Hc' & Hl') Hl
    Hmono Hdeps Hcoh.
  unfold commit. rewrite decide_False by done.
  assert (rafQueue (if hasCleanup w' then cancelCurrent w' else w') = [])
    as Hempty.
  { destruct Hq as [Hq|(id & cb & Hq & Hr & Hid)].
    - destruct (hasCleanup w'); [|congruence].
      apply cancelCurrent_empties. left. congruence.
    - rewrite Hc', Hcl.
      + apply cancelCurrent_empties. right. exists id, cb.
        unfold pending. rewrite Hq', Hr'. done.
      + apply Hcap. left. by rewrite Hq. }
  apply effect_oneLoop.
  - destruct (hasCleanup w'); [|lia].
    destruct (cancelCurrent_fields w') as (_ & _ & -> & _). lia.
  - exact Hempty.
  - destruct (hasCleanup w'); [|congruence].
    destruct (cancelCurrent_fields w') as (_ & _ & _ & _ & -> & _).
    congruence.
  - destruct (hasCleanup w'); [|done]. by rewrite control_cancelCurrent.
Qed.

Lemma reachablePatiently_reachable (w : World Num) :
  reachablePatiently Math_random w → reachable Math_random w.
Proof. induction 1; by constructor. Qed.

(** A callback run on an empty queue leaves at most its successor. *)
Lemma runCallback_oneLoop (cb : Callback) (w : World Num) :
  (1 ≤ rafNext w)%Z → rafQueue w = [] →
  let w' := runCallback Math_random cb w in
  (1 ≤ rafNext w')%Z
  ∧ hasCleanup w' = hasCleanup w ∧ loading w' = loading w
  ∧ match cb with
    | DrawNoise _ => ∃ d, pending w' (rafNext w) (DrawNoise d)
    | Denoise s t _ =>
        rafQueue w' = []
        ∨ ∃ d, pending w' (rafNext w) (Denoise (s + 1) t d)
    end
  ∧ ∃ d, head (surface w') = Some (Frame d).
Proof.
  intros Hn Hq. destruct cb as [d|s t d]; cbn [runCallback]; unfold pending.
  - fields. rewrite Hq. split; [lia|]. split; [done|]. split; [done|].
    split; by eexists.
  - unfold denoise. cbn zeta. destruct (s + 1 <? totalSteps)%Z.
    + fields. rewrite Hq. split; [lia|]. split; [done|]. split; [done|].
      split; [right|]; by eexists.
    + fields. split; [done|]. split; [done|]. split; [done|].
      split; [by left|by eexists].
Qed.

Lemma step_oneLoop (e : Event) (w : World Num) :
  reachable Math_random w → oneLoop w → patient e w →
  oneLoop (step Math_random e w).
Proof.
  intros Hreach Hinv Hpat.
  pose proof (reachable_coherent Math_random _
                (reachable_step Math_random e w Hreach)) as Hcoh.
  pose proof (reachable_coherent Math_random _ Hreach) as Hcoh0.
  pose proof Hinv
    as (Hn & Hq & Hcl & Hcap & Hld & Hcall & Hden & Hblack & Hframe & Hreset).
  destruct e as [|vidW vidH frame|r|r|t|]; cbn [step] in Hcoh |- *.
  - exact Hinv.
  - cbn [patient] in Hpat.
    destruct (buttonEnabled (ui w)) eqn:Hbtn; [|exact Hinv].
    unfold captureSubject in Hcoh |- *.
    destruct ((vidW =? 0)%Z || (vidH =? 0)%Z); [exact Hinv|].
    cbn zeta in Hcoh |- *. rewrite control_commit in Hcoh.
    apply commit_oneLoop; try done.
    apply andb_prop in Hbtn as [_ Ha%negb_true_iff].
    unfold deps. cbn [ui withUi startCapture isAnalyzing]. rewrite Ha.
    by intros [= ].
  - destruct (call w) eqn:Hk; try exact Hinv.
    assert (loading w = []) as Hl
      by (destruct Hld as [?|(_ & _ & ? & _)]; congruence).
    unfold coherent, control in Hcoh0. cbn [fst snd] in Hcoh0.
    rewrite Hk in Hcoh0. destruct Hcoh0 as (Ha & _ & Hai & _).
    destruct r as [|text]; cbn [visionSettled] in Hcoh |- *;
      rewrite control_commit in Hcoh; apply commit_oneLoop; try done;
      unfold deps; cbn [ui withUi fail setAiConcept isAnalyzing aiConcept].
    + rewrite Ha. by intros [= ].
    + rewrite Hai. by intros [= ].
  - destruct (call w) eqn:Hk; try exact Hinv.
    assert (loading w = []) as Hl
      by (destruct Hld as [?|(_ & _ & ? & _)]; congruence).
    unfold coherent, control in Hcoh0. cbn [fst snd] in Hcoh0.
    rewrite Hk in Hcoh0. destruct Hcoh0 as (Ha & _).
    destruct r as [|[[|ch s]|]]; cbn [imageSettled] in Hcoh |- *;
      rewrite control_commit in Hcoh; apply commit_oneLoop; try done;
      unfold deps; cbn [ui withUi fail succeed isAnalyzing];
      rewrite Ha; by intros [= ].
  - destruct (loading w) as [|[src d] rest] eqn:Hl; [exact Hinv|].
    destruct Hld as [?|((x & Hx) & Hq0 & Hk & Hg)]; [done|].
    injection Hx as _ _ ->.
    unfold onload.
    destruct (runCallback_oneLoop (Denoise 0 t d) (withLoading [] w))
      as (Hn' & Hc' & Hl' & Hq' & Hsf'); [done|done|].
    cbn [runCallback] in Hn', Hq', Hc', Hl', Hsf'.
    pose proof (f_equal fst (control_runCallback Math_random (Denoise 0 t d)
                               (withLoading [] w))) as Hu.
    pose proof (f_equal snd (control_runCallback Math_random (Denoise 0 t d)
                               (withLoading [] w))) as Hk'.
    cbn [fst snd control runCallback] in Hu, Hk'.
    unfold oneLoop. rewrite Hu, Hk', Hc', Hl'. fields.
    split; [done|].
    split; [destruct Hq' as [?|[d' ?]]; [by left|right; by eexists _, _]|].
    assert (hasCaptured (ui w) = true) as Hcapd by (apply Hcap; by right).
    split; [done|]. split; [done|].
    split; [by left|]. split; [done|]. split; [done|].
    split; [by rewrite Hcapd|]. split; [done|]. done.
  - unfold animationFrame.
    destruct Hq as [Hq|(id & cb & Hq & Hr & Hid)]; rewrite Hq; cbn [foldl].
    + unfold oneLoop. fields. rewrite Hq in Hld, Hcall.
      split; [done|]. split; [by left|].
      split; [done|]. split; [|done].
      intros [?|?]; [done|]. apply Hcap. by right.
    + destruct (runCallback_oneLoop cb (withQueue (rafNext w) [] w))
        as (Hn' & Hc' & Hl' & Hq' & Hsf'); [done|done|].
      pose proof (f_equal fst (control_runCallback Math_random cb
                                 (withQueue (rafNext w) [] w))) as Hu.
      pose proof (f_equal snd (control_runCallback Math_random cb
                                 (withQueue (rafNext w) [] w))) as Hk.
      cbn [fst snd control] in Hu, Hk.
      cbn [snd]. unfold oneLoop. rewrite Hu, Hk, Hc', Hl'. fields.
      assert (hasCaptured (ui w) = true) as Hcapd
        by (apply Hcap; left; by rewrite Hq).
      assert (loading w = []) as Hl0
        by (destruct Hld as [?|(_ & ? & _)]; congruence).
      split; [done|]. split.
      { destruct cb as [d|s t d].
        - destruct Hq' as [d' ?]. right. by eexists _, _.
        - destruct Hq' as [?|[d' ?]]; [by left|right; by eexists _, _]. }
      split; [done|]. split; [done|]. split; [by left|].
      split; [|split; [|split; [by rewrite Hcapd|split; [done|]]]].
      * intros Hne. destruct (Hcall Hne) as (id' & d' & Hq2).
        rewrite Hq in Hq2. injection Hq2 as _ ->.
        destruct Hq' as [d'' (? & _)]. by eexists _, _.
      * intros id' s' t' d' Hq2. destruct cb as [d|s t d].
        -- destruct Hq' as [d'' (Hq3 & _)]. rewrite Hq3 in Hq2. done.
        -- by apply (Hden id s t d).
      * by rewrite Hl0.
Qed.

Lemma reachablePatiently_run (trace : list Event) (w : World Num) :
  reachablePatiently Math_random w → patientTrace Math_random trace w →
  reachablePatiently Math_random (run Math_random trace w).
Proof.
  revert w. induction trace as [|e trace IH]; intros w Hw Hp; [done|].
  destruct Hp as [He Hp]. rewrite run_cons. apply IH; [|done].
  by apply patiently_step.
Qed.

Lemma mounted_oneLoop : oneLoop (mounted Math_random).
Proof. unfold mounted. by apply effect_oneLoop. Qed.

Lemma reachablePatiently_oneLoop (w : World Num) :
  reachablePatiently Math_random w → oneLoop w.
Proof.
  induction 1 as [|e w Hw IH Hp]; [apply mounted_oneLoop|].
  apply step_oneLoop; [by apply reachablePatiently_reachable|done..].
Qed.

End Invariant.

(** ** What a session without a click during a load guarantees *)

Transparent createImageData.

Lemma length_createImageData (w h : Z) :
  length (createImageData w h) = Z.to_nat (w * h * 4).
Proof. apply length_replicate. Qed.

Opaque createImageData.

Section Journey.
Context {Num : Type} {number : JSNumber Num}.
Variable Math_random : nat → Num.

Lemma ui_run_frames (n : nat) (w : World Num) :
  control (run Math_random (replicate n AnimationFrame) w) = control w.
Proof.
  rewrite control_run. induction n as [|n IH]; [done|]. exact IH.
Qed.

Lemma loading_runCallback (cb : Callback) (w : World Num) :
  loading (runCallback Math_random cb w) = loading w.
Proof.
  destruct cb as [d|s t d]; cbn [runCallback]; [done|]. unfold denoise.
  by destruct (s + 1 <? totalSteps)%Z.
Qed.

Lemma loading_animationFrame (w : World Num) :
  loading (animationFrame Math_random w) = loading w.
Proof.
  unfold animationFrame.
  change (loading w) with (loading (withQueue (rafNext w) [] w)).
  generalize (withQueue (rafNext w) [] w). generalize (rafQueue w).
  intros q. induction q as [|e q IH]; intros w0; [done|].
  cbn [foldl]. by rewrite IH, loading_runCallback.
Qed.

Lemma loading_run_frames (n : nat) (w : World Num) :
  loading (run Math_random (replicate n AnimationFrame) w) = loading w.
Proof.
  induction n as [|n IH]; [done|].
  by rewrite run_frames_S, loading_animationFrame.
Qed.

(** X6: as long as no click is made while a generated image is loading,
    at most one animation-frame callback is pending, so the noise loop
    and the denoise loop never run together; while a call to a service
    is pending the noise loop runs; the denoise loop runs only once an
    image was generated and no call is pending; and while the image
    loads nothing is scheduled. *)
Theorem one_loop_unless_click_during_load (w : World Num) :
  reachablePatiently Math_random w →
  length (rafQueue w) ≤ 1
  ∧ noiseActive w && denoiseActive w = false
  ∧ (call w ≠ NoCall → noiseActive w = true)
  ∧ (denoiseActive w = true →
     truthy (generatedImage (ui w)) = true ∧ call w = NoCall)
  ∧ (loading w ≠ [] → rafQueue w = [] ∧ call w = NoCall).
Proof.
  intros Hw.
  destruct (reachablePatiently_oneLoop Math_random w Hw)
    as (_ & Hq & _ & _ & Hld & Hcall & Hden & _).
  unfold noiseActive, denoiseActive.
  split; [|split; [|split; [|split]]].
  - destruct Hq as [->|(id & cb & -> & _)]; cbn [length]; lia.
  - destruct Hq as [->|(id & [d|s t d] & -> & _)]; reflexivity.
  - intros Hk. destruct (Hcall Hk) as (id & d & ->). reflexivity.
  - destruct Hq as [Hq|(id & [d|s t d] & Hq & _)]; rewrite Hq;
      cbn [existsb isDenoise isNoise snd negb orb]; try done.
    intros _. split; [by apply (Hden id s t d)|].
    destruct (call w) eqn:Hk; [done|..];
      destruct Hcall as (? & ? & Hq2); try done;
      rewrite Hq in Hq2; done.
  - intros Hl. destruct Hld as [?|(_ & ? & ? & _)]; done.
Qed.

(** X7: in a session without a click during an image load the right
    pane follows the stage: it is black before the first capture, it
    shows a frame (the noise) while a call to a service is pending or
    any callback is scheduled, and it is cleared, showing nothing, from
    the moment the image call succeeds until the image has loaded. *)
Theorem right_pane_follows_stage (w : World Num) :
  reachablePatiently Math_random w →
  (hasCaptured (ui w) = false → head (surface w) = Some FillBlack)
  ∧ (call w ≠ NoCall ∨ rafQueue w ≠ [] →
     ∃ d, head (surface w) = Some (Frame d))
  ∧ (loading w ≠ [] → head (surface w) = Some Reset).
Proof.
  intros Hw.
  destruct (reachablePatiently_oneLoop Math_random w Hw)
    as (_ & _ & _ & _ & _ & Hcall & _ & Hblack & Hframe & Hreset).
  split; [done|]. split; [|done].
  intros [Hk|Hq]; [|by apply Hframe].
  apply Hframe. destruct (Hcall Hk) as (id & d & ->). done.
Qed.

(** The load of the only pending image, in a world with nothing
    scheduled, followed by 89 animation frames. *)
Lemma load_reveals (w : World Num) (src : jsstring) (data : list Z)
    (targetData : list Z) :
  loading w = [(src, data)] → rafQueue w = [] →
  length data = length targetData → Forall is_byte targetData →
  let stop :=
    run Math_random (ImageLoad targetData :: replicate 89 AnimationFrame) w in
  head (frames stop) = Some targetData
  ∧ rafQueue stop = [] ∧ loading stop = [] ∧ control stop = control w.
Proof.
  intros Hl Hq Hlen Hbytes stop. unfold stop. clear stop.
  rewrite run_cons,
    (step_ImageLoad Math_random targetData data src [] w Hl).
  destruct (denoising_settles Math_random targetData (length data)
              (rafNext w) (frames w)
              (onload Math_random targetData data (withLoading [] w)))
    as (d' & painted & Hq' & Hd' & Hf & _).
  { by apply (onload_denoising Math_random targetData data
                (withLoading [] w)). }
  split.
  { rewrite Hf. cbn [head]. f_equal. apply copyTarget_exact; [lia|done]. }
  split; [done|].
  pose proof (control_runCallback Math_random (Denoise 0 targetData data)
                (withLoading [] w)) as Hrc.
  pose proof (loading_runCallback (Denoise 0 targetData data)
                (withLoading [] w)) as Hrl.
  cbn [runCallback] in Hrc, Hrl. unfold onload.
  by rewrite loading_run_frames, ui_run_frames, Hrc, Hrl.
Qed.

(** X8: from any world reached without a click during an image load
    and waiting for the image call: when the call resolves with image
    data, the image loads with a 64x64 target of bytes and 89 animation
    frames follow, the right pane shows exactly the target, nothing is
    scheduled or loading any more, the button is released and the
    caption shows, between quotation marks, the concept the prompt was
    built from. *)
Theorem generated_image_is_revealed (w : World Num) (prompt : jsstring)
    (c : N) (s : jsstring) (targetData : list Z) :
  reachablePatiently Math_random w → call w = AwaitImage prompt →
  Z.of_nat (length targetData) = 16384%Z → Forall is_byte targetData →
  let stop :=
    run Math_random
      (ImageSettled (Resolved (Some (c :: s))) :: ImageLoad targetData
       :: replicate 89 AnimationFrame) w in
  head (frames stop) = Some targetData
  ∧ rafQueue stop = [] ∧ loading stop = [] ∧ call stop = NoCall
  ∧ generatedImage (ui stop) = Some (dataUrlPrefix ++ c :: s)
  ∧ isAnalyzing (ui stop) = false
  ∧ ∃ concept, prompt = concept ++ styleSuffix
      ∧ caption (ui stop)
        = [str "Generated From Prompt"; quoted (Some concept)].
Proof.
  intros Hw Hk Hlen Hbytes stop. unfold stop. clear stop. rewrite run_cons.
  pose proof (reachablePatiently_reachable Math_random w Hw) as Hreach.
  pose proof (reachable_coherent Math_random w Hreach) as Hcoh.
  unfold coherent, control in Hcoh. cbn [fst snd] in Hcoh.
  rewrite Hk in Hcoh.
  destruct Hcoh as (Ha & Hcap & Hg & concept & Hai & Htr & Hprompt).
  destruct (reachablePatiently_oneLoop Math_random w Hw)
    as (_ & _ & _ & _ & Hld & _).
  assert (loading w = []) as Hl
    by (destruct Hld as [?|(_ & _ & ? & _)]; congruence).
  pose proof (patiently_step Math_random
                (ImageSettled (Resolved (Some (c :: s)))) w Hw I) as Hw1.
  destruct (success_starts_load Math_random w prompt c s (0%Z, DrawNoise [])
              Hreach Hk) as (Hg1 & Ha1 & Hai1 & Hk1 & Hl1 & _).
  rewrite Hl in Hl1. cbn [app] in Hl1.
  pose proof (length_createImageData noiseRes noiseRes) as Hcid.
  change (noiseRes * noiseRes * 4)%Z with 16384%Z in Hcid.
  revert Hl1 Hcid. generalize (createImageData noiseRes noiseRes).
  revert Hw1 Hg1 Ha1 Hai1 Hk1.
  generalize (step Math_random (ImageSettled (Resolved (Some (c :: s)))) w).
  intros w1 Hw1 Hg1 Ha1 Hai1 Hk1 cid Hl1 Hcid.
  destruct (reachablePatiently_oneLoop Math_random w1 Hw1)
    as (_ & _ & _ & Hcap1 & Hld1 & _).
  assert (rafQueue w1 = []) as Hq1.
  { destruct Hld1 as [Hnil|(_ & ? & _)]; [|done].
    rewrite Hl1 in Hnil. done. }
  assert (hasCaptured (ui w1) = true) as Hc1
    by (apply Hcap1; right; by rewrite Hl1).
  destruct (load_reveals w1 (dataUrlPrefix ++ c :: s) cid targetData)
    as (Hhead & Hq & Hload & Hctl); [done|done|clear -Hcid Hlen; lia|done|].
  revert Hhead Hq Hload Hctl.
  generalize (run Math_random
                (ImageLoad targetData :: replicate 89 AnimationFrame) w1).
  intros stop Hhead Hq Hload Hctl.
  pose proof (f_equal fst Hctl) as Hui. pose proof (f_equal snd Hctl) as Hkk.
  cbn [fst snd control] in Hui, Hkk.
  split; [done|]. split; [done|]. split; [done|].
  split; [congruence|]. rewrite Hui. split; [done|]. split; [done|].
  exists concept. split; [done|].
  unfold caption. rewrite Hc1, Hg1, Ha1, Hai1, Hai. reflexivity.
Qed.

End Journey.


(** * The pixel buffers *)

(** ** Loops that write one pixel after the other *)

Module Writers.

(** Four stores at the end of a written prefix. *)
Lemma store_four (pre rest : list Z) (a b c e v0 v1 v2 v3 i : Z) :
  i = Z.of_nat (length pre) →
  store (store (store (store (pre ++ a :: b :: c :: e :: rest) i v0)
                  (i + 1) v1) (i + 2) v2) (i + 3) v3
  = pre ++ v0 :: v1 :: v2 :: v3 :: rest.
Proof.
  intros ->. unfold store.
  rewrite !(proj2 (Z.leb_le _ _)) by lia.
  rewrite Nat2Z.id.
  replace (Z.to_nat (Z.of_nat (length pre) + 1)) with (length pre + 1)
    by lia.
  replace (Z.to_nat (Z.of_nat (length pre) + 2)) with (length pre + 2)
    by lia.
  replace (Z.to_nat (Z.of_nat (length pre) + 3)) with (length pre + 3)
    by lia.
  induction pre as [|x pre IH]; [done|]. cbn. f_equal. exact IH.
Qed.

Lemma drop_four (d : list Z) (m : nat) :
  m + 4 ≤ length d →
  ∃ a b c e, drop m d = a :: b :: c :: e :: drop (m + 4) d.
Proof.
  intros Hlen. pose proof (length_drop d m) as Hd.
  rewrite <- (drop_drop d 4 m)%nat.
  destruct (drop m d) as [|a [|b [|c [|e rest]]]]; cbn [length] in Hd;
    try lia.
  by exists a, b, c, e.
Qed.

Section fold.
Context {A : Type}.
Variable idx : A → Z.
Variable val : A → nat → Z * Z * Z * Z.
Variable W : A → list Z * nat → list Z * nat.

Hypothesis W_spec : ∀ a d k,
  W a (d, k)
  = (store (store (store (store d (idx a) (val a k).1.1.1)
                     (idx a + 1) (val a k).1.1.2)
              (idx a + 2) (val a k).1.2)
       (idx a + 3) (val a k).2,
     (k + 3)%nat).

(** Writers visiting the pixels 0, 1, 2, ... in order overwrite a prefix
    of the buffer with their values. *)
Lemma pixel_fold (ps : list A) (d : list Z) (k : nat) :
  idx <$> ps = (λ j, 4 * j)%Z <$> seqZ 0 (Z.of_nat (length ps)) →
  4 * length ps ≤ length d →
  foldl (λ st a, W a st) (d, k) ps
  = (concat (imap (λ i a, quad (val a (k + 3 * i))) ps)
       ++ drop (4 * length ps) d,
     k + 3 * length ps).
Proof using W_spec.
  induction ps as [|a ps IH] using rev_ind; intros Hidx Hlen.
  - cbn. by rewrite Nat.add_0_r.
  - rewrite length_app in Hidx, Hlen. cbn [length] in Hidx, Hlen.
    rewrite fmap_app in Hidx.
    replace (Z.of_nat (length ps + 1)) with (Z.of_nat (length ps) + 1)%Z
      in Hidx by lia.
    rewrite seqZ_app in Hidx by lia. rewrite fmap_app in Hidx.
    apply app_inj_1 in Hidx as [Hpre Hlast];
      [|by rewrite !length_fmap, length_seqZ; lia].
    cbn in Hlast. injection Hlast as Ha.
    rewrite foldl_app, IH by (done || lia). cbn [foldl].
    rewrite W_spec.
    destruct (drop_four d (4 * length ps)) as (x0 & x1 & x2 & x3 & Hdrop);
      [lia|].
    rewrite Hdrop.
    assert (length (concat (imap (λ i a, quad (val a (k + 3 * i))) ps))
            = 4 * length ps) as Hcl.
    { clear. generalize k. induction ps as [|a ps IH] using rev_ind;
        intros k0; [done|].
      rewrite imap_app, concat_app, !length_app, IH. cbn. lia. }
    rewrite store_four by (rewrite Hcl; lia).
    rewrite imap_app, concat_app. cbn [imap concat]. rewrite app_nil_r.
    rewrite <- app_assoc. cbn [quad app]. rewrite length_app. cbn [length].
    f_equal; [|lia].
    f_equal. rewrite Nat.add_0_r.
    replace (4 * length ps + 4) with (4 * (length ps + 1)) by lia. done.
Qed.

(** The element at offset [c] of pixel [p]. *)
Lemma lookup_quads (ps : list A) (k p c : nat) (a : A) (rest : list Z) :
  ps !! p = Some a → c < 4 →
  (concat (imap (λ i a, quad (val a (k + 3 * i))) ps) ++ rest) !! (4 * p + c)
  = quad (val a (k + 3 * p)) !! c.
Proof.
  revert k p. induction ps as [|b ps IH]; intros k p Hp Hc; [done|].
  cbn [imap concat]. rewrite <- app_assoc. destruct p as [|p].
  - injection Hp as ->. rewrite Nat.mul_0_r, !Nat.add_0_r.
    cbn [quad app]. by do 4 (destruct c as [|c]; [done|]); lia.
  - cbn [lookup list_lookup] in Hp.
    replace (4 * S p + c) with (length (quad (val b (k + 3 * 0))) + (4 * p + c))
      by (cbn; lia).
    rewrite lookup_app_r by lia.
    replace (length (quad (val b (k + 3 * 0))) + (4 * p + c)
             - length (quad (val b (k + 3 * 0)))) with (4 * p + c) by lia.
    replace (k + 3 * S p) with (k + 3 + 3 * p) by lia.
    rewrite <- (IH (k + 3) p Hp Hc).
    f_equal. f_equal. f_equal. apply imap_ext. intros i x _. cbn.
    do 2 f_equal. lia.
Qed.

End fold.

(** Nested loops visit the pairs in row order. *)
Lemma foldl_nested {S B C : Type} (F : B → C → S → S) (ys : list B)
    (xs : list C) (st : S) :
  foldl (λ st y, foldl (λ st x, F y x st) st xs) st ys
  = foldl (λ st p, F p.1 p.2 st) st (y ← ys; pair y <$> xs).
Proof.
  revert st. induction ys as [|y ys IH]; intros st; [done|].
  rewrite bind_cons, foldl_app, <- IH. cbn [foldl].
  f_equal. by rewrite foldl_fmap.
Qed.

End Writers.

(** ** The two frames, element by element *)

Transparent noiseFrame denoiseFrame.

Section FrameElements.
Context {Num : Type} {number : JSNumber Num}.
Variable Math_random : nat → Num.

Lemma upto_4 (n : nat) :
  upto (Z.of_nat (4 * n)) 4 = (λ j, 4 * j)%Z <$> seqZ 0 (Z.of_nat n).
Proof.
  unfold upto.
  replace ((Z.of_nat (4 * n) + 4 - 1) `div` 4)%Z with (Z.of_nat n)
    by (apply Z.div_unique with (r := 3%Z); lia).
  apply list_fmap_ext. intros _ j _. lia.
Qed.

Lemma noiseFrame_quads (data : list Z) (k n : nat) :
  length data = 4 * n →
  noiseFrame Math_random data k
  = (concat (imap (λ i (_ : Z), quad (noiseValues Math_random (k + 3 * i)))
               (upto (Z.of_nat (4 * n)) 4)),
     k + 3 * n).
Proof.
  intros Hlen. unfold noiseFrame. rewrite Hlen.
  assert (length (upto (Z.of_nat (4 * n)) 4) = n) as Hn
    by (rewrite upto_4, length_fmap, length_seqZ; lia).
  pose proof (Writers.pixel_fold (λ i : Z, i) (λ _ k, noiseValues Math_random k)
                (λ i st, noisePixel Math_random st i)
                (λ a d k, eq_refl)
                (upto (Z.of_nat (4 * n)) 4) data k) as H.
  rewrite Hn in H.
  rewrite drop_ge, app_nil_r in H by lia.
  apply H; [|lia]. rewrite list_fmap_id. apply upto_4.
Qed.

Lemma grid_order :
  (λ yx : Z * Z, (yx.1 * noiseRes + yx.2) * 4)%Z <$> grid
  = (λ j, 4 * j)%Z <$> seqZ 0 (Z.of_nat (length grid)).
Proof. by vm_compute. Qed.

Lemma grid_length : Z.of_nat (length grid) = 4096%Z.
Proof. by vm_compute. Qed.

Lemma grid_lookup (y x : Z) :
  (0 ≤ y < 64)%Z → (0 ≤ x < 64)%Z →
  grid !! Z.to_nat (y * 64 + x) = Some (y, x).
Proof.
  intros Hy Hx.
  assert (forallb (λ y, forallb (λ x,
            bool_decide (grid !! Z.to_nat (y * 64 + x) = Some (y, x)))
            (seqZ 0 64)) (seqZ 0 64) = true) as Hall by (by vm_compute).
  pose proof (Binary64Block.forallb_below 64 _ y Hall Hy) as Hrow.
  cbv beta in Hrow.
  pose proof (Binary64Block.forallb_below 64 _ x Hrow Hx) as Hcell.
  cbv beta in Hcell. by apply bool_decide_eq_true in Hcell.
Qed.

Lemma denoiseFrame_quads (step : Z) (targetData data : list Z) (k : nat) :
  Z.of_nat (length data) = 16384%Z →
  denoiseFrame Math_random step targetData data k
  = (concat (imap (λ i yx, quad
                             (denoiseValues Math_random targetData step yx (k + 3 * i)))
               grid),
     k + 3 * length grid).
Proof.
  intros Hlen. unfold denoiseFrame. cbv zeta.
  rewrite (Writers.foldl_nested
             (λ y x st, denoisePixel Math_random targetData
                          (blockSize (progress step))
                          (signalScale (progress step))
                          (noiseScale (progress step)) y x st)).
  fold grid.
  pose proof (Writers.pixel_fold
                (λ yx : Z * Z, (yx.1 * noiseRes + yx.2) * 4)%Z
                (denoiseValues Math_random targetData step)
                (λ yx st, denoisePixel Math_random targetData
                            (blockSize (progress step))
                            (signalScale (progress step))
                            (noiseScale (progress step)) yx.1 yx.2 st)
                (λ a d k, eq_refl) grid data k grid_order) as H.
  pose proof grid_length as Hg.
  rewrite drop_ge, app_nil_r in H by lia.
  apply H. lia.
Qed.

End FrameElements.

Opaque noiseFrame denoiseFrame.

Section FrameTheorems.
Context {Num : Type} {number : JSNumber Num}.
Variable Math_random : nat → Num.

Lemma denoiseFrame_lookup (step : Z) (targetData data : list Z)
    (k c : nat) (y x : Z) :
  Z.of_nat (length data) = 16384%Z → (0 ≤ y < 64)%Z → (0 ≤ x < 64)%Z →
  c < 4 →
  (denoiseFrame Math_random step targetData data k).1
    !! (4 * Z.to_nat (y * 64 + x) + c)
  = quad (denoiseValues Math_random targetData step (y, x)
                    (k + 3 * Z.to_nat (y * 64 + x))) !! c.
Proof.
  intros Hlen Hy Hx Hc.
  pose proof (f_equal fst
                (denoiseFrame_quads Math_random step targetData data k Hlen))
    as E.
  cbn [fst] in E. rewrite E. clear E.
  pose proof (grid_lookup y x Hy Hx) as Hl.
  pose proof (Writers.lookup_quads
                (denoiseValues Math_random targetData step)
                _ k _ c _ [] Hl Hc) as Hq.
  by rewrite app_nil_r in Hq.
Qed.

(** X9: a noise frame over a buffer of [n] pixels consumes three random
    values per pixel, stores each of them scaled by 255 and converted to
    a byte in the red, green and blue elements in the order drawn, and
    stores 255 in every alpha element; nothing of what the buffer held
    before remains. *)
Theorem noise_frame_elements (data : list Z) (k n p : nat) :
  length data = 4 * n → p < n →
  let f := noiseFrame Math_random data k in
  f.2 = k + 3 * n
  ∧ f.1 !! (4 * p)
    = Some (ToUint8Clamp (Math_random (k + 3 * p) * ofZ 255)%js)
  ∧ f.1 !! (4 * p + 1)
    = Some (ToUint8Clamp (Math_random (k + 3 * p + 1) * ofZ 255)%js)
  ∧ f.1 !! (4 * p + 2)
    = Some (ToUint8Clamp (Math_random (k + 3 * p + 2) * ofZ 255)%js)
  ∧ f.1 !! (4 * p + 3) = Some 255%Z
  ∧ ∀ data', length data' = 4 * n → noiseFrame Math_random data' k = f.
Proof.
  intros Hlen Hp f.
  pose proof (noiseFrame_quads Math_random data k n Hlen) as E.
  fold f in E. rewrite E. cbn [fst snd].
  assert (upto (Z.of_nat (4 * n)) 4 !! p = Some (4 * Z.of_nat p)%Z) as Hl.
  { rewrite upto_4, list_lookup_fmap, lookup_seqZ_lt by lia. done. }
  pose proof (λ c, Writers.lookup_quads (λ _ k, noiseValues Math_random k)
                     _ k p c _ [] Hl) as Hq.
  rewrite app_nil_r in Hq.
  split; [done|].
  split; [rewrite <- (Nat.add_0_r (4 * p)); rewrite Hq by lia; done|].
  split; [rewrite Hq by lia; done|].
  split; [rewrite Hq by lia; done|].
  split; [rewrite Hq by lia; done|].
  intros data' Hlen'.
  exact (noiseFrame_quads Math_random data' k n Hlen').
Qed.

(** X10: a denoise frame over a 64x64 buffer consumes [3 * 4096] random
    values; the pixel [(x, y)] receives the three channels computed from
    the target elements at the tile index and the next three random
    values, in row order, and an alpha of 255; nothing of what the
    buffer held before remains, so re-using the buffer from frame to
    frame is harmless. *)
Theorem denoise_frame_elements (step : Z) (targetData data : list Z)
    (k : nat) (y x : Z) :
  Z.of_nat (length data) = 16384%Z → (0 ≤ y < 64)%Z → (0 ≤ x < 64)%Z →
  let f := denoiseFrame Math_random step targetData data k in
  let p := Z.to_nat (y * 64 + x) in
  let v := denoiseValues Math_random targetData step (y, x) (k + 3 * p) in
  Z.of_nat f.2 = (Z.of_nat k + 12288)%Z
  ∧ f.1 !! (4 * p) = Some v.1.1.1
  ∧ f.1 !! (4 * p + 1) = Some v.1.1.2
  ∧ f.1 !! (4 * p + 2) = Some v.1.2
  ∧ f.1 !! (4 * p + 3) = Some 255%Z
  ∧ ∀ data', Z.of_nat (length data') = 16384%Z →
      denoiseFrame Math_random step targetData data' k = f.
Proof.
  intros Hlen Hy Hx f p v.
  pose proof (λ c, denoiseFrame_lookup step targetData data k c y x
                     Hlen Hy Hx) as Hq.
  fold f p v in Hq.
  split.
  { pose proof (f_equal snd
                  (denoiseFrame_quads Math_random step targetData data k
                     Hlen)) as E.
    cbn [snd] in E. fold f in E. rewrite E. pose proof grid_length. lia. }
  split; [rewrite <- (Nat.add_0_r (4 * p)); rewrite Hq by lia; done|].
  split; [rewrite Hq by lia; done|].
  split; [rewrite Hq by lia; done|].
  split; [rewrite Hq by lia; done|].
  intros data' Hlen'. unfold f.
  etrans; [exact (denoiseFrame_quads Math_random step targetData data' k
                    Hlen')|].
  symmetry.
  exact (denoiseFrame_quads Math_random step targetData data k Hlen).
Qed.

End FrameTheorems.

Section LastStep.
Local Open Scope R_scope.
Variable Math_random : nat → R.

Lemma progress_last : progress (Num := R) totalSteps = 1.
Proof. unfold progress, totalSteps. cbn. lra. Qed.

Lemma rem_one (z : Z) : (0 ≤ z)%Z → Ideal.rem (IZR z) 1 = 0.
Proof.
  intros Hz. unfold Ideal.rem, Ideal.trunc. rewrite Rdiv_1_r.
  destruct (Rle_dec 0 (IZR z)) as [_|Hn]; [|destruct Hn; by apply IZR_le].
  rewrite ZfloorZ. lra.
Qed.

Lemma tileIndex_one (y x : Z) :
  (0 ≤ y)%Z → (0 ≤ x)%Z →
  tileIndex (Num := R) 1 y x = IZR ((y * 64 + x) * 4).
Proof.
  intros Hy Hx. unfold tileIndex, tileY, tileX, noiseRes. cbn.
  rewrite !rem_one by done. rewrite mult_IZR, plus_IZR, mult_IZR. lra.
Qed.

Lemma read_R (a : list Z) (i : Z) :
  (0 ≤ i)%Z → read (Num := R) a (IZR i) = a !! Z.to_nat i.
Proof.
  intros Hi. unfold read. cbn. unfold Ideal.to_index. rewrite ZfloorZ.
  destruct (Req_dec_T (IZR i) (IZR i)) as [_|Hn]; [|done].
  destruct (Rle_dec 0 (IZR i)) as [_|Hn]; [done|].
  destruct Hn. by apply IZR_le.
Qed.

Lemma to_uint8_clamp_byte (v : Z) :
  is_byte v → Ideal.to_uint8_clamp (IZR v) = v.
Proof.
  intros [H0 H1]. unfold Ideal.to_uint8_clamp.
  destruct (Rle_dec (IZR v) 0) as [Hle|_].
  { apply le_IZR in Hle. lia. }
  destruct (Rle_dec 255 (IZR v)) as [Hle|_].
  { apply le_IZR in Hle. lia. }
  cbv zeta. rewrite ZfloorZ.
  destruct (Rlt_dec (IZR v + / 2) (IZR v)) as [Hlt|_]; [lra|].
  destruct (Rlt_dec (IZR v) (IZR v + / 2)) as [_|Hn]; [done|lra].
Qed.

(** With the signal at full scale and no noise a channel is the target
    value. *)
Lemma channel_last (v : Z) (rnd : R) :
  is_byte v → channel (Num := R) (Some v) 1 0 rnd = v.
Proof.
  intros Hv. unfold channel. cbn.
  replace (128 + (IZR v - 128) * 1
           + (rnd - Ideal.of_decimal 5 1) * 510 * 0) with (IZR v) by lra.
  destruct Hv as [H0 H1]. apply IZR_le in H0.
  assert (IZR v <= 255) as H255 by (apply IZR_le; lia).
  replace (Rmax 0 (Rmin 255 (IZR v))) with (IZR v)
    by (unfold Rmax, Rmin; repeat destruct (Rle_dec _ _); lra).
  apply to_uint8_clamp_byte. split; [by apply le_IZR|]. lia.
Qed.

(** X11: over the reals the frame of step 90 already shows the target:
    with a target of 64x64 bytes its red, green and blue elements are
    those of the target, whatever the random values, and its alpha
    elements are 255; the verbatim copy that follows can change the
    alpha elements only. *)
Theorem last_step_shows_target (targetData data : list Z) (k : nat)
    (y x : Z) :
  Z.of_nat (length targetData) = 16384%Z →
  Z.of_nat (length data) = 16384%Z → Forall is_byte targetData →
  (0 ≤ y < 64)%Z → (0 ≤ x < 64)%Z →
  let f := (denoiseFrame Math_random totalSteps targetData data k).1 in
  let i := (4 * Z.to_nat (y * 64 + x))%nat in
  f !! i = targetData !! i
  ∧ f !! (i + 1)%nat = targetData !! (i + 1)%nat
  ∧ f !! (i + 2)%nat = targetData !! (i + 2)%nat
  ∧ f !! (i + 3)%nat = Some 255%Z.
Proof.
  intros Ht Hd Hb Hy Hx f i.
  pose proof (λ c, denoiseFrame_lookup Math_random totalSteps targetData
                     data k c y x Hd Hy Hx) as Hq.
  fold f i in Hq.
  assert (∀ c : nat, (c < 3)%nat →
            quad
              (denoiseValues Math_random targetData totalSteps (y, x)
                 (k + 3 * Z.to_nat (y * 64 + x))) !! c
            = targetData !! (i + c)%nat) as Hv.
  { intros c Hc. unfold denoiseValues. cbv zeta. cbn [fst snd].
    rewrite progress_last.
    rewrite (proj2 (IdealSchedule.blockSize_one 1 ltac:(lra))) by lra.
    rewrite IdealSchedule.noiseScale_1.
    replace (signalScale (Num := R) 1) with 1.
    2:{ rewrite IdealSchedule.signalScale_R, IdealSchedule.pow_pos by lra.
        by rewrite IdealSchedule.Rpower_one. }
    rewrite tileIndex_one by lia.
    change (ofZ (Num := R) 1) with (IZR 1).
    change (ofZ (Num := R) 2) with (IZR 2).
    change (@js_add R R_JSNumber) with Rplus.
    rewrite <- !plus_IZR. rewrite !read_R by lia.
    assert (∀ j : nat, (Z.of_nat j < 16384)%Z →
              ∃ v, targetData !! j = Some v ∧ is_byte v) as Hlook.
    { intros j Hj.
      destruct (lookup_lt_is_Some_2 targetData j) as [v Hv]; [lia|].
      exists v. split; [done|].
      rewrite Forall_lookup in Hb. by apply (Hb j). }
    replace (Z.to_nat ((y * 64 + x) * 4)) with i by (unfold i; lia).
    replace (Z.to_nat ((y * 64 + x) * 4 + 1)) with (i + 1)%nat
      by (unfold i; lia).
    replace (Z.to_nat ((y * 64 + x) * 4 + 2)) with (i + 2)%nat
      by (unfold i; lia).
    assert (Z.of_nat i + 3 < 16384)%Z as Hi by (unfold i; lia).
    clearbody i.
    destruct (Hlook i ltac:(lia)) as (v0 & Hv0 & Hb0).
    destruct (Hlook (i + 1)%nat ltac:(lia)) as (v1 & Hv1 & Hb1).
    destruct (Hlook (i + 2)%nat ltac:(lia)) as (v2 & Hv2 & Hb2).
    rewrite Hv0, Hv1, Hv2, !channel_last by done.
    destruct c as [|[|[|c]]]; cbn [quad lookup list_lookup fst snd];
      rewrite ?Nat.add_0_r; try done. lia. }
  split; [rewrite <- (Nat.add_0_r i) at 1; rewrite Hq, Hv by lia;
          by rewrite Nat.add_0_r|].
  split; [rewrite Hq, Hv by lia; done|].
  split; [rewrite Hq, Hv by lia; done|].
  rewrite Hq by lia. done.
Qed.

End LastStep.

(** ** How far a frame is from the target *)

Section ChannelError.
Local Open Scope R_scope.

Lemma to_uint8_clamp_error (x : R) :
  0 <= x <= 255 → Rabs (IZR (Ideal.to_uint8_clamp x) - x) <= / 2.
Proof.
  intros [H0 H255]. unfold Ideal.to_uint8_clamp.
  destruct (Rle_dec x 0) as [Hle|_].
  { replace x with 0 by lra. rewrite Rminus_0_r, Rabs_R0. lra. }
  destruct (Rle_dec 255 x) as [Hle|_].
  { replace x with 255 by lra. rewrite Rminus_diag, Rabs_R0. lra. }
  cbv zeta. pose proof (Zfloor_bound x) as [Hlo Hhi].
  destruct (Rlt_dec (IZR (Zfloor x) + / 2) x) as [Hup|Hnup].
  { rewrite plus_IZR. apply Rabs_le. lra. }
  destruct (Rlt_dec x (IZR (Zfloor x) + / 2)) as [Hdn|Hndn].
  { apply Rabs_le. lra. }
  destruct (Z.even (Zfloor x)); [|rewrite plus_IZR]; apply Rabs_le; lra.
Qed.

Lemma channel_error (t : Z) (ss ns rnd : R) :
  is_byte t → 0 <= ss <= 1 → 0 <= ns → 0 <= rnd < 1 →
  Rabs (IZR (channel (Some t) ss ns rnd) - IZR t)
  <= 128 * (1 - ss) + 255 * ns + / 2.
Proof.
  intros [Ht0 Ht1] Hss Hns Hrnd. unfold channel. cbn.
  apply IZR_le in Ht0.
  assert (IZR t <= 255) as Ht255 by (apply IZR_le; lia).
  replace (Ideal.of_decimal 5 1) with (5 / 10) by reflexivity.
  set (v := 128 + (IZR t - 128) * ss + (rnd - 5 / 10) * 510 * ns).
  set (c := Rmax 0 (Rmin 255 v)).
  assert (0 <= c <= 255) as Hc
    by (unfold c, Rmax, Rmin; repeat destruct (Rle_dec _ _); lra).
  pose proof (to_uint8_clamp_error c Hc) as Hround.
  assert (Rabs (v - IZR t) <= 128 * (1 - ss) + 255 * ns) as Hv.
  { replace (v - IZR t)
      with ((128 - IZR t) * (1 - ss) + (rnd - 5 / 10) * 510 * ns)
      by (unfold v; lra).
    apply Rabs_le.
    assert (-128 * (1 - ss) <= (128 - IZR t) * (1 - ss) <= 128 * (1 - ss))
      by (split; nra).
    assert (-255 * ns <= (rnd - 5 / 10) * 510 * ns <= 255 * ns)
      by (split; nra).
    lra. }
  assert (Rabs (c - IZR t) <= Rabs (v - IZR t)) as Hclamp.
  { unfold c, Rmax, Rmin. repeat destruct (Rle_dec _ _);
      unfold Rabs; repeat destruct (Rcase_abs _); lra. }
  replace (IZR (Ideal.to_uint8_clamp c) - IZR t)
    with ((IZR (Ideal.to_uint8_clamp c) - c) + (c - IZR t)) by lra.
  eapply Rle_trans; [apply Rabs_triang|]. lra.
Qed.

(** X12: over the reals, with random values in [[0, 1)], a channel
    rendered at step [s] from a target byte lies within
    [128 * (1 - signalScale) + 255 * noiseScale + 1/2] of that byte; the
    bound decreases strictly from step to step and is [1/2] at step
    90. *)
Theorem denoise_channel_error_bound (t s1 s2 : Z) (rnd : R) :
  is_byte t → (1 ≤ s1)%Z → (s1 < s2)%Z → (s2 ≤ 90)%Z → 0 <= rnd < 1 →
  Rabs (IZR (channel (Some t) (signalScale (progress s1))
               (noiseScale (progress s1)) rnd) - IZR t)
  <= channelBound s1
  ∧ Rabs (IZR (channel (Some t) (signalScale (progress s2))
                 (noiseScale (progress s2)) rnd) - IZR t)
    <= channelBound s2
  ∧ channelBound s2 < channelBound s1
  ∧ channelBound 90 = / 2.
Proof.
  intros Ht H1 H12 H2 Hrnd.
  pose proof (IdealSchedule.progress_unit s1 ltac:(unfold totalSteps; lia))
    as Hp1.
  pose proof (IdealSchedule.progress_unit s2 ltac:(unfold totalSteps; lia))
    as Hp2.
  pose proof (IdealSchedule.progress_lt s1 s2 H12) as Hlt.
  split; [|split; [|split]].
  - apply channel_error; [done| | |done].
    + apply IdealSchedule.signalScale_unit. lra.
    + apply IdealSchedule.noiseScale_unit. lra.
  - apply channel_error; [done| | |done].
    + apply IdealSchedule.signalScale_unit. lra.
    + apply IdealSchedule.noiseScale_unit. lra.
  - unfold channelBound.
    assert (noiseScale (progress s2) < noiseScale (progress s1))
      by (apply IdealSchedule.noiseScale_decreasing; lra).
    assert (signalScale (progress s1) < signalScale (progress s2))
      by (apply IdealSchedule.signalScale_increasing; lra).
    lra.
  - unfold channelBound.
    replace (progress (Num := R) 90) with 1
      by (unfold progress, totalSteps; cbn; lra).
    rewrite IdealSchedule.noiseScale_1.
    replace (signalScale (Num := R) 1) with 1.
    2:{ rewrite IdealSchedule.signalScale_R, IdealSchedule.pow_pos by lra.
        by rewrite IdealSchedule.Rpower_one. }
    lra.
Qed.

End ChannelError.

(** * The stipple: dots and random values *)

Transparent stipple.

Lemma length_pairs {B C : Type} (ys : list B) (xs : list C) :
  length (y ← ys; pair y <$> xs) = length ys * length xs.
Proof.
  induction ys as [|y ys IH]; [done|].
  rewrite bind_cons, length_app, length_fmap, IH. cbn. lia.
Qed.

Section StippleBudget.
Context {Num : Type} {number : JSNumber Num}.
Variable Math_random : nat → Num.

(** One sampled pixel: one call of [Math.random] and no dot, or three
    calls and one dot of the fixed size. *)
Lemma stipplePixel_budget (size : Z) (data : list Z) (y x : Z)
    (st : list (Rect Num) * nat) :
  let r := stipplePixel Math_random size data y x st in
  (r = (st.1, st.2 + 1))
  ∨ ∃ dot, r = (st.1 ++ [dot], st.2 + 3)
           ∧ rectW dot = dotSize ∧ rectH dot = dotSize.
Proof.
  unfold stipplePixel.
  destruct (load data _) as [r|]; [|by left].
  destruct (load data _) as [g|]; [|by left].
  destruct (load data _) as [b|]; [|by left].
  destruct (js_lt _ _); [|by left].
  right. by eexists.
Qed.

Lemma stipple_pairs_budget (size : Z) (data : list Z)
    (ps : list (Z * Z)) (st : list (Rect Num) * nat) :
  let r := foldl (λ st p, stipplePixel Math_random size data p.1 p.2 st)
             st ps in
  length r.1 ≤ length st.1 + length ps
  ∧ r.2 + 2 * length st.1 = st.2 + length ps + 2 * length r.1
  ∧ ∀ dot, dot ∈ r.1 →
      dot ∈ st.1 ∨ (rectW dot = dotSize ∧ rectH dot = dotSize).
Proof.
  revert st. induction ps as [|[y x] ps IH]; intros st.
  - cbn. split; [lia|]. split; [lia|]. intros dot Hd. by left.
  - cbn [foldl fst snd].
    destruct (stipplePixel_budget size data y x st)
      as [Hr|(dot0 & Hr & Hw & Hh)];
      cbv zeta in Hr; rewrite Hr;
      destruct (IH (stipplePixel Math_random size data y x st))
        as (Hlen & Hk & Hdots); cbv zeta in Hlen, Hk, Hdots;
      rewrite Hr in Hlen, Hk, Hdots; cbn [fst snd length] in *.
    + split; [lia|]. split; [lia|]. exact Hdots.
    + rewrite length_app in Hlen, Hk. cbn [length] in Hlen, Hk.
      split; [lia|]. split; [lia|].
      intros dot Hd. destruct (Hdots dot Hd) as [Hin|?]; [|by right].
      apply elem_of_app in Hin as [?|Hin]; [by left|].
      apply list_elem_of_singleton in Hin as ->. by right.
Qed.

(** X13: stippling a frame of side [size] samples [n * n] pixels, where
    [n] is [size / 3] rounded up; it draws at most one dot per sampled
    pixel, every dot with the fixed size 1.2 x 1.2, and calls
    [Math.random] once per sampled pixel and twice more per dot drawn. *)
Theorem stipple_random_budget (size : Z) (data : list Z) (k : nat)
    (dot : Rect Num) :
  let r := stipple Math_random size data k in
  let n := length (upto size stippleStep) in
  n = Z.to_nat ((size + 2) `div` 3)
  ∧ length r.1 ≤ n * n
  ∧ r.2 = k + n * n + 2 * length r.1
  ∧ (dot ∈ r.1 → rectW dot = dotSize ∧ rectH dot = dotSize).
Proof.
  intros r n. split.
  { unfold n, upto, stippleStep. rewrite length_fmap, length_seqZ.
    f_equal. f_equal. lia. }
  unfold r, stipple.
  rewrite (Writers.foldl_nested (λ y x st, stipplePixel Math_random size data y x st)).
  destruct (stipple_pairs_budget size data
              (y ← upto size stippleStep; pair y <$> upto size stippleStep)
              ([], k)) as (Hlen & Hk & Hdots).
  cbv zeta in Hlen, Hk, Hdots. rewrite length_pairs in Hlen, Hk.
  fold n in Hlen, Hk. cbn [fst snd length] in Hlen, Hk.
  split; [lia|]. split; [lia|].
  intros Hd. destruct (Hdots dot Hd) as [Hin|?]; [|done].
  by apply elem_of_nil in Hin.
Qed.

End StippleBudget.

Section White.
Context {Num : Type} {number : JSNumber Num}.
Variable Math_random : nat → Num.

Lemma stipple_pairs_white (size : Z) (data : list Z) (ps : list (Z * Z))
    (st : list (Rect Num) * nat) :
  (∀ n, (Math_random n <? probability (brightness 255 255 255))%js = true) →
  (∀ y x, (y, x) ∈ ps →
     load data ((y * size + x) * 4) = Some 255%Z
     ∧ load data ((y * size + x) * 4 + 1) = Some 255%Z
     ∧ load data ((y * size + x) * 4 + 2) = Some 255%Z) →
  length (foldl (λ st p, stipplePixel Math_random size data p.1 p.2 st)
            st ps).1
  = length st.1 + length ps.
Proof.
  intros Hr. revert st. induction ps as [|[y x] ps IH]; intros st Hw.
  - cbn. lia.
  - cbn [foldl fst snd length]. rewrite IH.
    + unfold stipplePixel.
      destruct (Hw y x ltac:(left)) as (-> & -> & ->). rewrite Hr.
      cbn [fst]. rewrite length_app. cbn [length]. lia.
    + intros y' x' Hin. apply Hw. by right.
Qed.

End White.

Section WhiteIdeal.
Local Open Scope R_scope.
Variable Math_random : nat → R.

Lemma brightness_white : brightness (Num := R) 255 255 255 = 1.
Proof.
  change (brightness (Num := R) 255 255 255)
    with ((299 / 1000 * 255 + 587 / 1000 * 255 + 114 / 1000 * 255) / 255).
  lra.
Qed.

(** X14: over the reals, with random values in [[0, 1)], a frame whose
    sampled pixels are all white receives a dot at every sampled pixel:
    [n * n] dots for [n] samples per axis. *)
Theorem stipple_white_draws_every_dot (size : Z) (data : list Z) (k : nat) :
  (∀ n, 0 <= Math_random n < 1) → allWhite size data →
  let n := length (upto size stippleStep) in
  length (stipple Math_random size data k).1 = (n * n)%nat.
Proof.
  intros Hu Hw n. unfold stipple.
  rewrite (Writers.foldl_nested
             (λ y x st, stipplePixel Math_random size data y x st)).
  rewrite stipple_pairs_white.
  - cbn [fst length]. by rewrite length_pairs.
  - intros j. rewrite brightness_white, StippleFacts.probability_1. cbn.
    unfold Ideal.lt. destruct (Rlt_dec _ _) as [|Hn]; [done|].
    destruct Hn. apply Hu.
  - intros y x Hin. apply list_elem_of_bind in Hin as (y' & Hx & Hy).
    apply list_elem_of_fmap in Hx as (x' & [= -> ->] & Hx). by apply Hw.
Qed.

End WhiteIdeal.

Opaque stipple.

(** * The block size in closed form *)

Section ClosedForm.

Lemma blockExponentR_progress (s : Z) :
  blockExponentR (progress s) = blockExponent s.
Proof.
  unfold blockExponentR, blockExponent, progress, totalSteps. cbn.
  apply Zfloor_eq.
  pose proof (Z.div_mod (90 - s) 15 ltac:(lia)) as Hdm.
  pose proof (Z.mod_pos_bound (90 - s) 15 ltac:(lia)) as Hm.
  assert (15 * ((90 - s) `div` 15) ≤ 90 - s)%Z as Hlo by lia.
  assert (90 - s < 15 * ((90 - s) `div` 15) + 15)%Z as Hhi by lia.
  apply IZR_le in Hlo. apply IZR_lt in Hhi.
  rewrite plus_IZR, mult_IZR in Hhi. rewrite mult_IZR in Hlo.
  rewrite minus_IZR in Hlo, Hhi. lra.
Qed.

Lemma blockSize_progress_R (s : Z) :
  (1 ≤ s ≤ 90)%Z →
  blockSize (Num := R) (progress s) = IZR (2 ^ blockExponent s).
Proof.
  intros Hs. rewrite IdealSchedule.blockSize_R, blockExponentR_progress.
  assert (0 ≤ blockExponent s ≤ 5)%Z as Hq.
  { unfold blockExponent, totalSteps. split.
    - apply Z.div_pos; lia.
    - enough ((90 - s) `div` 15 < 6)%Z by lia.
      apply Z.div_lt_upper_bound; lia. }
  assert (∀ n : nat, (n ≤ 5)%nat →
            Rmax 1 (Rmin 32 (Rpower 2 (IZR (Z.of_nat n))))
            = IZR (2 ^ Z.of_nat n)) as Hn.
  { intros n Hn. rewrite IdealSchedule.Rpower_two_nat, <- pow_IZR.
    do 6 (destruct n as [|n];
          [cbn; unfold Rmax, Rmin; repeat destruct (Rle_dec _ _); lra|]).
    lia. }
  rewrite <- (Z2Nat.id (blockExponent s)) by lia. apply Hn. lia.
Qed.

Lemma stepBlock_closed (s : Z) :
  (1 ≤ s ≤ 90)%Z →
  stepBlock s = if (s =? 75)%Z then 1%Z else (2 ^ blockExponent s)%Z.
Proof.
  intros Hs.
  pose (f := λ s, (stepBlock s
                   =? if (s =? 75)%Z then 1 else 2 ^ blockExponent s)%Z).
  assert (forallb f steps = true) as Hall by (vm_compute; reflexivity).
  apply Z.eqb_eq. exact (Binary64Block.forallb_steps f s Hall Hs).
Qed.

(** X15: at step [s] of the 90 the block size is [2 ^ ((90 - s) / 15)]
    over the reals; in binary64 it is the same power of two at every
    step but 75, where the rounding of [(1 - 75 / 90) * 6] below [1]
    gives [1] instead of [2]. *)
Theorem block_size_closed_form (approx : float → float → float) (s : Z) :
  exact_powers_of_two approx → (1 ≤ s ≤ 90)%Z →
  blockSize (Num := R) (progress s) = IZR (2 ^ blockExponent s)
  ∧ blockSize (number := float_JSNumber approx)
      (progress (number := float_JSNumber approx) s)
    = Binary64.of_Z (if (s =? 75)%Z then 1 else 2 ^ blockExponent s).
Proof.
  intros Ha Hs. split; [by apply blockSize_progress_R|].
  rewrite (Binary64Block.blockSize_step approx Ha s Hs).
  by rewrite stepBlock_closed.
Qed.

End ClosedForm.

(** * The concept *)

Module Trimmed.

Lemma trimStart_split (s : jsstring) :
  ∃ pre, s = pre ++ trimStart s ∧ blank pre.
Proof.
  induction s as [|c s (pre & Hs & Hb)].
  { exists []. split; [done|]. constructor. }
  cbn [trimStart]. destruct (isWhiteSpace c) eqn:Hc.
  - exists (c :: pre). split; [by rewrite Hs at 1|]. by constructor.
  - exists []. split; [done|]. constructor.
Qed.

Lemma trimStart_fixed (s : jsstring) :
  (∀ c, head s = Some c → isWhiteSpace c = false) → trimStart s = s.
Proof.
  destruct s as [|c s]; [done|]. intros H. cbn [trimStart].
  by rewrite (H c eq_refl).
Qed.

Lemma head_trimStart (s : jsstring) (c : N) :
  head (trimStart s) = Some c → isWhiteSpace c = false.
Proof.
  destruct (trimStart s) as [|a s'] eqn:Hs; [done|]. intros [= <-].
  by apply (Strings.trimStart_head s s').
Qed.

Lemma trim_split (s : jsstring) :
  ∃ pre post, s = pre ++ trim s ++ post ∧ blank pre ∧ blank post.
Proof.
  destruct (trimStart_split s) as (pre & Hs & Hpre).
  destruct (trimStart_split (reverse (trimStart s))) as (post & Hr & Hpost).
  exists pre, (reverse post). split; [|split; [done|]].
  - rewrite Hs at 1. f_equal. unfold trim.
    rewrite <- reverse_app, <- Hr. by rewrite reverse_involutive.
  - unfold blank. by rewrite Forall_reverse.
Qed.

Lemma trim_tidy (s : jsstring) : tidy (trim s).
Proof.
  split; intros c Hc.
  - destruct (trimStart_split (reverse (trimStart s))) as (post & Hr & _).
    apply (f_equal reverse) in Hr.
    rewrite reverse_involutive, reverse_app in Hr. fold (trim s) in Hr.
    apply (head_trimStart s). rewrite Hr.
    destruct (trim s) as [|a t]; [done|]. exact Hc.
  - unfold trim in Hc. rewrite last_reverse in Hc.
    by apply (head_trimStart (reverse (trimStart s))).
Qed.

Lemma trim_fixed (s : jsstring) : tidy s → trim s = s.
Proof.
  intros [Hh Hl]. unfold trim. rewrite (trimStart_fixed s Hh).
  rewrite trimStart_fixed; [apply reverse_involutive|].
  intros c Hc. apply Hl. by rewrite <- head_reverse.
Qed.

End Trimmed.

(** X16: the concept is never empty and never starts or ends with white
    space, so trimming it again changes nothing; it is the fallback, or
    the text with white space only removed at both ends. *)
Theorem concept_is_tidy (text : option jsstring) :
  conceptOf text ≠ []
  ∧ tidy (conceptOf text)
  ∧ trim (conceptOf text) = conceptOf text
  ∧ (conceptOf text = fallbackConcept
     ∨ ∃ s pre post, text = Some s ∧ s = pre ++ conceptOf text ++ post
                     ∧ blank pre ∧ blank post).
Proof.
  assert (tidy fallbackConcept) as Hf.
  { split; intros c [= <-]; reflexivity. }
  assert (tidy (conceptOf text)) as Ht.
  { unfold conceptOf, or_else. destruct text as [s|]; cbn [fmap option_fmap option_map]; [|done].
    pose proof (Trimmed.trim_tidy s) as Hs.
    by destruct (trim s) as [|c t]. }
  split.
  { pose proof (conceptOf_truthy text) as H. by destruct (conceptOf text). }
  split; [done|]. split; [by apply Trimmed.trim_fixed|].
  unfold conceptOf, or_else. destruct text as [s|]; cbn [fmap option_fmap option_map]; [|by left].
  destruct (Trimmed.trim_split s) as (pre & post & Hs & Hpre & Hpost).
  destruct (trim s) as [|c t] eqn:Htrim; [by left|].
  right. by exists s, pre, post.
Qed.

(** * The square cut from the video frame *)

Section Crop.
Local Open Scope R_scope.

Lemma Rmin_IZR (a b : Z) : Rmin (IZR a) (IZR b) = IZR (a `min` b).
Proof.
  destruct (Z.le_ge_cases a b) as [H|H].
  - rewrite Z.min_l by done. apply Rmin_left. by apply IZR_le.
  - rewrite Z.min_r by done. apply Rmin_right. by apply IZR_le.
Qed.

(** X17: over the reals the square cut from the video frame is the
    largest centred square: its side is the smaller dimension, it lies
    inside the frame, the margins on both sides are equal on each axis
    and there is no margin on the shorter axis. *)
Theorem crop_is_centred (vidW vidH : Z) :
  let size := cropSize (Num := R) vidW vidH in
  let sx := startX (Num := R) vidW vidH in
  let sy := startY (Num := R) vidW vidH in
  size = IZR (vidW `min` vidH)
  ∧ 0 <= sx ∧ sx + size <= IZR vidW ∧ 0 <= sy ∧ sy + size <= IZR vidH
  ∧ sx = IZR vidW - (sx + size) ∧ sy = IZR vidH - (sy + size)
  ∧ (sx = 0 ∨ sy = 0).
Proof.
  intros size sx sy.
  assert (size = Rmin (IZR vidW) (IZR vidH)) as Hs by reflexivity.
  assert (sx = (IZR vidW - size) / 2) as Hx by reflexivity.
  assert (sy = (IZR vidH - size) / 2) as Hy by reflexivity.
  clearbody size sx sy.
  split; [by rewrite Hs, Rmin_IZR|].
  assert (size <= IZR vidW) by (rewrite Hs; apply Rmin_l).
  assert (size <= IZR vidH) by (rewrite Hs; apply Rmin_r).
  assert (size = IZR vidW ∨ size = IZR vidH) as Hc.
  { rewrite Hs. unfold Rmin. destruct (Rle_dec _ _); [by left|by right]. }
  do 6 (split; [lra|]). destruct Hc; [left|right]; lra.
Qed.

End Crop.

(** ** The further properties on sample inputs *)

Lemma caption_follows_stage_witness :
  caption (ui (run sampleRandom [LoadedMetadata; sampleClick]
                 (mounted sampleRandom)))
  = [str "Extracting semantic features..."].
Proof.
  assert (call (run sampleRandom [LoadedMetadata; sampleClick]
                  (mounted sampleRandom)) = AwaitVision) as Hc
    by (rewrite call_run_mounted; reflexivity).
  pose proof (caption_follows_stage sampleRandom _
                (reachable_run_mounted sampleRandom
                   [LoadedMetadata; sampleClick])) as H.
  rewrite Hc in H. exact H.
Defined.

Lemma button_label_follows_call_witness :
  let w := run sampleRandom [LoadedMetadata; sampleClick]
             (mounted sampleRandom) in
  (buttonLabel (ui w) = str "Capture" ↔ buttonEnabled (ui w) = true)
  ∧ (buttonLabel (ui w) = str "Processing..."
     ↔ isCameraReady (ui w) = true ∧ call w ≠ NoCall).
Proof.
  exact (button_label_follows_call sampleRandom _
           (reachable_run_mounted sampleRandom
              [LoadedMetadata; sampleClick])).
Defined.

Lemma left_pane_changes_only_on_click_witness :
  leftPane (step sampleRandom (ImageLoad sampleTarget) decodingWorld)
  = leftPane decodingWorld.
Proof.
  assert (∀ vidW vidH frame, ImageLoad sampleTarget ≠ Click vidW vidH frame)
    as Hne by done.
  exact (left_pane_changes_only_on_click sampleRandom
           (ImageLoad sampleTarget) decodingWorld Hne).
Defined.

Lemma nothing_before_camera_ready_witness :
  run sampleRandom [sampleClick; AnimationFrame] (mounted sampleRandom)
  = mounted sampleRandom.
Proof.
  assert (LoadedMetadata ∉ [sampleClick; AnimationFrame]) as Hnot.
  { intros [H|[H|H%elem_of_nil]%elem_of_cons]%elem_of_cons; done. }
  exact (nothing_before_camera_ready sampleRandom
           [sampleClick; AnimationFrame] Hnot).
Defined.

Lemma patiently_awaiting_image :
  reachablePatiently sampleRandom
    (run sampleRandom
       [LoadedMetadata; sampleClick;
        VisionSettled (Resolved (Some (str "cat")))]
       (mounted sampleRandom)).
Proof.
  apply reachablePatiently_run; [constructor|].
  cbn [patientTrace patient]. split; [exact I|]. split; [reflexivity|].
  split; [exact I|exact I].
Qed.

Lemma one_loop_unless_click_during_load_witness :
  noiseActive
    (run sampleRandom
       [LoadedMetadata; sampleClick;
        VisionSettled (Resolved (Some (str "cat")))]
       (mounted sampleRandom)) = true.
Proof.
  assert (call (run sampleRandom
                  [LoadedMetadata; sampleClick;
                   VisionSettled (Resolved (Some (str "cat")))]
                  (mounted sampleRandom)) ≠ NoCall) as Hc
    by (rewrite call_run_mounted; discriminate).
  destruct (one_loop_unless_click_during_load sampleRandom _
              patiently_awaiting_image) as (_ & _ & Hn & _).
  exact (Hn Hc).
Defined.

Lemma generated_image_is_revealed_witness :
  head (frames
          (run sampleRandom
             (ImageSettled (Resolved (Some (str "QUJD")))
              :: ImageLoad sampleTarget :: replicate 89 AnimationFrame)
             (run sampleRandom
                [LoadedMetadata; sampleClick;
                 VisionSettled (Resolved (Some (str "cat")))]
                (mounted sampleRandom))))
  = Some sampleTarget.
Proof.
  assert (call (run sampleRandom
                  [LoadedMetadata; sampleClick;
                   VisionSettled (Resolved (Some (str "cat")))]
                  (mounted sampleRandom))
          = AwaitImage (str "cat" ++ styleSuffix)) as Hc
    by (rewrite call_run_mounted; reflexivity).
  assert (Z.of_nat (length sampleTarget) = 16384%Z) as Hlen
    by (unfold sampleTarget; rewrite length_replicate; lia).
  assert (Forall is_byte sampleTarget) as Hb
    by (apply Forall_replicate; unfold is_byte; lia).
  destruct (generated_image_is_revealed sampleRandom _
              (str "cat" ++ styleSuffix) 81%N (str "UJD") sampleTarget
              patiently_awaiting_image Hc Hlen Hb) as [H _].
  exact H.
Defined.

Lemma stages_never_go_back_witness :
  placeholders
    (ui (run sampleRandom [AnimationFrame; sampleClick] decodingWorld)) = [].
Proof.
  destruct (stages_never_go_back sampleRandom
              [AnimationFrame; sampleClick] decodingWorld) as [_ H].
  destruct (H eq_refl) as [Hp _]. exact Hp.
Defined.

Lemma right_pane_follows_stage_witness :
  ∃ d, head (surface
               (run sampleRandom
                  [LoadedMetadata; sampleClick;
                   VisionSettled (Resolved (Some (str "cat")))]
                  (mounted sampleRandom))) = Some (Frame d).
Proof.
  assert (call (run sampleRandom
                  [LoadedMetadata; sampleClick;
                   VisionSettled (Resolved (Some (str "cat")))]
                  (mounted sampleRandom)) ≠ NoCall) as Hc
    by (rewrite call_run_mounted; discriminate).
  destruct (right_pane_follows_stage sampleRandom _
              patiently_awaiting_image) as (_ & Hf & _).
  exact (Hf (or_introl Hc)).
Defined.

Lemma noise_frame_elements_witness :
  (noiseFrame sampleRandom [0; 0; 0; 0]%Z 0).1 !! 3 = Some 255%Z.
Proof.
  destruct (noise_frame_elements sampleRandom [0; 0; 0; 0]%Z 0 1 0
              eq_refl ltac:(lia)) as (_ & _ & _ & _ & H & _).
  exact H.
Defined.

Lemma denoise_frame_elements_witness :
  (denoiseFrame sampleRandom 1 sampleTarget
     (replicate (Z.to_nat 16384) 0%Z) 0).1 !! 3 = Some 255%Z.
Proof.
  assert (Z.of_nat (length (replicate (Z.to_nat 16384) 0%Z)) = 16384%Z)
    as Hlen by (rewrite length_replicate; lia).
  destruct (denoise_frame_elements sampleRandom 1 sampleTarget
              (replicate (Z.to_nat 16384) 0%Z) 0 0 0 Hlen
              ltac:(lia) ltac:(lia)) as (_ & _ & _ & _ & H & _).
  exact H.
Defined.

Lemma last_step_shows_target_witness :
  (denoiseFrame sampleRandom totalSteps sampleTarget
     (replicate (Z.to_nat 16384) 0%Z) 0).1 !! 0 = sampleTarget !! 0.
Proof.
  assert (Z.of_nat (length (replicate (Z.to_nat 16384) 0%Z)) = 16384%Z)
    as Hlen by (rewrite length_replicate; lia).
  assert (Z.of_nat (length sampleTarget) = 16384%Z) as Ht
    by (unfold sampleTarget; rewrite length_replicate; lia).
  assert (Forall is_byte sampleTarget) as Hb
    by (apply Forall_replicate; unfold is_byte; lia).
  destruct (last_step_shows_target sampleRandom sampleTarget
              (replicate (Z.to_nat 16384) 0%Z) 0 0 0 Ht Hlen Hb
              ltac:(lia) ltac:(lia)) as (H & _).
  exact H.
Defined.

Lemma block_size_closed_form_witness :
  blockSize (number := float_JSNumber powerByMultiplication)
    (progress (number := float_JSNumber powerByMultiplication) 75)
  = 1%float
  ∧ blockSize (Num := R) (progress 75) = 2%R.
Proof.
  destruct (block_size_closed_form powerByMultiplication 75
              powerByMultiplication_exact ltac:(lia)) as [Hr Hf].
  split; [exact Hf|exact Hr].
Defined.

Lemma denoise_channel_error_bound_witness :
  (channelBound 2 < channelBound 1)%R.
Proof.
  destruct (denoise_channel_error_bound 7 1 2 0%R) as (_ & _ & H & _);
    [unfold is_byte; lia|lia|lia|lia|lra|].
  exact H.
Defined.

Lemma stipple_white_draws_every_dot_witness :
  length (stipple sampleRandom 1 [255; 255; 255; 255]%Z 0).1 = 1.
Proof.
  assert (∀ n, (0 <= sampleRandom n < 1)%R) as Hu
    by (intros n; unfold sampleRandom; lra).
  assert (allWhite 1 [255; 255; 255; 255]%Z) as Hw.
  { intros y x Hy Hx.
    apply Arrays.elem_of_upto in Hy as [Hy [j ->]]; [|done].
    apply Arrays.elem_of_upto in Hx as [Hx [i ->]]; [|done].
    unfold stippleStep in *.
    assert (j = 0%Z) as -> by lia. assert (i = 0%Z) as -> by lia. done. }
  exact (stipple_white_draws_every_dot sampleRandom 1
           [255; 255; 255; 255]%Z 0 Hu Hw).
Defined.
